(** * safe-atlas: the numeric and text helpers of [imagery_helper.py]

    A shallow embedding of the pure part of [imagery_helper.py] (distance and
    pixel-footprint estimation, longitude/latitude to pixel mapping, the
    per-band rescaling of [to_uint8], and the PostGIS text to GeoJSON
    helpers), together with the properties the specification states about
    them.

    Python [float]s are IEEE-754 binary64 numbers: they are modelled by Rocq's
    primitive floats, so every definition of the program below can be
    evaluated, roundings included; the real numbers appear only in the proofs
    about rounding.  Python [int]s are [Z].  A Python call either returns a
    value or raises an exception: [result].  The pixel counts of a raster are
    the C [int]s rasterio reads from the file: unsigned machine integers
    here. *)

From Stdlib Require Import Reals Lra.
From Stdlib Require Import ZArith List String Ascii Bool Lia.
From Stdlib Require Import Uint63 Floats.
Import ListNotations.

Set Warnings "-inexact-float,-register-all".

(* ================================================================== *)
(** * The Python runtime the helpers run on *)
(* ================================================================== *)

Module Py.

(** The exceptions that the modelled code can raise.  [Exception msg] is
    what the source raises itself with [raise Exception(msg)]; the others
    come from the built-ins it calls. *)
Inductive exn : Type :=
| Exception (msg : string)
| ValueError
| ZeroDivisionError
| OverflowError
| IndexError.

Inductive result (A : Type) : Type :=
| Ok (a : A)
| Raise (e : exn).
Arguments Ok {A} a.
Arguments Raise {A} e.

Definition bind {A B : Type} (r : result A) (k : A -> result B) : result B :=
  match r with
  | Ok a => k a
  | Raise e => Raise e
  end.

(** [for x in l: ... f x ...], collecting the results; the first exception
    ends the loop. *)
Fixpoint mapM {A B : Type} (f : A -> result B) (l : list A) : result (list B) :=
  match l with
  | [] => Ok []
  | x :: t =>
      bind (f x) (fun y => bind (mapM f t) (fun ys => Ok (y :: ys)))
  end.

(** [l[i]] *)
Definition getitem {A : Type} (l : list A) (i : nat) : result A :=
  match nth_error l i with
  | Some a => Ok a
  | None => Raise IndexError
  end.

(** ** [str] methods *)

(** [s.split(sep)] for a one-character separator: never empty. *)
Fixpoint split (sep : ascii) (s : string) : list string :=
  match s with
  | EmptyString => [EmptyString]
  | String c rest =>
      if Ascii.eqb c sep then EmptyString :: split sep rest
      else match split sep rest with
           | h :: t => String c h :: t
           | [] => [String c EmptyString]
           end
  end.

(** [l[-1]] on the (non-empty) result of a [split]. *)
Definition last_item (l : list string) : string := List.last l EmptyString.

(** [s.replace(c, '')] *)
Fixpoint remove_char (c : ascii) (s : string) : string :=
  match s with
  | EmptyString => EmptyString
  | String a rest =>
      if Ascii.eqb a c then remove_char c rest else String a (remove_char c rest)
  end.

(** [str.isspace] on the code points below 256. *)
Definition isspace (c : ascii) : bool :=
  let n := nat_of_ascii c in
  ((9 <=? n) && (n <=? 13) || (28 <=? n) && (n <=? 32)
   || (n =? 133) || (n =? 160))%nat.

Fixpoint lstrip (s : string) : string :=
  match s with
  | EmptyString => EmptyString
  | String c rest => if isspace c then lstrip rest else s
  end.

Fixpoint rstrip (s : string) : string :=
  match s with
  | EmptyString => EmptyString
  | String c rest =>
      match rstrip rest with
      | EmptyString => if isspace c then EmptyString else String c EmptyString
      | r => String c r
      end
  end.

(** [s.strip()] *)
Definition strip (s : string) : string := rstrip (lstrip s).

(** ** Numbers *)

(** The integer a finite binary64 number truncates to (towards zero), and
    the largest integer below it. *)
Definition SFtrunc (x : spec_float) : option Z :=
  match x with
  | S754_zero _ => Some 0%Z
  | S754_finite s m e => Some (cond_Zopp s (Z.shiftl (Zpos m) e))
  | _ => None
  end.

Definition SFfloor (x : spec_float) : option Z :=
  match x with
  | S754_zero _ => Some 0%Z
  | S754_finite s m e => Some (Z.shiftl (cond_Zopp s (Zpos m)) e)
  | _ => None
  end.

(** The nearest integer to [m * 2^e], ties to the even one. *)
Definition half_even (m : positive) (e : Z) : Z :=
  match e with
  | Zneg k =>
      let q := Z.shiftr (Zpos m) (Zpos k) in
      let r := (Zpos m - Z.shiftl q (Zpos k))%Z in
      let half := Z.shiftl 1 (Zpos k - 1) in
      match (r ?= half)%Z with
      | Lt => q
      | Gt => (q + 1)%Z
      | Eq => if Z.even q then q else (q + 1)%Z
      end
  | _ => Z.shiftl (Zpos m) e
  end.

(** What a failed conversion of a float to an integer raises: [ValueError]
    on a NaN, [OverflowError] on an infinity. *)
Definition not_an_integer (x : spec_float) : exn :=
  match x with
  | S754_nan => ValueError
  | _ => OverflowError
  end.

(** [int(x)] on a float *)
Definition py_int (x : float) : result Z :=
  match SFtrunc (Prim2SF x) with
  | Some z => Ok z
  | None => Raise (not_an_integer (Prim2SF x))
  end.

(** [round(x)] on a float, one argument: an [int], ties to even. *)
Definition py_round (x : float) : result Z :=
  match Prim2SF x with
  | S754_zero _ => Ok 0%Z
  | S754_finite s m e => Ok (cond_Zopp s (half_even m e))
  | sf => Raise (not_an_integer sf)
  end.

(** The binary64 number nearest to an integer (ties to even). *)
Definition Z2float (z : Z) : float :=
  SF2Prim (binary_normalize prec emax z 0 false).

(** [float(n)] on an [int], also what [n / x] and [x / n] do to [n] first:
    [OverflowError] when [n] is beyond the binary64 range. *)
Definition float_of_int (n : Z) : result float :=
  let f := Z2float n in
  if is_infinity f then Raise OverflowError else Ok f.

(** [x / y] on floats; where the source divides by a non-zero literal the
    model writes the binary64 division itself. *)
Definition truediv (x y : float) : result float :=
  if (y =? 0)%float then Raise ZeroDivisionError else Ok (x / y)%float.

(** [n / y] with [n] an [int] and [y] a float *)
Definition truediv_int_float (n : Z) (y : float) : result float :=
  bind (float_of_int n) (fun x => truediv x y).

End Py.

Notation "x <- a ;; b" := (Py.bind a (fun x => b))
  (at level 61, a at next level, right associativity).

(* ================================================================== *)
(** * The C math library behind Python's [math] module *)
(* ================================================================== *)

(** [math.sin], [math.cos] and [math.atan2] call the platform's libm; the
    repository does not contain it, so it is an interface here. *)
Class Libm : Type := {
  libm_sin : float -> float;
  libm_cos : float -> float;
  libm_atan2 : float -> float -> float
}.

(** [float(s)] on a string is a Python built-in as well: [ValueError] for a
    text that is not a number. *)
Class FloatParser : Type := {
  float_of_str : string -> Py.result float
}.

Module math.
Import Py.

(** CPython's wrapper around a one-argument libm function that cannot
    overflow: a NaN out of a number, or an infinity out of a finite
    number, is a "math domain error". *)
Definition math_1 (f : float -> float) (x : float) : result float :=
  let r := f x in
  if is_nan r && negb (is_nan x) then Raise ValueError
  else if is_infinity r && is_finite x then Raise ValueError
  else Ok r.

(** CPython's wrapper around a two-argument libm function. *)
Definition math_2 (f : float -> float -> float) (x y : float) : result float :=
  let r := f x y in
  if is_nan r && negb (is_nan x) && negb (is_nan y) then Raise ValueError
  else if is_infinity r && is_finite x && is_finite y then Raise OverflowError
  else Ok r.

Definition sin `{Libm} : float -> result float := math_1 libm_sin.
Definition cos `{Libm} : float -> result float := math_1 libm_cos.
Definition sqrt : float -> result float := math_1 PrimFloat.sqrt.
Definition atan2 `{Libm} : float -> float -> result float := math_2 libm_atan2.

End math.

(* ================================================================== *)
(** * The part of NumPy the helpers use *)
(* ================================================================== *)

Module np.
Import Py.

(** A band read by rasterio holds integer samples; [scale] turns it into a
    float64 array when it rescales. *)
Inductive ndarray : Type :=
| IntArr (l : list Z)
| FloatArr (l : list float).

(** [np.max(band)]: [ValueError] on an empty array. *)
Definition max (band : list Z) : result Z :=
  match band with
  | [] => Raise ValueError
  | s :: t => Ok (fold_left Z.max t s)
  end.

(** [np.round(x)] with no decimals is C's [rint]: the nearest integral
    float, ties to even, the sign kept. *)
Definition SFrint (x : spec_float) : spec_float :=
  match x with
  | S754_finite s m e =>
      if (0 <=? e)%Z then x
      else match half_even m e with
           | Z0 => S754_zero s
           | Zpos p => binary_round prec emax s p 0
           | Zneg _ => S754_nan
           end
  | _ => x
  end.

Definition round (x : float) : float := SF2Prim (SFrint (Prim2SF x)).

(** [np.abs(x)] *)
Definition abs (x : float) : float := PrimFloat.abs x.

(** [band / y] on an integer array and a Python float: float64. *)
Definition divide (band : list Z) (y : float) : list float :=
  map (fun s => (Z2float s / y)%float) band.

(** [x.astype(np.uint8)] of one float64 sample: the C cast.  It truncates;
    outside 0..255 C leaves it undefined, and x86-64 builds reduce the
    truncated value modulo 256 (0 beyond the 32-bit range). *)
Definition float_to_uint8 (x : float) : Z :=
  match SFtrunc (Prim2SF x) with
  | Some z => if (Z.abs z <? 2 ^ 31)%Z then (z mod 256)%Z else 0%Z
  | None => 0%Z
  end.

(** [a.astype(np.uint8)]: integers wrap modulo 256. *)
Definition astype_uint8 (a : ndarray) : list Z :=
  match a with
  | IntArr l => map (fun z => (z mod 256)%Z) l
  | FloatArr l => map float_to_uint8 l
  end.

End np.

(* ================================================================== *)
(** * [imagery_helper.py] *)
(* ================================================================== *)

Module imagery_helper.
Import Py.
Local Open Scope string_scope.
Local Open Scope float_scope.

(** What the helpers read of a rasterio dataset: [str(satdata.meta['crs'])]
    (for instance ["EPSG:4326"]), [satdata.bounds], and the pixel counts
    [satdata.width] and [satdata.height]; a pixel count [n] enters a float
    division as [of_uint63 n]. *)
Record BoundingBox : Type := {
  left : float;
  bottom : float;
  right : float;
  top : float
}.

Record DatasetReader : Type := {
  crs : string;
  bounds : BoundingBox;
  width : int;
  height : int
}.

(** JSON values, as the [dict] literals of the GeoJSON helpers build them. *)
Inductive json : Type :=
| JStr (s : string)
| JNum (x : float)
| JList (l : list json)
| JDict (d : list (string * json)).

(** ** [distance_in_m] *)

Definition pi : float := 3.14159265358979.
Definition R_earth : float := 6378.137 * 1000.

Definition distance_in_m `{Libm} (lat1 lon1 lat2 lon2 : float) : result float :=
  let dLat := lat2 * pi / 180.0 - lat1 * pi / 180.0 in
  let dLon := lon2 * pi / 180.0 - lon1 * pi / 180.0 in
  s1 <- math.sin (dLat / 2) ;;
  s2 <- math.sin (dLat / 2) ;;
  c1 <- math.cos (lat1 * pi / 180.0) ;;
  c2 <- math.cos (lat2 * pi / 180.0) ;;
  s3 <- math.sin (dLon / 2) ;;
  s4 <- math.sin (dLon / 2) ;;
  let a := s1 * s2 + c1 * c2 * s3 * s4 in
  p <- math.sqrt a ;;
  q <- math.sqrt (1 - a) ;;
  t <- math.atan2 p q ;;
  let c := 2 * t in
  let d := R_earth * c in
  Ok d.

(** ** [pixel_in_m] *)

(** [str(crs).split(':')[-1]] *)
Definition crs_code (satdata : DatasetReader) : string :=
  last_item (split ":" (crs satdata)).

(** [round(x*100.0)/100.0] *)
Definition round_2 (x : float) : result float :=
  n <- py_round (x * 100.0) ;;
  truediv_int_float n 100.0.

Definition pixel_in_m `{Libm} (satdata : DatasetReader)
  : result (option (list float)) :=
  let crs := crs_code satdata in
  let b := bounds satdata in
  if String.eqb crs "4326" then
    top_dist <- distance_in_m (top b) (left b) (top b) (right b) ;;
    bottom_dist <- distance_in_m (bottom b) (left b) (bottom b) (right b) ;;
    left_dist <- distance_in_m (top b) (left b) (bottom b) (left b) ;;
    right_dist <- distance_in_m (top b) (right b) (bottom b) (right b) ;;
    let ave_width := (top_dist + bottom_dist) / 2.0 in
    let ave_height := (left_dist + right_dist) / 2.0 in
    xres <- truediv ave_width (of_uint63 (width satdata)) ;;
    yres <- truediv ave_height (of_uint63 (height satdata)) ;;
    xres <- round_2 xres ;;
    yres <- round_2 yres ;;
    Ok (Some [xres; yres])
  else Ok None.

(** ** [to_uint8]: the rescaling of the bands (the file is read before and
    written after; that part is rasterio's). *)

(** The inner function [scale]. *)
Definition scale (band : list Z) : result np.ndarray :=
  m <- np.max band ;;
  if (255 <? m)%Z then
    let band := map np.round (map (fun x => x * 255.0) (np.divide band 10000.0)) in
    let band := map (fun x => if 255 <? x then 255 else x) band in
    Ok (np.FloatArr band)
  else Ok (np.IntArr band).

(** [for i, band in enumerate(bands): bands[i] = scale(band).astype(np.uint8)].
    The parameters [min] and [max] are those of the source's signature
    [to_uint8(src_path, out_path, min=0, max=10000)]. *)
Definition to_uint8 (bands : list (list Z)) (min max : Z)
  : result (list (list Z)) :=
  mapM (fun band => a <- scale band ;; Ok (np.astype_uint8 a)) bands.

(** ** [bbox_to_corners] *)

(** The body of the loop over the points. *)
Definition clean_pt `{FloatParser} (point : string) : result (list float) :=
  let point := strip point in
  let lng_lat := split " " point in
  match lng_lat with
  | [lng; lat] =>
      let lng := strip lng in
      let lat := strip lat in
      lat <- float_of_str lat ;;
      lng <- float_of_str lng ;;
      Ok [lng; lat]
  | _ => Raise (Exception "Input point is invalid")
  end.

(** The text between the last ["("] and the end, without [")"]. *)
Definition inner_text (bbox_geometry : string) : string :=
  let geometry := last_item (split "(" bbox_geometry) in
  let geometry := remove_char ")" geometry in
  strip geometry.

Definition bbox_to_corners `{FloatParser} (bbox_geometry : string)
  : result (list float) :=
  let geometry := inner_text bbox_geometry in
  let points := split "," geometry in
  if negb (List.length points =? 2)%nat then
    Raise (Exception "Input bounding box is invalid")
  else
    clean_pts <- mapM clean_pt points ;;
    if negb (List.length clean_pts =? 2)%nat then
      Raise (Exception "Invalid bbox after processing")
    else
      p0 <- getitem clean_pts 0 ;;
      p1 <- getitem clean_pts 1 ;;
      MIN_X <- getitem p0 0 ;;
      MIN_Y <- getitem p0 1 ;;
      MAX_X <- getitem p1 0 ;;
      MAX_Y <- getitem p1 1 ;;
      Ok [MIN_X; MIN_Y; MAX_X; MAX_Y].

(** ** [point_to_lng_lat] *)

Definition point_to_lng_lat `{FloatParser} (point_geometry : string)
  : result (list float) :=
  clean_pt (remove_char ")" (last_item (split "(" point_geometry))).

(** ** [bbox_to_GeoJSON] *)

Definition crs_member (code : string) : json :=
  JDict [("type", JStr "name");
         ("properties", JDict [("name", JStr ("urn:ogc:def:crs:EPSG::" ++ code))])].

Definition position (x y : float) : json := JList [JNum x; JNum y].

(** The value returned, and what [json.dump] is asked to write when
    [out_path] is given. *)
Definition bbox_to_GeoJSON `{FloatParser}
  (bbox_geometry bbox_crs : string) (out_path : option string)
  : result (json * option (string * json)) :=
  corners <- bbox_to_corners bbox_geometry ;;
  c0 <- getitem corners 0 ;;
  c1 <- getitem corners 1 ;;
  c2 <- getitem corners 2 ;;
  c3 <- getitem corners 3 ;;
  let geojson :=
    JDict [("type", JStr "FeatureCollection");
           ("crs", crs_member bbox_crs);
           ("features",
            JList [JDict [("type", JStr "Feature");
                          ("geometry",
                           JDict [("type", JStr "Polygon");
                                  ("coordinates",
                                   JList [JList [position c0 c1;
                                                 position c2 c1;
                                                 position c2 c3;
                                                 position c0 c3;
                                                 position c0 c1]])])]])] in
  Ok (geojson, option_map (fun path => (path, geojson)) out_path).

(** ** [convert_lng_lat_to_pixel] *)

Definition convert_lng_lat_to_pixel (satdata : DatasetReader) (lng lat : float)
  : result (Z * Z) :=
  let b := bounds satdata in
  if (right b <? lng) || (lng <? left b) then
    Raise (Exception "Invalid lat/lng")
  else if (top b <? lat) || (lat <? bottom b) then
    Raise (Exception "Invalid lat/lng")
  else
    let width_in_projected_units := np.abs (right b - left b) in
    let height_in_projected_units := np.abs (top b - bottom b) in
    xres <- truediv (of_uint63 (width satdata)) width_in_projected_units ;;
    yres <- truediv (of_uint63 (height satdata)) height_in_projected_units ;;
    let xpos := (right b - lng) * xres in
    let ypos := (top b - lat) * yres in
    xpos <- py_int xpos ;;
    ypos <- py_int ypos ;;
    Ok (xpos, ypos).

End imagery_helper.

(* ================================================================== *)
(** * The operations as the specification words them *)
(* ================================================================== *)

Module GeoUtils.
Import Py imagery_helper.
Local Open Scope string_scope.
Local Open Scope float_scope.

(** The specification's error kinds, as the exceptions of the source. *)
Definition OutOfBoundsError : exn := Exception "Invalid lat/lng".

Definition MalformedGeometryError (e : exn) : Prop :=
  e = Exception "Input bounding box is invalid"
  \/ e = Exception "Input point is invalid".

(** ** RangeRescaler *)

(** [round((sample / upperBound) * 255)] *)
Definition scaled (sample upperBound : Z) : float :=
  np.round ((Z2float sample / Z2float upperBound) * 255).

(** "clamps any value [> 255] to [255]" *)
Definition clamp_255 (v : float) : float := if 255 <? v then 255 else v.

(** The 8-bit sample a rescaled value is stored as. *)
Definition rescaled_sample (sample upperBound : Z) : Z :=
  np.float_to_uint8 (clamp_255 (scaled sample upperBound)).

Definition rescaleBand (band : list Z) (lowerBound upperBound : Z)
  : result (list Z) :=
  m <- np.max band ;;
  if (255 <? m)%Z then
    Ok (map (fun sample => rescaled_sample sample upperBound) band)
  else Ok band.

(** ** CoordinatePixelMapper *)

(** [x] lies strictly outside the interval from [lo] to [hi]. *)
Definition outside (lo hi x : float) : bool := (x <? lo) || (hi <? x).

(** [x] lies in the closed interval from [lo] to [hi]. *)
Definition inside (lo hi x : float) : bool := (lo <=? x) && (x <=? hi).

(** The largest integer below a float; none below a NaN or an infinity. *)
Definition floor (x : float) : result Z :=
  match SFfloor (Prim2SF x) with
  | Some z => Ok z
  | None => Raise (not_an_integer (Prim2SF x))
  end.

Definition lngLatToPixel (geometry : DatasetReader) (lng lat : float)
  : result (Z * Z) :=
  let b := bounds geometry in
  if outside (left b) (right b) lng || outside (bottom b) (top b) lat then
    Raise OutOfBoundsError
  else
    let xres := of_uint63 (width geometry) / (right b - left b) in
    let yres := of_uint63 (height geometry) / (top b - bottom b) in
    x <- floor ((right b - lng) * xres) ;;
    y <- floor ((top b - lat) * yres) ;;
    Ok (x, y).

(** ** DistanceCalculator and PixelFootprintEstimator *)

Record GeoPoint : Type := {
  latitude : float;
  longitude : float
}.

Definition distanceMeters `{Libm} (a b : GeoPoint) : result float :=
  distance_in_m (latitude a) (longitude a) (latitude b) (longitude b).




(** ** GeometryTextConverter *)

(** The comma-separated pairs of the parenthesized group, and the
    space-separated tokens of a pair. *)
Definition pairs (text : string) : list string := split "," (inner_text text).
Definition tokens (pair : string) : list string := split " " (strip pair).

(** Every token that is read as a number is one. *)
Definition numeric `{FloatParser} (token : string) : Prop :=
  exists x, float_of_str (strip token) = Ok x.

(** The outer ring of the polygon of a feature collection: what a reader of
    the GeoJSON finds under features[0].geometry.coordinates[0]. *)
Definition member (key : string) (j : json) : option json :=
  match j with
  | JDict d =>
      option_map snd (find (fun kv => String.eqb (fst kv) key) d)
  | _ => None
  end.

Definition item (i : nat) (j : json) : option json :=
  match j with
  | JList l => nth_error l i
  | _ => None
  end.

Definition pair_of (j : json) : option (float * float) :=
  match j with
  | JList [JNum x; JNum y] => Some (x, y)
  | _ => None
  end.

Definition and_then {A B : Type} (o : option A) (f : A -> option B) : option B :=
  match o with
  | Some a => f a
  | None => None
  end.

Fixpoint all_some {A : Type} (l : list (option A)) : option (list A) :=
  match l with
  | [] => Some []
  | Some a :: t => option_map (cons a) (all_some t)
  | None :: _ => None
  end.

Definition polygon_ring (geojson : json) : option (list (float * float)) :=
  and_then (member "features" geojson) (fun fs =>
  and_then (item 0 fs) (fun f =>
  and_then (member "geometry" f) (fun g =>
  and_then (member "coordinates" g) (fun cs =>
  and_then (item 0 cs) (fun ring =>
  match ring with
  | JList ps => all_some (map pair_of ps)
  | _ => None
  end))))).

End GeoUtils.

(* ================================================================== *)
(** * Stand-ins for the built-ins, to evaluate the helpers *)
(* ================================================================== *)

Module Standins.
Import Py.
Local Open Scope string_scope.

(** [float(s)] on plain decimal literals: an optional sign, digits, an
    optional fraction.  Python's [float] accepts more (exponents, [inf],
    [nan], underscores); on these literals it returns the nearest binary64
    number, as here. *)
Definition digit_of (c : ascii) : option Z :=
  let n := nat_of_ascii c in
  if ((48 <=? n) && (n <=? 57))%nat then Some (Z.of_nat (n - 48)) else None.

Fixpoint read_digits (s : string) (acc : Z) (n : nat) : Z * nat * string :=
  match s with
  | String c rest =>
      match digit_of c with
      | Some d => read_digits rest (10 * acc + d)%Z (S n)
      | None => (acc, n, s)
      end
  | EmptyString => (acc, n, s)
  end.

(** The binary64 number nearest to [(-1)^neg * N / 10^k]. *)
Definition decimal_value (neg : bool) (N : Z) (k : nat) : float :=
  match N with
  | Zpos p =>
      SF2Prim (SFdiv prec emax (S754_finite neg p 0)
                 (S754_finite false (Z.to_pos (10 ^ Z.of_nat k)) 0))
  | _ => if neg then neg_zero else zero
  end.

Definition parse_decimal (s : string) : result float :=
  let s := strip s in
  let (neg, body) :=
    match s with
    | String "-" r => (true, r)
    | String "+" r => (false, r)
    | _ => (false, s)
    end in
  let '(ip, ni, rest) := read_digits body 0 0 in
  match rest with
  | EmptyString =>
      if (ni =? 0)%nat then Raise ValueError else Ok (decimal_value neg ip 0)
  | String "." frac =>
      let '(N, nf, rest') := read_digits frac ip 0 in
      match rest' with
      | EmptyString =>
          if (ni + nf =? 0)%nat then Raise ValueError
          else Ok (decimal_value neg N nf)
      | _ => Raise ValueError
      end
  | _ => Raise ValueError
  end.

Definition decimal_parser : FloatParser := {| float_of_str := parse_decimal |}.

(** A libm for small angles, from the first terms of the Taylor series. *)
Definition small_sin (x : float) : float := (x * (1 - x * x / 6))%float.
Definition small_cos (x : float) : float := (1 - x * x / 2)%float.
Definition small_atan2 (y x : float) : float := (y / x)%float.

Definition small_angle_libm : Libm :=
  {| libm_sin := small_sin; libm_cos := small_cos; libm_atan2 := small_atan2 |}.

End Standins.

(* ================================================================== *)
(** * Sample inputs *)
(* ================================================================== *)

Module Examples.
Import imagery_helper GeoUtils.
Local Open Scope string_scope.
Local Open Scope float_scope.

(** A raster of 1000 x 1000 pixels over 19 x 19 degrees. *)
Definition degrees_19 : DatasetReader :=
  {| crs := "EPSG:4326";
     bounds := {| left := 0; bottom := 0; right := 19; top := 19 |};
     width := 1000; height := 1000 |}.

(** A raster of 1000 x 1000 pixels over one degree. *)
Definition one_degree : DatasetReader :=
  {| crs := "EPSG:4326";
     bounds := {| left := 0; bottom := 0; right := 1; top := 1 |};
     width := 1000; height := 1000 |}.

(** A raster of 100 x 100 pixels over a hundredth of a degree. *)
Definition small_tile : DatasetReader :=
  {| crs := "EPSG:4326";
     bounds := {| left := 0; bottom := 0; right := 0.01; top := 0.01 |};
     width := 100; height := 100 |}.

(** The same tile in a projected CRS. *)
Definition utm_tile : DatasetReader :=
  {| crs := "EPSG:32618";
     bounds := bounds small_tile; width := 100; height := 100 |}.

(** Two points about a kilometre apart. *)
Definition nearby : GeoPoint := {| latitude := 0.009; longitude := 0.002 |}.
Definition origin : GeoPoint := {| latitude := 0; longitude := 0 |}.

End Examples.

(* ================================================================== *)
(** * Signs of binary64 numbers *)
(* ================================================================== *)

(** A binary64 number that is not below zero: zeros and NaN count. *)
Definition SFnonneg (x : spec_float) : Prop :=
  match x with
  | S754_finite s _ _ | S754_infinity s => s = false
  | _ => True
  end.

(** A binary64 number above zero. *)
Definition SFpositive (x : spec_float) : Prop :=
  match x with
  | S754_finite s _ _ | S754_infinity s => s = false
  | _ => False
  end.

(** A binary64 number that is a number and not an infinity. *)
Definition SFfinite (x : spec_float) : Prop :=
  match x with
  | S754_zero _ | S754_finite _ _ _ => True
  | _ => False
  end.

(* ================================================================== *)
(** * Rounding, and the real numbers behind binary64 numbers *)
(* ================================================================== *)

(** The position of a remainder [rho] of a division by [C]: none, or below,
    at, or above the half of [C]. *)
Definition loc_of (rho C : Z) : location :=
  if (rho =? 0)%Z then loc_Exact else loc_Inexact (2 * rho ?= C)%Z.

(** A shift record holds the quotient of [A] by [C] and the position of the
    remainder. *)
Definition represents (mrs : shr_record) (A C : Z) : Prop :=
  shr_m mrs = (A / C)%Z /\ loc_of_shr_record mrs = loc_of (A mod C) C.

(** The real number a power of two stands for, and the one a binary
    floating-point number stands for (zero for the non-finite ones). *)
Definition bpow (e : Z) : R := powerRZ 2 e.

Definition SF2R (x : spec_float) : R :=
  match x with
  | S754_finite s m e => (IZR (cond_Zopp s (Zpos m)) * bpow e)%R
  | _ => 0%R
  end.

(* ================================================================== *)
(** * Further functions of the source, and the words of their properties *)
(* ================================================================== *)

Module Further.
Import Py imagery_helper GeoUtils.
Local Open Scope string_scope.

(** [c in s] *)
Fixpoint occurs (c : ascii) (s : string) : bool :=
  match s with
  | EmptyString => false
  | String a rest => Ascii.eqb a c || occurs c rest
  end.

(** A white-space character somewhere in [s]. *)
Fixpoint has_space (s : string) : bool :=
  match s with
  | EmptyString => false
  | String a rest => isspace a || has_space rest
  end.

(** [' ' * n] *)
Fixpoint spaces (n : nat) : string :=
  match n with
  | O => EmptyString
  | S k => String " " (spaces k)
  end.

(** ** [point_to_GeoJSON] *)

Definition point_to_GeoJSON `{FloatParser}
  (point_geometry point_crs : string) (out_path : option string)
  : result (json * option (string * json)) :=
  lng_lat <- point_to_lng_lat point_geometry ;;
  match lng_lat with
  | [lng; lat] =>
      let geojson :=
        JDict [("type", JStr "FeatureCollection");
               ("crs", crs_member point_crs);
               ("features",
                JList [JDict [("type", JStr "Feature");
                              ("geometry",
                               JDict [("type", JStr "Point");
                                      ("coordinates",
                                       JList [position lng lat])])]])] in
      Ok (geojson, option_map (fun path => (path, geojson)) out_path)
  | _ => Raise ValueError
  end.

(** The integer nearest to [a / b], ties to the even one. *)
Definition nearest_even (a b : Z) : Z :=
  round_nearest_even (a / b) (loc_of (a mod b) b).

(** The integers [start], [start + 1], ..., [n] of them. *)
Fixpoint range (n : nat) (start : Z) : list Z :=
  match n with
  | O => []
  | S k => start :: range k (start + 1)
  end.

(** What a reader of a GeoJSON document finds under crs.properties.name,
    under features[0].geometry.type and, as a list of positions, under
    features[0].geometry.coordinates. *)
Definition as_string (j : json) : option string :=
  match j with
  | JStr s => Some s
  | _ => None
  end.

Definition crs_name (geojson : json) : option string :=
  and_then (member "crs" geojson) (fun c =>
  and_then (member "properties" c) (fun p =>
  and_then (member "name" p) as_string)).

Definition first_geometry (geojson : json) : option json :=
  and_then (member "features" geojson) (fun fs =>
  and_then (item 0 fs) (fun f => member "geometry" f)).

Definition geometry_type (geojson : json) : option string :=
  and_then (first_geometry geojson) (fun g =>
  and_then (member "type" g) as_string).

Definition coordinates (geojson : json) : option (list (float * float)) :=
  and_then (first_geometry geojson) (fun g =>
  and_then (member "coordinates" g) (fun cs =>
  match cs with
  | JList ps => all_some (map pair_of ps)
  | _ => None
  end)).

(** [v] is what the real number [X] is rounded to in the format: a
    multiple [n * 2 ^ E] of the unit of the exponent [E] of [X], at most
    half a unit away, and less than half a unit when [n] is odd. *)
Definition rounds_to (prec emax : Z) (X v : R) : Prop :=
  exists E n : Z,
    (SpecFloat.emin prec emax <= E)%Z /\ (0 <= n)%Z
    /\ v = (IZR n * bpow E)%R
    /\ (Rabs (v - X) <= bpow E / 2)%R
    /\ (Z.odd n = true -> (Rabs (v - X) < bpow E / 2)%R)
    /\ (X < bpow (E + prec))%R
    /\ ((SpecFloat.emin prec emax < E)%Z -> (bpow (E + prec - 1) <= X)%R).

(** Zero, or a positive finite number. *)
Definition plain (x : spec_float) : Prop :=
  (exists s, x = S754_zero s) \/ exists m e, x = S754_finite false m e.

(** ** [to_uint8] on a raster of float samples

    [satdata.read()] returns the samples in the type of the file; on a
    float64 raster the bands are arrays of floats, and the same lines of
    the source run on them. *)

(** [np.maximum(x, y)]: a NaN wins. *)
Definition maximum (x y : float) : float :=
  if (y <=? x)%float || is_nan x then x else y.

(** [np.max(band)] on a float array: [ValueError] on an empty one. *)
Definition max_float (band : list float) : result float :=
  match band with
  | [] => Raise ValueError
  | s :: t => Ok (fold_left maximum t s)
  end.

(** The inner function [scale] on a float band. *)
Definition scale_float (band : list float) : result (list float) :=
  m <- max_float band ;;
  if (255 <? m)%float then
    let band :=
      map np.round (map (fun x => x * 255.0) (map (fun x => x / 10000.0) band))%float in
    let band := map (fun x => if 255 <? x then 255 else x)%float band in
    Ok band
  else Ok band.

(** [for i, band in enumerate(bands): bands[i] = scale(band).astype(np.uint8)]
    on float bands. *)
Definition to_uint8_float (bands : list (list float)) (min max : Z)
  : result (list (list Z)) :=
  mapM (fun band => a <- scale_float band ;; Ok (map np.float_to_uint8 a)) bands.

(** A dataset that is one vertical line. *)
Definition vertical_line : DatasetReader :=
  {| crs := "EPSG:4326";
     bounds := {| left := 3; bottom := 0; right := 3; top := 1 |}%float;
     width := 10; height := 10 |}.

(** The tile of [small_tile] moved five degrees east and made twice as
    wide; the same tile without pixels across. *)
Definition wide_tile : DatasetReader :=
  {| crs := "EPSG:4326";
     bounds := {| left := 5; bottom := 0; right := 5.02; top := 0.01 |}%float;
     width := 100; height := 100 |}.

Definition no_columns : DatasetReader :=
  {| crs := "EPSG:4326";
     bounds := bounds Examples.small_tile; width := 0; height := 100 |}.

End Further.

(* ================================================================== *)
(** * Facts about the binary64 format, from its specification *)
(* ================================================================== *)

Module SpecFloatFacts.
Local Open Scope Z_scope.

Section Format.
Variables prec emax : Z.
Hypothesis prec_pos : 0 < prec.

Abbreviation emin := (SpecFloat.emin prec emax).
Abbreviation fexp := (SpecFloat.fexp prec emax).

Lemma digits2_pos_bounds (m : positive) :
  2 ^ (Zpos (digits2_pos m) - 1) <= Zpos m < 2 ^ Zpos (digits2_pos m).
Proof.
  induction m as [m IH | m IH | ]; cbn [digits2_pos].
  - rewrite Pos2Z.inj_succ, (Pos2Z.inj_xI m).
    replace (Z.succ (Zpos (digits2_pos m)) - 1)
      with (Z.succ (Zpos (digits2_pos m) - 1)) by lia.
    rewrite !Z.pow_succ_r by lia.
    destruct IH as [IH1 IH2]. revert IH1 IH2.
    generalize (2 ^ (Zpos (digits2_pos m) - 1)), (2 ^ Zpos (digits2_pos m)). lia.
  - rewrite Pos2Z.inj_succ, (Pos2Z.inj_xO m).
    replace (Z.succ (Zpos (digits2_pos m)) - 1)
      with (Z.succ (Zpos (digits2_pos m) - 1)) by lia.
    rewrite !Z.pow_succ_r by lia.
    destruct IH as [IH1 IH2]. revert IH1 IH2.
    generalize (2 ^ (Zpos (digits2_pos m) - 1)), (2 ^ Zpos (digits2_pos m)). lia.
  - cbn. lia.
Qed.

Lemma iter_xO_value (m d : positive) :
  Zpos (Pos.iter xO m d) = Zpos m * 2 ^ Zpos d.
Proof.
  induction d as [ | d IH] using Pos.peano_ind.
  - cbn. lia.
  - rewrite Pos.iter_succ, Pos2Z.inj_xO, IH, Pos2Z.inj_succ, Z.pow_succ_r by lia. lia.
Qed.

Lemma shr_1_m (mrs : shr_record) :
  0 <= shr_m mrs -> shr_m (shr_1 mrs) = Z.div2 (shr_m mrs).
Proof.
  destruct mrs as [m r s]. cbn [shr_m]. intros Hm.
  destruct m as [ | [p | p | ] | p]; cbn; try reflexivity; lia.
Qed.

Lemma iter_shr_1_m (p : positive) : forall mrs : shr_record,
  0 <= shr_m mrs ->
  shr_m (iter_pos shr_1 p mrs) = shr_m mrs / 2 ^ Zpos p.
Proof.
  assert (step : forall mrs, 0 <= shr_m mrs ->
            shr_m (shr_1 mrs) = shr_m mrs / 2 /\ 0 <= shr_m (shr_1 mrs)).
  { intros mrs H. rewrite shr_1_m, Z.div2_div by assumption.
    split; [reflexivity | apply Z.div_pos; lia]. }
  assert (pow_xI : forall q, 2 ^ Zpos q~1 = 2 * 2 ^ Zpos q * 2 ^ Zpos q).
  { intros q. rewrite (Pos2Z.inj_xI q).
    replace (2 * Zpos q + 1) with (1 + Zpos q + Zpos q) by lia.
    rewrite !Z.pow_add_r by lia. reflexivity. }
  assert (pow_xO : forall q, 2 ^ Zpos q~0 = 2 ^ Zpos q * 2 ^ Zpos q).
  { intros q. rewrite (Pos2Z.inj_xO q).
    replace (2 * Zpos q) with (Zpos q + Zpos q) by lia.
    rewrite Z.pow_add_r by lia. reflexivity. }
  assert (pow_pos : forall q, 0 < 2 ^ Zpos q) by (intros q; apply Z.pow_pos_nonneg; lia).
  induction p as [p IH | p IH | ]; intros mrs Hm; cbn [iter_pos].
  - destruct (step mrs Hm) as [E1 P1]. specialize (pow_pos p).
    assert (P2 : 0 <= shr_m (iter_pos shr_1 p (shr_1 mrs))).
    { rewrite IH by assumption. apply Z.div_pos; lia. }
    rewrite (IH _ P2), (IH _ P1), E1, pow_xI.
    rewrite !Z.div_div by lia. f_equal. lia.
  - specialize (pow_pos p).
    assert (P2 : 0 <= shr_m (iter_pos shr_1 p mrs)).
    { rewrite IH by assumption. apply Z.div_pos; lia. }
    rewrite (IH _ P2), (IH _ Hm), pow_xO.
    rewrite Z.div_div by lia. reflexivity.
  - destruct (step mrs Hm) as [E1 _]. rewrite E1. reflexivity.
Qed.


(** ** The sign of a rounded number is the sign it is given *)

Lemma binary_round_aux_cases (s : bool) (m e : Z) (l : location) :
  let r := binary_round_aux prec emax s m e l in
  r = S754_nan \/ r = S754_zero s \/ r = S754_infinity s
  \/ exists m' e', r = S754_finite s m' e'.
Proof.
  unfold binary_round_aux.
  destruct (shr_fexp prec emax m e l) as [mrs' e'].
  destruct (shr_fexp prec emax _ e' loc_Exact) as [mrs'' e''].
  cbv zeta.
  destruct (shr_m mrs'') as [ | p | p];
    [right; left; reflexivity | | left; reflexivity].
  destruct (e'' <=? emax - prec);
    [right; right; right; eauto | right; right; left; reflexivity].
Qed.

Lemma binary_round_aux_opp (s : bool) (m e : Z) (l : location) :
  binary_round_aux prec emax (negb s) m e l
  = SFopp (binary_round_aux prec emax s m e l).
Proof.
  unfold binary_round_aux.
  destruct (shr_fexp prec emax m e l) as [mrs' e'].
  destruct (shr_fexp prec emax _ e' loc_Exact) as [mrs'' e''].
  destruct (shr_m mrs'') as [ | p | p]; try reflexivity.
  destruct (e'' <=? emax - prec); reflexivity.
Qed.

Lemma binary_round_cases (s : bool) (m : positive) (e : Z) :
  let r := binary_round prec emax s m e in
  r = S754_nan \/ r = S754_zero s \/ r = S754_infinity s
  \/ exists m' e', r = S754_finite s m' e'.
Proof.
  unfold binary_round. destruct (shl_align m e _) as [mz ez].
  apply binary_round_aux_cases.
Qed.

Lemma binary_round_opp (s : bool) (m : positive) (e : Z) :
  binary_round prec emax (negb s) m e = SFopp (binary_round prec emax s m e).
Proof.
  unfold binary_round. destruct (shl_align m e _) as [mz ez].
  apply binary_round_aux_opp.
Qed.

Lemma binary_round_aux_nonneg (m e : Z) (l : location) :
  SFnonneg (binary_round_aux prec emax false m e l).
Proof.
  destruct (binary_round_aux_cases false m e l) as [E | [E | [E | (m' & e' & E)]]];
    rewrite E; cbn; auto.
Qed.

Lemma binary_round_nonneg (m : positive) (e : Z) :
  SFnonneg (binary_round prec emax false m e).
Proof.
  destruct (binary_round_cases false m e) as [E | [E | [E | (m' & e' & E)]]];
    rewrite E; cbn; auto.
Qed.

(** ** A positive number at or above the smallest exponent does not round
    to zero *)

Lemma fexp_ge_emin (e : Z) : emin <= fexp e.
Proof. unfold SpecFloat.fexp. lia. Qed.

Lemma shr_record_of_loc_m (m : Z) (l : location) :
  shr_m (shr_record_of_loc m l) = m.
Proof. destruct l as [ | [ | | ]]; reflexivity. Qed.

Lemma shr_fexp_pos (m : positive) (e : Z) (l : location) :
  emin <= e ->
  0 < shr_m (fst (shr_fexp prec emax (Zpos m) e l))
  /\ emin <= snd (shr_fexp prec emax (Zpos m) e l).
Proof.
  intros He. unfold shr_fexp, shr. cbn [Zdigits2].
  pose proof (digits2_pos_bounds m) as [Hlo Hhi].
  set (d := Zpos (digits2_pos m)) in *.
  destruct (fexp (d + e) - e) as [ | k | k] eqn:En; cbn [fst snd];
    rewrite ?shr_record_of_loc_m; try (split; lia).
  unfold SpecFloat.fexp in En.
  assert (Ek : Zpos k = d - prec) by lia.
  rewrite iter_shr_1_m by (rewrite shr_record_of_loc_m; lia).
  rewrite shr_record_of_loc_m. split; [ | lia].
  assert (Hp : 0 < 2 ^ Zpos k) by (apply Z.pow_pos_nonneg; lia).
  assert (Hle : 2 ^ Zpos k <= 2 ^ (d - 1)) by (apply Z.pow_le_mono_r; lia).
  assert (1 <= Zpos m / 2 ^ Zpos k) by (apply Z.div_le_lower_bound; lia).
  lia.
Qed.

Lemma round_nearest_even_ge (m : Z) (l : location) :
  m <= round_nearest_even m l.
Proof.
  destruct l as [ | [ | | ]]; cbn; try lia. destruct (Z.even m); lia.
Qed.

Lemma binary_round_aux_positive (s : bool) (m : positive) (e : Z) (l : location) :
  emin <= e ->
  let r := binary_round_aux prec emax s (Zpos m) e l in
  r = S754_infinity s \/ exists m' e', r = S754_finite s m' e'.
Proof.
  intros He. unfold binary_round_aux.
  pose proof (shr_fexp_pos m e l He) as [H1 H2].
  destruct (shr_fexp prec emax (Zpos m) e l) as [mrs' e']. cbn [fst snd] in H1, H2.
  pose proof (round_nearest_even_ge (shr_m mrs') (loc_of_shr_record mrs')) as Hr.
  destruct (round_nearest_even (shr_m mrs') (loc_of_shr_record mrs')) as [ | m2 | m2];
    try lia.
  pose proof (shr_fexp_pos m2 e' loc_Exact H2) as [H3 _].
  destruct (shr_fexp prec emax (Zpos m2) e' loc_Exact) as [mrs'' e'']. cbn [fst] in H3.
  destruct (shr_m mrs'') as [ | p | p]; try lia.
  destruct (e'' <=? emax - prec); eauto.
Qed.

Lemma binary_round_positive (s : bool) (m : positive) (e : Z) :
  emin <= e ->
  let r := binary_round prec emax s m e in
  r = S754_infinity s \/ exists m' e', r = S754_finite s m' e'.
Proof.
  intros He. unfold binary_round, shl_align.
  pose proof (fexp_ge_emin (Zpos (digits2_pos m) + e)) as Hf.
  destruct (fexp (Zpos (digits2_pos m) + e) - e) as [ | k | k] eqn:En;
    apply binary_round_aux_positive; lia.
Qed.


(** ** What validity says of a mantissa and its exponent *)

Lemma valid_finite_bounds (s : bool) (m : positive) (e : Z) :
  SpecFloat.valid_binary prec emax (S754_finite s m e) = true ->
  emin <= e /\ Zpos (digits2_pos m) <= prec
  /\ (emin < e -> Zpos (digits2_pos m) = prec).
Proof.
  cbn [SpecFloat.valid_binary]. unfold bounded, canonical_mantissa, SpecFloat.fexp.
  intros H. apply andb_prop in H. destruct H as [H _].
  apply Z.eqb_eq in H. lia.
Qed.

Lemma shl_align_value (m : positive) (e e' : Z) :
  e' <= e -> Zpos (fst (shl_align m e e')) = Zpos m * 2 ^ (e - e').
Proof.
  intros He. unfold shl_align.
  destruct (e' - e) as [ | k | k] eqn:Ek; cbn [fst]; try lia.
  - replace (e - e') with 0 by lia. cbn. lia.
  - rewrite iter_xO_value. f_equal. f_equal. lia.
Qed.

(** Of two valid numbers, the one with the larger exponent has the larger
    magnitude. *)
Lemma aligned_lt (s1 s2 : bool) (m1 m2 : positive) (e1 e2 : Z) :
  SpecFloat.valid_binary prec emax (S754_finite s1 m1 e1) = true ->
  SpecFloat.valid_binary prec emax (S754_finite s2 m2 e2) = true ->
  e1 < e2 ->
  Zpos (fst (shl_align m1 e1 (Z.min e1 e2)))
  < Zpos (fst (shl_align m2 e2 (Z.min e1 e2))).
Proof.
  intros V1 V2 Hlt.
  apply valid_finite_bounds in V1. destruct V1 as (Hm1 & Hd1 & _).
  apply valid_finite_bounds in V2. destruct V2 as (_ & _ & Hd2).
  rewrite !shl_align_value by lia.
  replace (Z.min e1 e2) with e1 by lia.
  replace (e1 - e1) with 0 by lia. rewrite Z.pow_0_r, Z.mul_1_r.
  pose proof (digits2_pos_bounds m1) as [_ Hhi1].
  pose proof (digits2_pos_bounds m2) as [Hlo2 _].
  rewrite Hd2 in Hlo2 by lia.
  assert (H1 : 2 ^ Zpos (digits2_pos m1) <= 2 ^ prec)
    by (apply Z.pow_le_mono_r; lia).
  assert (H2 : 2 ^ prec = 2 ^ (prec - 1) * 2 ^ 1).
  { rewrite <- Z.pow_add_r by lia. f_equal. lia. }
  assert (H3 : 2 ^ 1 <= 2 ^ (e2 - e1)) by (apply Z.pow_le_mono_r; lia).
  assert (H4 : 0 < 2 ^ (prec - 1)) by (apply Z.pow_pos_nonneg; lia).
  nia.
Qed.

Lemma aligned_same_exponent (m1 : positive) (e : Z) :
  fst (shl_align m1 e (Z.min e e)) = m1.
Proof.
  unfold shl_align. replace (Z.min e e - e) with 0 by lia. reflexivity.
Qed.

(** The exact difference of two valid finite numbers has the sign their
    comparison tells. *)
Lemma finite_difference_sign (s1 s2 : bool) (m1 m2 : positive) (e1 e2 : Z) :
  SpecFloat.valid_binary prec emax (S754_finite s1 m1 e1) = true ->
  SpecFloat.valid_binary prec emax (S754_finite s2 m2 e2) = true ->
  let M := cond_Zopp s1 (Zpos (fst (shl_align m1 e1 (Z.min e1 e2))))
           - cond_Zopp s2 (Zpos (fst (shl_align m2 e2 (Z.min e1 e2)))) in
  match SFcompare (S754_finite s1 m1 e1) (S754_finite s2 m2 e2) with
  | Some Lt => M < 0
  | Some Eq => M = 0
  | Some Gt => 0 < M
  | None => False
  end.
Proof.
  intros V1 V2 M. subst M. cbn [SFcompare].
  destruct (Z.compare_spec e1 e2) as [E | L | G].
  - subst e2. rewrite !aligned_same_exponent.
    change (Pos.compare_cont Eq m1 m2) with (Pos.compare m1 m2).
    destruct s1, s2; cbn [cond_Zopp]; try lia;
      destruct (Pos.compare_spec m1 m2); cbn [CompOpp]; lia.
  - pose proof (aligned_lt s1 s2 m1 m2 e1 e2 V1 V2 L).
    destruct s1, s2; cbn [cond_Zopp]; lia.
  - pose proof (aligned_lt s2 s1 m2 m1 e2 e1 V2 V1 G) as H.
    rewrite (Z.min_comm e2 e1) in H.
    destruct s1, s2; cbn [cond_Zopp]; lia.
Qed.

Lemma binary_normalize_nonneg (M e : Z) :
  0 <= M -> SFnonneg (binary_normalize prec emax M e false).
Proof.
  destruct M as [ | p | p]; intros H; cbn [binary_normalize]; try lia.
  - exact I.
  - apply binary_round_nonneg.
Qed.

Lemma binary_normalize_positive (M e : Z) :
  0 < M -> emin <= e -> SFpositive (binary_normalize prec emax M e false).
Proof.
  destruct M as [ | p | p]; intros H He; cbn [binary_normalize]; try lia.
  destruct (binary_round_positive false p e He) as [E | (m' & e' & E)];
    rewrite E; reflexivity.
Qed.

(** ** Subtraction against the order *)

Lemma SFsub_nonneg (x y : spec_float) :
  SpecFloat.valid_binary prec emax x = true ->
  SpecFloat.valid_binary prec emax y = true ->
  SFltb x y = false -> SFnonneg (SFsub prec emax x y).
Proof.
  intros Vx Vy. unfold SFltb.
  destruct x as [sx | sx | | sx mx ex], y as [sy | sy | | sy my ey];
    try solve [ try destruct sx; try destruct sy; cbn; intros H;
                try discriminate; try reflexivity; exact I ].
  intros H. cbn [SFsub]. apply binary_normalize_nonneg.
  pose proof (finite_difference_sign _ _ _ _ _ _ Vx Vy) as Hs. cbv zeta in Hs.
  destruct (SFcompare (S754_finite sx mx ex) (S754_finite sy my ey))
    as [[ | | ] | ]; try discriminate; lia.
Qed.

Lemma SFsub_positive (x y : spec_float) :
  SpecFloat.valid_binary prec emax x = true ->
  SpecFloat.valid_binary prec emax y = true ->
  SFltb y x = true -> SFpositive (SFsub prec emax x y).
Proof.
  intros Vx Vy. unfold SFltb.
  destruct x as [sx | sx | | sx mx ex], y as [sy | sy | | sy my ey];
    try solve [ try destruct sx; try destruct sy; cbn; intros H;
                try discriminate; reflexivity ].
  intros H. cbn [SFsub].
  pose proof (valid_finite_bounds _ _ _ Vx) as (Hex & _).
  pose proof (valid_finite_bounds _ _ _ Vy) as (Hey & _).
  apply binary_normalize_positive; [ | lia].
  pose proof (finite_difference_sign _ _ _ _ _ _ Vy Vx) as Hs. cbv zeta in Hs.
  rewrite (Z.min_comm ey ex) in Hs.
  destruct (SFcompare (S754_finite sy my ey) (S754_finite sx mx ex))
    as [[ | | ] | ]; try discriminate; lia.
Qed.

Lemma SFsub_diag (x : spec_float) :
  match x with S754_zero _ | S754_finite _ _ _ => True | _ => False end ->
  SFsub prec emax x x = S754_zero false.
Proof.
  destruct x as [[ | ] | | | s m e]; intros H; try contradiction; try reflexivity.
  cbn [SFsub]. rewrite Z.sub_diag. reflexivity.
Qed.

(** ** The order *)

Lemma SFcompare_antisym (x y : spec_float) :
  SFcompare y x = option_map CompOpp (SFcompare x y).
Proof.
  destruct x as [sx | sx | | sx mx ex], y as [sy | sy | | sy my ey];
    try solve [ try destruct sx; try destruct sy; reflexivity ].
  cbn [SFcompare option_map].
  rewrite (Z.compare_antisym ey ex).
  change (Pos.compare_cont Eq mx my) with (Pos.compare mx my).
  change (Pos.compare_cont Eq my mx) with (Pos.compare my mx).
  rewrite (Pos.compare_antisym my mx).
  destruct sx, sy; try reflexivity;
    destruct (ey ?= ex); cbn [CompOpp]; try reflexivity;
    destruct (my ?= mx)%positive; reflexivity.
Qed.

Lemma SFltb_asym (x y : spec_float) : SFltb x y = true -> SFltb y x = false.
Proof.
  unfold SFltb. rewrite (SFcompare_antisym x y).
  destruct (SFcompare x y) as [[ | | ] | ]; cbn; congruence.
Qed.

Lemma SFltb_irrefl (x : spec_float) : SFltb x x = false.
Proof.
  destruct (SFltb x x) eqn:E; [ | reflexivity].
  pose proof (SFltb_asym x x E). congruence.
Qed.

(** Between two numbers, "not above" is "at or below". *)
Lemma SFltb_SFleb (x y : spec_float) :
  x <> S754_nan -> y <> S754_nan -> SFltb y x = negb (SFleb x y).
Proof.
  intros Hx Hy. unfold SFltb, SFleb. rewrite (SFcompare_antisym x y).
  destruct (SFcompare x y) as [[ | | ] | ] eqn:E; try reflexivity.
  destruct x, y; cbn in E; congruence.
Qed.

Lemma SFeqb_refl_not_nan (x : spec_float) : SFeqb x x = true -> x <> S754_nan.
Proof. intros H E. subst x. discriminate. Qed.

Lemma SFpositive_not_zero (x : spec_float) (s : bool) :
  SFpositive x -> SFeqb x (S754_zero s) = false.
Proof.
  destruct x as [sx | sx | | sx m e]; cbn; intros H; try contradiction;
    subst sx; reflexivity.
Qed.

Lemma SFpositive_nonneg (x : spec_float) : SFpositive x -> SFnonneg x.
Proof. destruct x; cbn; auto. Qed.

Lemma SFpositive_abs (x : spec_float) : SFpositive x -> SFabs x = x.
Proof.
  destruct x as [sx | sx | | sx m e]; cbn; intros H; try contradiction;
    subst sx; reflexivity.
Qed.

(** ** Products and quotients of numbers that are not below zero *)

Lemma SFmul_nonneg (x y : spec_float) :
  SFnonneg x -> SFnonneg y -> SFnonneg (SFmul prec emax x y).
Proof.
  destruct x as [sx | sx | | sx mx ex], y as [sy | sy | | sy my ey];
    cbn; intros Hx Hy; subst; try exact I; try reflexivity.
  apply binary_round_aux_nonneg.
Qed.

Lemma SFdiv_nonneg (x y : spec_float) :
  SFnonneg x -> SFpositive y -> SFnonneg (SFdiv prec emax x y).
Proof.
  destruct x as [sx | sx | | sx mx ex], y as [sy | sy | | sy my ey];
    cbn [SFnonneg SFpositive SFdiv]; intros Hx Hy; subst;
    try contradiction; try exact I; try reflexivity.
  cbn [xorb].
  destruct (SFdiv_core_binary prec emax (Zpos mx) ex (Zpos my) ey) as [[mz ez] lz].
  apply binary_round_aux_nonneg.
Qed.

(** ** Opposites *)

Lemma SFopp_involutive (x : spec_float) : SFopp (SFopp x) = x.
Proof. destruct x; cbn; rewrite ?negb_involutive; reflexivity. Qed.

Lemma SFsub_swap (x y : spec_float) :
  SFsub prec emax y x = SFopp (SFsub prec emax x y)
  \/ (SFsub prec emax x y = S754_zero false
      /\ SFsub prec emax y x = S754_zero false).
Proof.
  destruct x as [sx | sx | | sx mx ex], y as [sy | sy | | sy my ey];
    try solve [ try destruct sx; try destruct sy; cbn; auto ].
  cbn [SFsub]. rewrite (Z.min_comm ey ex).
  set (X := cond_Zopp sx _). set (Y := cond_Zopp sy _).
  replace (Y - X) with (- (X - Y)) by lia.
  destruct (X - Y) as [ | p | p]; cbn [Z.opp binary_normalize].
  - right. split; reflexivity.
  - left. apply (binary_round_opp false).
  - left. rewrite (binary_round_opp false), SFopp_involutive. reflexivity.
Qed.

Lemma SFmul_comm (x y : spec_float) : SFmul prec emax x y = SFmul prec emax y x.
Proof.
  destruct x as [sx | sx | | sx mx ex], y as [sy | sy | | sy my ey];
    cbn [SFmul]; rewrite ?(xorb_comm sy sx); try reflexivity.
  rewrite (Pos.mul_comm my mx), (Z.add_comm ey ex). reflexivity.
Qed.

Lemma SFmul_opp_l (x y : spec_float) :
  SFmul prec emax (SFopp x) y = SFopp (SFmul prec emax x y).
Proof.
  destruct x as [sx | sx | | sx mx ex], y as [sy | sy | | sy my ey];
    cbn [SFmul SFopp]; rewrite <- ?negb_xorb_l; try reflexivity.
  apply binary_round_aux_opp.
Qed.

Lemma SFdiv_opp_l (x y : spec_float) :
  SFdiv prec emax (SFopp x) y = SFopp (SFdiv prec emax x y).
Proof.
  destruct x as [sx | sx | | sx mx ex], y as [sy | sy | | sy my ey];
    cbn [SFdiv SFopp]; rewrite <- ?negb_xorb_l; try reflexivity.
  destruct (SFdiv_core_binary prec emax (Zpos mx) ex (Zpos my) ey) as [[mz ez] lz].
  apply binary_round_aux_opp.
Qed.

Lemma SFeqb_opp (x y : spec_float) : SFeqb (SFopp x) (SFopp y) = SFeqb x y.
Proof.
  unfold SFeqb.
  destruct x as [sx | sx | | sx mx ex], y as [sy | sy | | sy my ey];
    try solve [ try destruct sx; try destruct sy; reflexivity ].
  cbn [SFopp SFcompare].
  change (Pos.compare_cont Eq mx my) with (Pos.compare mx my).
  destruct sx, sy; cbn [negb]; try reflexivity;
    destruct (ex ?= ey); try reflexivity;
    destruct (mx ?= my)%positive; reflexivity.
Qed.

Lemma SFabs_opp (x : spec_float) : SFabs (SFopp x) = SFabs x.
Proof. destruct x; reflexivity. Qed.

(** ** Small integers are binary64 numbers *)

Lemma digits2_pos_iter_xO (m k : positive) :
  digits2_pos (Pos.iter xO m k) = (digits2_pos m + k)%positive.
Proof.
  induction k as [ | k IH] using Pos.peano_ind.
  - cbn. lia.
  - rewrite Pos.iter_succ. cbn [digits2_pos]. rewrite IH. lia.
Qed.

Lemma binary_round_aux_canonical (s : bool) (m : positive) (e : Z) :
  Zpos (digits2_pos m) = prec -> emin <= e -> e <= emax - prec ->
  binary_round_aux prec emax s (Zpos m) e loc_Exact = S754_finite s m e.
Proof.
  intros Hd Hlo Hhi.
  assert (Hs : shr_fexp prec emax (Zpos m) e loc_Exact
               = (shr_record_of_loc (Zpos m) loc_Exact, e)).
  { unfold shr_fexp, shr. cbn [Zdigits2]. rewrite Hd.
    unfold SpecFloat.fexp.
    replace (Z.max (prec + e - prec) emin - e) with 0 by lia. reflexivity. }
  unfold binary_round_aux. rewrite Hs.
  cbn [shr_record_of_loc shr_m loc_of_shr_record round_nearest_even].
  rewrite Hs. cbn [shr_record_of_loc shr_m].
  apply Z.leb_le in Hhi. now rewrite Hhi.
Qed.

Lemma binary_round_small (s : bool) (p : positive) :
  Zpos (digits2_pos p) <= prec -> 2 <= emax -> prec <= emax ->
  exists m e, binary_round prec emax s p 0 = S754_finite s m e
              /\ Z.shiftl (Zpos m) e = Zpos p.
Proof.
  intros Hd H2 Hpe.
  pose proof (Pos2Z.is_pos (digits2_pos p)) as Hd0.
  unfold binary_round, shl_align, SpecFloat.fexp.
  replace (Z.max (Zpos (digits2_pos p) + 0 - prec) emin - 0)
    with (Zpos (digits2_pos p) - prec) by (unfold SpecFloat.emin; lia).
  replace (Z.max (Zpos (digits2_pos p) + 0 - prec) emin)
    with (Zpos (digits2_pos p) - prec) by (unfold SpecFloat.emin; lia).
  destruct (Zpos (digits2_pos p) - prec) as [ | k | k] eqn:Ek; try lia.
  - exists p, 0. split; [ | apply Z.shiftl_0_r].
    apply binary_round_aux_canonical; unfold SpecFloat.emin; lia.
  - exists (Pos.iter xO p k), (Zneg k). split.
    + apply binary_round_aux_canonical.
      * rewrite digits2_pos_iter_xO. lia.
      * unfold SpecFloat.emin. lia.
      * lia.
    + change (Zneg k) with (- Zpos k).
      rewrite Z.shiftl_opp_r, Z.shiftr_div_pow2 by lia.
      pose proof (Pos2Z.is_pos k).
      rewrite iter_xO_value.
      apply Z.div_mul. apply Z.pow_nonzero; lia.
Qed.

End Format.
End SpecFloatFacts.

(* ================================================================== *)
(** * Facts about Python's floats *)
(* ================================================================== *)

Module Binary64Facts.
Import SpecFloatFacts.
Local Open Scope float_scope.

Lemma prec_positive : (0 < prec)%Z.
Proof. reflexivity. Qed.

Lemma Prim2SF_zero : Prim2SF 0 = S754_zero false.
Proof. reflexivity. Qed.

Lemma Prim2SF_infinity : Prim2SF infinity = S754_infinity false.
Proof. reflexivity. Qed.

(** ** Order *)

Lemma ltb_asym (x y : float) : (x <? y) = true -> (y <? x) = false.
Proof. rewrite !ltb_spec. apply SFltb_asym. Qed.

Lemma ltb_irrefl (x : float) : (x <? x) = false.
Proof. rewrite ltb_spec. apply SFltb_irrefl. Qed.

Lemma is_nan_false (x : float) : is_nan x = false -> Prim2SF x <> S754_nan.
Proof.
  unfold is_nan. rewrite eqb_spec. intros H.
  apply SFeqb_refl_not_nan. now apply negb_false_iff.
Qed.

Lemma ltb_leb (x y : float) :
  is_nan x = false -> is_nan y = false -> (y <? x) = negb (x <=? y).
Proof.
  intros Hx Hy. rewrite ltb_spec, leb_spec.
  apply SFltb_SFleb; now apply is_nan_false.
Qed.

Lemma leb_not_ltb (x y : float) : (x <=? y) = true -> (y <? x) = false.
Proof.
  rewrite ltb_spec, leb_spec. unfold SFltb, SFleb.
  rewrite (SFcompare_antisym (Prim2SF x) (Prim2SF y)).
  destruct (SFcompare (Prim2SF x) (Prim2SF y)) as [[ | | ] | ];
    cbn; intros H; try discriminate; reflexivity.
Qed.

(** ** Signs *)

Lemma sub_positive (l r : float) :
  (l <? r) = true -> SFpositive (Prim2SF (r - l)).
Proof.
  rewrite ltb_spec, sub_spec. intros H.
  apply (SFsub_positive prec emax prec_positive); auto using Prim2SF_valid.
Qed.

Lemma sub_nonneg (x y : float) :
  (x <? y) = false -> SFnonneg (Prim2SF (x - y)).
Proof.
  rewrite ltb_spec, sub_spec. intros H.
  apply (SFsub_nonneg prec emax prec_positive); auto using Prim2SF_valid.
Qed.

Lemma abs_positive (d : float) : SFpositive (Prim2SF d) -> abs d = d.
Proof.
  intros H. apply Prim2SF_inj. rewrite abs_spec. now apply SFpositive_abs.
Qed.

Lemma positive_not_zero (d : float) :
  SFpositive (Prim2SF d) -> (d =? 0) = false.
Proof.
  intros H. rewrite eqb_spec, Prim2SF_zero. now apply SFpositive_not_zero.
Qed.

Lemma mul_nonneg (x y : float) :
  SFnonneg (Prim2SF x) -> SFnonneg (Prim2SF y) -> SFnonneg (Prim2SF (x * y)).
Proof. rewrite mul_spec. apply SFmul_nonneg. Qed.

Lemma div_nonneg (x y : float) :
  SFnonneg (Prim2SF x) -> SFpositive (Prim2SF y) -> SFnonneg (Prim2SF (x / y)).
Proof. rewrite div_spec. apply SFdiv_nonneg. Qed.

(** Pixel counts are not negative. *)
Lemma of_uint63_nonneg (n : int) : SFnonneg (Prim2SF (of_uint63 n)).
Proof.
  rewrite of_uint63_spec.
  apply (binary_normalize_nonneg prec emax). apply Uint63.to_Z_bounded.
Qed.

Lemma of_uint63_positive (n : int) :
  (0 < Uint63.to_Z n)%Z -> SFpositive (Prim2SF (of_uint63 n)).
Proof.
  intros H. rewrite of_uint63_spec.
  apply (binary_normalize_positive prec emax prec_positive); [assumption | ].
  unfold emin, emax, prec. lia.
Qed.

(** ** Finite numbers *)

Lemma is_finite_cases (x : float) :
  is_finite x = true ->
  match Prim2SF x with
  | S754_zero _ | S754_finite _ _ _ => True
  | _ => False
  end.
Proof.
  unfold is_finite, is_nan, is_infinity.
  rewrite !eqb_spec, abs_spec, Prim2SF_infinity.
  destruct (Prim2SF x) as [[ | ] | [ | ] | | s m e]; cbn; try discriminate; auto.
Qed.

Lemma sub_diag (x : float) : is_finite x = true -> x - x = 0.
Proof.
  intros H. apply is_finite_cases in H.
  apply Prim2SF_inj. rewrite sub_spec, Prim2SF_zero.
  now apply SFsub_diag.
Qed.

Lemma zero_mul_finite (x : float) :
  is_finite x = true -> exists s, Prim2SF (0 * x) = S754_zero s.
Proof.
  intros H. apply is_finite_cases in H. rewrite mul_spec, Prim2SF_zero.
  destruct (Prim2SF x) as [s | s | | s m e]; try contradiction; cbn; eauto.
Qed.

(** ** Opposites *)

Lemma sub_swap (a b : float) :
  b - a = - (a - b) \/ (a - b = 0 /\ b - a = 0).
Proof.
  destruct (SFsub_swap prec emax (Prim2SF a) (Prim2SF b)) as [H | [H1 H2]].
  - left. apply Prim2SF_inj. now rewrite opp_spec, !sub_spec.
  - right. split; apply Prim2SF_inj; now rewrite sub_spec, Prim2SF_zero.
Qed.

Lemma mul_comm (x y : float) : x * y = y * x.
Proof. apply Prim2SF_inj. rewrite !mul_spec. apply SFmul_comm. Qed.

Lemma mul_opp_l (x y : float) : (- x) * y = - (x * y).
Proof.
  apply Prim2SF_inj. rewrite opp_spec, !mul_spec, opp_spec. apply SFmul_opp_l.
Qed.

Lemma mul_opp_r (x y : float) : x * (- y) = - (x * y).
Proof. now rewrite (mul_comm x (- y)), mul_opp_l, (mul_comm y x). Qed.

Lemma opp_involutive (x : float) : - - x = x.
Proof. apply Prim2SF_inj. rewrite !opp_spec. apply SFopp_involutive. Qed.

Lemma mul_opp_opp (x y : float) : (- x) * (- y) = x * y.
Proof. now rewrite mul_opp_l, mul_opp_r, opp_involutive. Qed.

Lemma div_opp_l (x y : float) : (- x) / y = - (x / y).
Proof.
  apply Prim2SF_inj. rewrite opp_spec, !div_spec, opp_spec. apply SFdiv_opp_l.
Qed.

Lemma is_nan_opp (x : float) : is_nan (- x) = is_nan x.
Proof. unfold is_nan. now rewrite !eqb_spec, opp_spec, SFeqb_opp. Qed.

Lemma is_infinity_opp (x : float) : is_infinity (- x) = is_infinity x.
Proof. unfold is_infinity. now rewrite !eqb_spec, !abs_spec, opp_spec, SFabs_opp. Qed.

Lemma is_finite_opp (x : float) : is_finite (- x) = is_finite x.
Proof. unfold is_finite. now rewrite is_nan_opp, is_infinity_opp. Qed.

(** ** Pixel counts below 2^53 are binary64 numbers *)

Lemma of_uint63_exact (n : int) :
  (Uint63.to_Z n < 2 ^ 53)%Z ->
  Py.SFtrunc (Prim2SF (of_uint63 n)) = Some (Uint63.to_Z n).
Proof.
  intros H. rewrite of_uint63_spec.
  pose proof (Uint63.to_Z_bounded n) as [H0 _].
  destruct (Uint63.to_Z n) as [ | p | p]; try lia; [reflexivity | ].
  cbn [binary_normalize].
  destruct (binary_round_small prec emax false p) as (m & e & E & V).
  - pose proof (digits2_pos_bounds p) as [Hlo _].
    assert (Zpos (digits2_pos p) - 1 < 53)%Z; [ | unfold prec; lia].
    apply (Z.pow_lt_mono_r_iff 2); lia.
  - unfold emax. lia.
  - unfold prec, emax. lia.
  - rewrite E. cbn [Py.SFtrunc cond_Zopp]. now rewrite V.
Qed.

End Binary64Facts.

(* ================================================================== *)
(** * Facts about the Python and NumPy built-ins *)
(* ================================================================== *)

Module PyFacts.
Import Py SpecFloatFacts Binary64Facts.
Local Open Scope float_scope.

(** On a number that is not below zero, truncation is the floor. *)
Lemma py_int_floor (x : float) :
  SFnonneg (Prim2SF x) -> py_int x = GeoUtils.floor x.
Proof.
  unfold py_int, GeoUtils.floor.
  destruct (Prim2SF x) as [s | s | | s m e]; cbn; intros H; try reflexivity.
  subst s. reflexivity.
Qed.

Lemma truediv_positive (x d : float) :
  SFpositive (Prim2SF d) -> truediv x d = Ok (x / d).
Proof. intros H. unfold truediv. now rewrite positive_not_zero. Qed.

Lemma truediv_raises (x d : float) (e : exn) :
  truediv x d = Raise e -> e = ZeroDivisionError.
Proof. unfold truediv. destruct (d =? 0); congruence. Qed.

Lemma py_int_raises (x : float) (e : exn) :
  py_int x = Raise e -> e = ValueError \/ e = OverflowError.
Proof.
  unfold py_int. destruct (Prim2SF x) as [s | s | | s m e']; cbn; intros H;
    inversion H; auto.
Qed.

Lemma py_int_zero (x : float) (s : bool) :
  Prim2SF x = S754_zero s -> py_int x = Ok 0%Z.
Proof. unfold py_int. intros ->. reflexivity. Qed.

Lemma py_int_of_uint63 (n : int) :
  (Uint63.to_Z n < 2 ^ 53)%Z -> py_int (of_uint63 n) = Ok (Uint63.to_Z n).
Proof. intros H. unfold py_int. now rewrite of_uint63_exact. Qed.

End PyFacts.

(* ================================================================== *)
(** * How binary64 operations round *)
(* ================================================================== *)

(** The operations of the format round their exact result to the nearest
    number, ties to even.  The modules below follow the rounding of the
    specification step by step: the shifts and the choice of the nearest
    integer in integers, then the distance between a result and the real
    number it rounds, then the subtraction, product and quotient of binary64
    and the two products the pixel mapper computes. *)

(** ** Shifting a mantissa and choosing the nearest integer *)

Module Rounding.
Local Open Scope Z_scope.

Lemma loc_of_shr_record_of_loc (m : Z) (l : location) :
  loc_of_shr_record (shr_record_of_loc m l) = l.
Proof. destruct l as [ | [ | | ]]; reflexivity. Qed.

Lemma shr_record_of_loc_represents (A C : Z) :
  represents (shr_record_of_loc (A / C) (loc_of (A mod C) C)) A C.
Proof.
  split; [ | apply loc_of_shr_record_of_loc].
  destruct (loc_of (A mod C) C) as [ | [ | | ]]; reflexivity.
Qed.

Lemma shr_1_represents (mrs : shr_record) (A C : Z) :
  0 <= A -> 0 < C -> represents mrs A C -> represents (shr_1 mrs) A (2 * C).
Proof.
  intros HA HC [Hm Hl].
  pose proof (Z.div_pos A C HA HC) as Hq.
  pose proof (Z.mod_pos_bound A C HC) as Hrho.
  assert (Hdiv : A / (2 * C) = (A / C) / 2).
  { rewrite (Z.mul_comm 2 C), Z.div_div by lia. reflexivity. }
  assert (Hmod : A mod (2 * C) = A mod C + C * ((A / C) mod 2)).
  { rewrite (Z.mul_comm 2 C). apply Z.rem_mul_r; lia. }
  pose proof (Z.mod_pos_bound (A / C) 2 ltac:(lia)) as Hbit.
  pose proof (Z.div_mod (A / C) 2 ltac:(lia)) as Hq2.
  unfold represents. rewrite Hdiv, Hmod.
  destruct mrs as [m r s]. cbn [shr_m] in Hm. cbn [loc_of_shr_record] in Hl.
  assert (Hrs : orb r s = negb (A mod C =? 0)).
  { unfold loc_of in Hl.
    destruct (A mod C =? 0); destruct r, s; try discriminate; reflexivity. }
  subst m. unfold loc_of.
  destruct (A / C) as [ | [p | p | ] | p] eqn:Eq; try lia;
    cbn [shr_1 shr_m loc_of_shr_record]; rewrite Hrs.
  - (* 0 *) change (0 mod 2) with 0. change (0 / 2) with 0. rewrite Z.mul_0_r, Z.add_0_r.
    split; [reflexivity | ].
    destruct (Z.eqb_spec (A mod C) 0) as [E | E]; cbn [negb]; [reflexivity | ].
    f_equal. symmetry. apply Z.compare_lt_iff. lia.
  - (* xI *)
    assert (H1 : Z.pos p~1 mod 2 = 1) by (pose proof (Pos2Z.inj_xI p); lia).
    assert (H2 : Z.pos p~1 / 2 = Z.pos p) by (pose proof (Pos2Z.inj_xI p); lia).
    rewrite H1, H2. split; [reflexivity | ].
    destruct (Z.eqb_spec (A mod C + C * 1) 0) as [E | E]; [lia | ].
    destruct (Z.eqb_spec (A mod C) 0) as [E0 | E0]; cbn [negb]; f_equal; symmetry.
    + apply Z.compare_eq_iff. lia.
    + apply Z.compare_gt_iff. lia.
  - (* xO *)
    assert (H1 : Z.pos p~0 mod 2 = 0) by (pose proof (Pos2Z.inj_xO p); lia).
    assert (H2 : Z.pos p~0 / 2 = Z.pos p) by (pose proof (Pos2Z.inj_xO p); lia).
    rewrite H1, H2, Z.mul_0_r, Z.add_0_r. split; [reflexivity | ].
    destruct (Z.eqb_spec (A mod C) 0) as [E | E]; cbn [negb]; [reflexivity | ].
    f_equal. symmetry. apply Z.compare_lt_iff. lia.
  - (* 1 *)
    change (1 mod 2) with 1. change (1 / 2) with 0. split; [reflexivity | ].
    destruct (Z.eqb_spec (A mod C + C * 1) 0) as [E | E]; [lia | ].
    destruct (Z.eqb_spec (A mod C) 0) as [E0 | E0]; cbn [negb]; f_equal; symmetry.
    + apply Z.compare_eq_iff. lia.
    + apply Z.compare_gt_iff. lia.
Qed.

Lemma iter_shr_1_represents (p : positive) : forall (mrs : shr_record) (A C : Z),
  0 <= A -> 0 < C -> represents mrs A C ->
  represents (iter_pos shr_1 p mrs) A (C * 2 ^ Zpos p).
Proof.
  assert (pow_pos : forall q, 0 < 2 ^ Zpos q) by (intros q; apply Z.pow_pos_nonneg; lia).
  induction p as [p IH | p IH | ]; intros mrs A C HA HC H; cbn [iter_pos].
  - apply (shr_1_represents _ _ _ HA HC) in H.
    apply (IH _ _ _ HA) in H; [ | lia].
    apply (IH _ _ _ HA) in H; [ | specialize (pow_pos p); nia].
    replace (C * 2 ^ Zpos p~1) with (2 * C * 2 ^ Zpos p * 2 ^ Zpos p); [exact H | ].
    rewrite (Pos2Z.inj_xI p).
    replace (2 * Zpos p + 1) with (1 + Zpos p + Zpos p) by lia.
    rewrite !Z.pow_add_r by lia. lia.
  - apply (IH _ _ _ HA HC) in H.
    apply (IH _ _ _ HA) in H; [ | specialize (pow_pos p); nia].
    replace (C * 2 ^ Zpos p~0) with (C * 2 ^ Zpos p * 2 ^ Zpos p); [exact H | ].
    rewrite (Pos2Z.inj_xO p).
    replace (2 * Zpos p) with (Zpos p + Zpos p) by lia.
    rewrite Z.pow_add_r by lia. lia.
  - apply (shr_1_represents _ _ _ HA HC) in H.
    replace (C * 2 ^ 1) with (2 * C) by lia. exact H.
Qed.

Lemma round_nearest_even_close (A C : Z) :
  0 <= A -> 0 < C ->
  let n := round_nearest_even (A / C) (loc_of (A mod C) C) in
  A / C <= n <= A / C + 1
  /\ 2 * Z.abs (n * C - A) <= C
  /\ (A mod C = 0 -> n = A / C)
  /\ (Z.odd n = true -> 2 * Z.abs (n * C - A) < C).
Proof.
  intros HA HC n. subst n.
  pose proof (Z.mod_pos_bound A C HC) as Hrho.
  pose proof (Z.div_mod A C ltac:(lia)) as Hdm.
  unfold loc_of.
  destruct (Z.eqb_spec (A mod C) 0) as [E | E]; cbn [round_nearest_even].
  - repeat split; lia || nia.
  - destruct (Z.compare_spec (2 * (A mod C)) C) as [H | H | H].
    + destruct (Z.even (A / C)) eqn:Ev.
      * repeat split; try (lia || nia).
        rewrite <- Z.negb_even, Ev. discriminate.
      * repeat split; try (lia || nia).
        rewrite Z.add_1_r, Z.odd_succ, Ev. discriminate.
    + repeat split; lia || nia.
    + repeat split; lia || nia.
Qed.

End Rounding.

(** ** The mantissa and exponent [binary_round_aux] returns *)

Module RoundingFormat.
Section Format.
Local Open Scope Z_scope.
Variables prec emax : Z.
Hypothesis prec_pos : 0 < prec.

Local Abbreviation emin := (SpecFloat.emin prec emax).
Local Abbreviation fexp := (SpecFloat.fexp prec emax).

Lemma Zdigits2_nonneg (n : Z) : 0 <= Zdigits2 n.
Proof. destruct n; cbn [Zdigits2]; lia. Qed.

Lemma Zdigits2_upper (n : Z) : 0 <= n -> n < 2 ^ Zdigits2 n.
Proof.
  destruct n as [ | p | p]; cbn [Zdigits2]; try lia.
  intros _. apply SpecFloatFacts.digits2_pos_bounds.
Qed.

Lemma Zdigits2_lower (n : Z) : 0 < n -> 2 ^ (Zdigits2 n - 1) <= n.
Proof.
  destruct n as [ | p | p]; cbn [Zdigits2]; try lia.
  intros _. apply SpecFloatFacts.digits2_pos_bounds.
Qed.

Lemma Zdigits2_le (n k : Z) : 0 <= n -> 0 <= k -> n < 2 ^ k -> Zdigits2 n <= k.
Proof.
  intros Hn Hk H.
  destruct (Z.eq_dec n 0) as [-> | Hn0]; [exact Hk | ].
  pose proof (Zdigits2_lower n ltac:(lia)) as L.
  pose proof (Zdigits2_nonneg n) as D.
  destruct (Z.le_gt_cases (Zdigits2 n) k) as [ | G]; [assumption | exfalso].
  assert (2 ^ k <= 2 ^ (Zdigits2 n - 1)) by (apply Z.pow_le_mono_r; lia).
  lia.
Qed.

Lemma Zdigits2_gt (n k : Z) : 0 <= k -> 2 ^ k <= n -> k < Zdigits2 n.
Proof.
  intros Hk H.
  assert (0 < 2 ^ k) by (apply Z.pow_pos_nonneg; lia).
  pose proof (Zdigits2_upper n ltac:(lia)) as U.
  pose proof (Zdigits2_nonneg n) as D.
  destruct (Z.lt_ge_cases k (Zdigits2 n)) as [ | G]; [assumption | exfalso].
  assert (2 ^ Zdigits2 n <= 2 ^ k) by (apply Z.pow_le_mono_r; lia).
  lia.
Qed.

(** The first shift of [binary_round_aux]: the mantissa [A / B] at exponent
    [e], its remainder located by [loc_of], becomes the quotient of [A] by
    [B * 2 ^ (E - e)] at the exponent [E] of the format. *)
Lemma shr_fexp_represents (A B e : Z) :
  0 <= A -> 0 < B ->
  let E := Z.max e (fexp (Zdigits2 (A / B) + e)) in
  exists mrs, shr_fexp prec emax (A / B) e (loc_of (A mod B) B) = (mrs, E)
              /\ represents mrs A (B * 2 ^ (E - e)).
Proof.
  intros HA HB E. subst E. unfold shr_fexp, shr.
  destruct (fexp (Zdigits2 (A / B) + e) - e) as [ | p | p] eqn:Ek.
  - rewrite Z.max_l by lia. rewrite Z.sub_diag, Z.mul_1_r.
    eexists. split; [reflexivity | apply Rounding.shr_record_of_loc_represents].
  - rewrite Z.max_r by lia.
    replace (fexp (Zdigits2 (A / B) + e) - e) with (Zpos p) by lia.
    replace (fexp (Zdigits2 (A / B) + e)) with (e + Zpos p) by lia.
    eexists. split; [reflexivity | ].
    apply Rounding.iter_shr_1_represents; try assumption.
    apply Rounding.shr_record_of_loc_represents.
  - rewrite Z.max_l by lia. rewrite Z.sub_diag, Z.mul_1_r.
    eexists. split; [reflexivity | apply Rounding.shr_record_of_loc_represents].
Qed.

Lemma shifted_mantissa_bound (A B e : Z) :
  0 <= A -> 0 < B ->
  let E := Z.max e (fexp (Zdigits2 (A / B) + e)) in
  A / (B * 2 ^ (E - e)) < 2 ^ prec.
Proof.
  intros HA HB E.
  assert (HE : 0 <= E - e) by (subst E; lia).
  assert (Hp : 0 < 2 ^ (E - e)) by (apply Z.pow_pos_nonneg; lia).
  rewrite <- Z.div_div by lia.
  apply Z.div_lt_upper_bound; [assumption | ].
  pose proof (Z.div_pos A B HA HB) as Hq.
  pose proof (Zdigits2_upper (A / B) Hq) as U.
  pose proof (Zdigits2_nonneg (A / B)) as D.
  rewrite <- Z.pow_add_r by lia.
  assert (2 ^ Zdigits2 (A / B) <= 2 ^ (E - e + prec)); [ | lia].
  apply Z.pow_le_mono_r; [lia | ].
  subst E. unfold SpecFloat.fexp. lia.
Qed.

(** What [binary_round_aux] returns, in integers: with [E] the exponent of the
    format for the mantissa and [n] the nearest integer to [A / (B * 2 ^ (E - e))],
    the result is the number [n * 2 ^ E], or an infinity when [E] is beyond
    the exponents of the format. *)
Lemma binary_round_aux_value (s : bool) (A B e : Z) :
  0 <= A -> 0 < B ->
  let E := Z.max e (fexp (Zdigits2 (A / B) + e)) in
  let C := B * 2 ^ (E - e) in
  let n := round_nearest_even (A / C) (loc_of (A mod C) C) in
  let r := binary_round_aux prec emax s (A / B) e (loc_of (A mod B) B) in
  (n = 0 /\ r = S754_zero s)
  \/ (r = S754_infinity s /\ 0 < n
      /\ (emax - prec < E \/ (E = emax - prec /\ n = 2 ^ prec)))
  \/ exists m' e',
       r = S754_finite s m' e' /\ E <= e' <= emax - prec
       /\ Zpos m' * 2 ^ (e' - E) = n /\ Zpos m' < 2 ^ prec.
Proof.
  intros HA HB E C n r.
  assert (HE : 0 <= E - e) by (subst E; lia).
  assert (HC : 0 < C)
    by (subst C; apply Z.mul_pos_pos; [lia | apply Z.pow_pos_nonneg; lia]).
  destruct (shr_fexp_represents A B e HA HB) as (mrs & Es & [Rm Rl]).
  fold E in Es, Rm, Rl. fold C in Rm, Rl.
  pose proof (shifted_mantissa_bound A B e HA HB) as Hm. cbv zeta in Hm. fold E C in Hm.
  pose proof (Rounding.round_nearest_even_close A C HA HC) as (Hn1 & Hn2 & Hn3 & _).
  fold n in Hn1, Hn2, Hn3.
  pose proof (Z.div_pos A C HA HC) as Hq.
  assert (Emin : emin <= E) by (subst E; unfold SpecFloat.fexp; lia).
  assert (Pp : 0 < 2 ^ prec) by (apply Z.pow_pos_nonneg; lia).
  subst r. unfold binary_round_aux. rewrite Es, Rm, Rl. fold n.
  destruct (Z.eq_dec n (2 ^ prec)) as [Hn | Hn].
  - assert (Dn : Zdigits2 n = prec + 1).
    { apply Z.le_antisymm.
      - apply Zdigits2_le; try lia. rewrite Hn, Z.pow_add_r by lia. lia.
      - pose proof (Zdigits2_gt n prec ltac:(lia) ltac:(lia)). lia. }
    unfold shr_fexp, shr. rewrite Dn.
    replace (fexp (prec + 1 + E) - E) with 1 by (unfold SpecFloat.fexp; lia).
    cbn [iter_pos].
    pose proof (Rounding.shr_1_represents (shr_record_of_loc n loc_Exact) n 1
                  ltac:(lia) ltac:(lia)) as [S1 _].
    { split; [rewrite Z.div_1_r; reflexivity | rewrite Z.mod_1_r; reflexivity]. }
    rewrite S1. change (2 * 1) with 2.
    assert (Hh : n / 2 = 2 ^ (prec - 1)).
    { rewrite Hn. replace prec with (1 + (prec - 1)) at 1 by lia.
      rewrite Z.pow_add_r by lia. rewrite Z.mul_comm, Z.div_mul by lia. reflexivity. }
    assert (Hp1 : 2 ^ prec = 2 * 2 ^ (prec - 1)).
    { replace prec with (1 + (prec - 1)) at 1 by lia.
      rewrite Z.pow_add_r by lia. reflexivity. }
    destruct (n / 2) as [ | m | m] eqn:Eh; try lia.
    destruct (Z.leb_spec (E + 1) (emax - prec)).
    + right; right. exists m, (E + 1). split; [reflexivity | ]. split; [lia | ].
      replace (E + 1 - E) with 1 by lia. split; lia.
    + right; left. split; [reflexivity | ]. split; [lia | ].
      destruct (Z.eq_dec E (emax - prec)); [right | left]; lia.
  - assert (Dn : Zdigits2 n <= prec) by (apply Zdigits2_le; lia).
    pose proof (Zdigits2_nonneg n) as Dn0.
    assert (Hk : fexp (Zdigits2 n + E) - E <= 0) by (unfold SpecFloat.fexp; lia).
    assert (Hs : shr_fexp prec emax n E loc_Exact = (shr_record_of_loc n loc_Exact, E)).
    { unfold shr_fexp, shr.
      destruct (fexp (Zdigits2 n + E) - E) as [ | p | p]; try lia; reflexivity. }
    rewrite Hs. cbn [shr_record_of_loc shr_m].
    destruct n as [ | m | m] eqn:En; try lia.
    + left. split; reflexivity.
    + destruct (Z.leb_spec E (emax - prec)).
      * right; right. exists m, E. split; [reflexivity | ]. split; [lia | ].
        rewrite Z.sub_diag. split; lia.
      * right; left. split; [reflexivity | ]. split; [lia | left; lia].
Qed.

End Format.
End RoundingFormat.

(** ** The distance between a result and the number it rounds *)

Module RealView.

Lemma bpow_pos (e : Z) : (0 < bpow e)%R.
Proof. apply powerRZ_lt. lra. Qed.

Lemma bpow_add (a b : Z) : bpow (a + b) = (bpow a * bpow b)%R.
Proof. apply powerRZ_add. lra. Qed.

Lemma bpow_opp (a : Z) : bpow (- a) = (/ bpow a)%R.
Proof. apply powerRZ_neg'. Qed.

Lemma bpow_IZR (k : Z) : (0 <= k)%Z -> bpow k = IZR (2 ^ k).
Proof.
  intros H. unfold bpow. rewrite <- (Z2Nat.id k H) at 1 2.
  rewrite <- pow_powerRZ, pow_IZR. reflexivity.
Qed.

Lemma bpow_le (a b : Z) : (a <= b)%Z -> (bpow a <= bpow b)%R.
Proof.
  intros H. replace b with (a + (b - a))%Z by lia.
  rewrite bpow_add, (bpow_IZR (b - a)) by lia.
  assert (0 < 2 ^ (b - a))%Z by (apply Z.pow_pos_nonneg; lia).
  assert (1 <= IZR (2 ^ (b - a)))%R by (apply IZR_le; lia).
  pose proof (bpow_pos a). nra.
Qed.

Lemma bpow_lt (a b : Z) : (a < b)%Z -> (bpow a < bpow b)%R.
Proof.
  intros H. replace b with (a + (b - a))%Z by lia.
  rewrite bpow_add, (bpow_IZR (b - a)) by lia.
  assert (1 < 2 ^ (b - a))%Z by (apply Z.pow_gt_1; lia).
  assert (1 < IZR (2 ^ (b - a)))%R by (apply IZR_lt; lia).
  pose proof (bpow_pos a). nra.
Qed.

Lemma bpow_half (e : Z) : (bpow e / 2 = bpow (e - 1))%R.
Proof.
  replace e with ((e - 1) + 1)%Z at 1 by lia. rewrite bpow_add.
  change (bpow 1) with (powerRZ 2 1). rewrite powerRZ_1. lra.
Qed.

Lemma Rabs_le_inv (a b : R) : (Rabs a <= b)%R -> (- b <= a <= b)%R.
Proof. unfold Rabs. destruct (Rcase_abs a); lra. Qed.

Section Format.
Variables prec emax : Z.
Hypothesis prec_pos : (0 < prec)%Z.

Local Abbreviation emin := (SpecFloat.emin prec emax).
Local Abbreviation fexp := (SpecFloat.fexp prec emax).

(** [binary_round_aux] rounds the real number [A / B * 2 ^ e] to an integer
    multiple [n * 2 ^ E] of the unit of its exponent [E] in the format, at
    most half a unit away, and less than half when [n] is odd; the result is
    that number, or an infinity when it is beyond the numbers of the
    format. *)
Lemma binary_round_aux_close (A B e : Z) :
  (0 <= A)%Z -> (0 < B)%Z ->
  let E := Z.max e (fexp (Zdigits2 (A / B) + e)) in
  let X := (IZR A / IZR B * bpow e)%R in
  let r := binary_round_aux prec emax false (A / B) e (loc_of (A mod B) B) in
  exists n : Z,
    (0 <= n)%Z
    /\ (Rabs (IZR n * bpow E - X) <= bpow E / 2)%R
    /\ (Z.odd n = true -> (Rabs (IZR n * bpow E - X) < bpow E / 2)%R)
    /\ (E = e -> (A mod B = 0)%Z -> (IZR n * bpow E)%R = X)
    /\ ((r = S754_infinity false /\ (0 < n)%Z
         /\ ((emax - prec < E)%Z \/ (E = (emax - prec)%Z /\ n = (2 ^ prec)%Z)))
        \/ (SF2R r = (IZR n * bpow E)%R
            /\ ((n = 0%Z /\ r = S754_zero false)
                \/ exists m' e',
                     r = S754_finite false m' e'
                     /\ (E <= e' <= emax - prec)%Z
                     /\ (Zpos m' * 2 ^ (e' - E))%Z = n
                     /\ (Zpos m' < 2 ^ prec)%Z))).
Proof.
  intros HA HB E X r.
  pose proof (RoundingFormat.binary_round_aux_value prec emax prec_pos false A B e
                HA HB) as H.
  cbv zeta in H. fold E r in H.
  set (C := (B * 2 ^ (E - e))%Z) in *.
  set (n := round_nearest_even (A / C) (loc_of (A mod C) C)) in *.
  assert (HE : (0 <= E - e)%Z) by (subst E; lia).
  assert (Hp : (0 < 2 ^ (E - e))%Z) by (apply Z.pow_pos_nonneg; lia).
  assert (HC : (0 < C)%Z) by (subst C; apply Z.mul_pos_pos; lia).
  pose proof (Rounding.round_nearest_even_close A C HA HC) as (Hn1 & Hn2 & Hn3 & Hn4).
  fold n in Hn1, Hn2, Hn3, Hn4.
  pose proof (Z.div_pos A C HA HC) as Hq.
  assert (HX : X = (IZR A / IZR C * bpow E)%R).
  { subst X C. rewrite mult_IZR, <- (bpow_IZR (E - e)) by lia.
    replace E with (e + (E - e))%Z at 2 by lia. rewrite bpow_add.
    pose proof (bpow_pos (E - e)). pose proof (bpow_pos e).
    assert (0 < IZR B)%R by (apply IZR_lt; lia).
    field. split; lra. }
  assert (PC : (0 < IZR C)%R) by (apply IZR_lt; lia).
  pose proof (bpow_pos E) as PE.
  assert (Hdist : (Rabs (IZR n * bpow E - X)
                   = IZR (Z.abs (n * C - A)) * / IZR C * bpow E)%R).
  { rewrite HX.
    replace (IZR n * bpow E - IZR A / IZR C * bpow E)%R
      with ((IZR (n * C - A) / IZR C) * bpow E)%R
      by (rewrite minus_IZR, mult_IZR; field; lra).
    rewrite Rabs_mult, (Rabs_pos_eq (bpow E)) by lra.
    unfold Rdiv at 1. rewrite Rabs_mult, (Rabs_pos_eq (/ IZR C)), <- abs_IZR
      by (left; apply Rinv_0_lt_compat; exact PC).
    reflexivity. }
  exists n. split; [lia | ]. split; [ | split; [ | split]].
  - rewrite Hdist.
    assert (L : (2 * IZR (Z.abs (n * C - A)) <= IZR C)%R).
    { rewrite <- mult_IZR. apply IZR_le. exact Hn2. }
    assert (L2 : (IZR (Z.abs (n * C - A)) * / IZR C <= / 2)%R).
    { apply (Rmult_le_reg_r (IZR C)); [exact PC | ].
      rewrite Rmult_assoc, Rinv_l by lra. lra. }
    nra.
  - intros Hodd. rewrite Hdist.
    assert (L : (2 * IZR (Z.abs (n * C - A)) < IZR C)%R).
    { rewrite <- mult_IZR. apply IZR_lt. exact (Hn4 Hodd). }
    assert (L2 : (IZR (Z.abs (n * C - A)) * / IZR C < / 2)%R).
    { apply (Rmult_lt_reg_r (IZR C)); [exact PC | ].
      rewrite Rmult_assoc, Rinv_l by lra. lra. }
    nra.
  - intros Ee Hmod. rewrite HX.
    assert (CB : C = B) by (subst C; rewrite Ee, Z.sub_diag; lia).
    rewrite CB in Hn3. specialize (Hn3 Hmod).
    assert (AnC : A = (n * C)%Z).
    { rewrite CB, Hn3. pose proof (Z.div_mod A B ltac:(lia)). lia. }
    replace (IZR A) with (IZR n * IZR C)%R by (rewrite <- mult_IZR, <- AnC; reflexivity).
    field. lra.
  - destruct H as [[Hn Hr] | [Hr | (m' & e' & Hr & He & Hm & Hb)]].
    + right. rewrite Hr, Hn. cbn [SF2R]. split; [lra | left; split; reflexivity].
    + left. exact Hr.
    + right. rewrite Hr. split; [ | right; exists m', e'; repeat split; lia].
      cbn [SF2R cond_Zopp]. rewrite <- Hm, mult_IZR.
      rewrite <- (bpow_IZR (e' - E)) by lia.
      rewrite Rmult_assoc, <- bpow_add. f_equal. f_equal. lia.
Qed.

(** The same in relative terms.  When the mantissa fills the precision, or
    the remainder is none, the error is at most [2 ^ - prec] of the number,
    or half of the smallest positive number.  A number that overflows is at
    least [2 ^ (emax - prec)]; when the mantissa fills the precision, the
    numbers that overflow are those from [2 ^ emax - 2 ^ (emax - prec - 1)],
    half a unit below [2 ^ emax], on. *)
Lemma binary_round_aux_error (A B e : Z) :
  (0 <= A)%Z -> (0 < B)%Z ->
  (e <= fexp (Zdigits2 (A / B) + e))%Z \/ (A mod B = 0)%Z ->
  let X := (IZR A / IZR B * bpow e)%R in
  let r := binary_round_aux prec emax false (A / B) e (loc_of (A mod B) B) in
  let Omega := (bpow emax - bpow (emax - prec - 1))%R in
  (r = S754_infinity false
   /\ ((emin < emax - prec)%Z ->
       (bpow (emax - prec) <= X)%R
       /\ ((e <= fexp (Zdigits2 (A / B) + e))%Z -> (Omega <= X)%R)))
  \/ ((Rabs (SF2R r - X) <= X * bpow (- prec) + bpow (emin - 1))%R
      /\ (r = S754_zero false \/ exists m' e', r = S754_finite false m' e')
      /\ ((emin < emax - prec)%Z ->
          (e <= fexp (Zdigits2 (A / B) + e))%Z -> (X < Omega)%R)).
Proof.
  intros HA HB Hcase X r Omega.
  destruct (binary_round_aux_close A B e HA HB) as (n & Hn0 & Hc & Hodd & Hx & Hr).
  fold X r in Hc, Hodd, Hx, Hr.
  set (E := Z.max e (fexp (Zdigits2 (A / B) + e))) in *.
  pose proof (bpow_pos E) as PE. pose proof (bpow_pos e) as Pe.
  pose proof (bpow_pos (- prec)) as Pp. pose proof (bpow_pos (emin - 1)) as Pm.
  assert (PB : (0 < IZR B)%R) by (apply IZR_lt; lia).
  assert (PA : (0 <= IZR A)%R) by (apply IZR_le; lia).
  assert (X0 : (0 <= X)%R).
  { subst X. apply Rmult_le_pos; [ | lra]. apply Rmult_le_pos; [lra | ].
    left. apply Rinv_0_lt_compat. exact PB. }
  rewrite bpow_half in Hc, Hodd.
  (* the number is at least the unit of its exponent, by a factor that
     depends on how the exponent was chosen *)
  assert (Low : ((Rabs (IZR n * bpow E - X) <= X * bpow (- prec))%R
                 /\ ((0 < n)%Z -> (bpow E <= X)%R)
                 /\ ((e <= fexp (Zdigits2 (A / B) + e))%Z ->
                     (bpow (E + prec - 1) <= X)%R))
                \/ E = emin).
  { destruct (Z.lt_ge_cases (fexp (Zdigits2 (A / B) + e)) e) as [Hlt | Hge].
    - destruct Hcase as [Hc' | Hmod]; [lia | ]. left.
      assert (Ee : E = e) by (subst E; lia).
      pose proof (Hx Ee Hmod) as HX. rewrite HX, Rminus_diag, Rabs_R0.
      split; [nra | ]. split; [ | lia]. intros Hn.
      rewrite <- HX. assert (1 <= IZR n)%R by (apply IZR_le; lia). nra.
    - assert (EE : E = fexp (Zdigits2 (A / B) + e)) by (subst E; lia).
      destruct (Z.eq_dec E emin) as [Em | Em]; [right; exact Em | left].
      assert (Ed : E = (Zdigits2 (A / B) + e - prec)%Z)
        by (rewrite EE; unfold SpecFloat.fexp in *; lia).
      pose proof (Z.div_pos A B HA HB) as Hq.
      assert (Hq0 : (0 < A / B)%Z).
      { destruct (Z.eq_dec (A / B) 0) as [Z0 | Z0]; [ | lia].
        rewrite Z0 in Ed, EE, Hge. cbn [Zdigits2] in Ed. lia. }
      pose proof (RoundingFormat.Zdigits2_lower (A / B) Hq0) as L.
      assert (D1 : (1 <= Zdigits2 (A / B))%Z).
      { destruct (A / B)%Z; cbn [Zdigits2]; lia. }
      assert (L1 : (bpow (Zdigits2 (A / B) - 1) <= IZR A / IZR B)%R).
      { rewrite bpow_IZR by lia.
        apply Rle_trans with (IZR (A / B)); [apply IZR_le; exact L | ].
        apply (Rmult_le_reg_r (IZR B)); [exact PB | ].
        unfold Rdiv. rewrite Rmult_assoc, Rinv_l, Rmult_1_r by lra.
        rewrite <- mult_IZR. apply IZR_le.
        pose proof (Z.mul_div_le A B HB). lia. }
      assert (L2 : (bpow (E - 1)
                    = bpow (Zdigits2 (A / B) - 1) * bpow e * bpow (- prec))%R).
      { rewrite <- !bpow_add. f_equal. lia. }
      assert (L3 : (bpow (Zdigits2 (A / B) - 1) * bpow e <= X)%R) by (subst X; nra).
      assert (L4 : (bpow E <= bpow (Zdigits2 (A / B) - 1) * bpow e)%R).
      { rewrite <- bpow_add. apply bpow_le. lia. }
      assert (L5 : (bpow (E + prec - 1) = bpow (Zdigits2 (A / B) - 1) * bpow e)%R).
      { rewrite <- bpow_add. f_equal. lia. }
      rewrite L2 in Hc. split; [nra | ]. split; intros _; lra. }
  (* the threshold, in units of the largest exponent *)
  assert (HO : Omega = (bpow prec * bpow (emax - prec) - bpow (emax - prec) / 2)%R).
  { subst Omega. rewrite bpow_half, <- bpow_add. f_equal; f_equal; lia. }
  pose proof (bpow_pos (emax - prec)) as PT.
  assert (P2 : (2 <= bpow prec)%R).
  { change 2%R with (IZR (2 ^ 1)). rewrite <- bpow_IZR by lia. apply bpow_le. lia. }
  destruct Hr as [(Hr & Hn & HE) | (Hv & Hs)].
  - left. split; [exact Hr | ]. intros Hsane.
    destruct Low as [(_ & L & L') | Em]; [ | lia].
    split.
    + apply Rle_trans with (2 := L Hn). apply bpow_le. lia.
    + intros Hge. specialize (L' Hge). destruct HE as [HE | [HE Hn2]].
      * apply Rle_trans with (2 := L').
        apply Rle_trans with (bpow emax); [subst Omega | apply bpow_le; lia].
        pose proof (bpow_pos (emax - prec - 1)). lra.
      * apply Rabs_le_inv in Hc. rewrite Hn2, <- bpow_IZR, HE in Hc by lia.
        rewrite HO, bpow_half. lra.
  - right. split; [ | split].
    + rewrite Hv. destruct Low as [[L _] | Em]; [nra | ].
      rewrite Em in Hc |- *. nra.
    + destruct Hs as [[_ Hs] | (m' & e' & Hs & _)]; [left | right; eauto]. exact Hs.
    + intros Hsane Hge. rewrite HO.
      apply Rabs_le_inv in Hc.
      destruct Hs as [[Hn Hs] | (m' & e' & Hs & He & Hm & Hb)].
      * (* rounded to zero: below the smallest number *)
        rewrite Hn in Hc. destruct Low as [(_ & _ & L') | Em].
        -- specialize (L' Hge).
           assert (bpow (E - 1) < bpow (E + prec - 1))%R by (apply bpow_lt; lia).
           lra.
        -- assert (bpow (E - 1) < bpow (emax - prec))%R by (apply bpow_lt; lia).
           nra.
      * assert (Hm' : (IZR (Zpos m') <= bpow prec - 1)%R).
        { rewrite bpow_IZR by lia. rewrite <- minus_IZR. apply IZR_le. lia. }
        assert (Hv' : (IZR n * bpow E = IZR (Zpos m') * bpow e')%R).
        { rewrite <- Hm, mult_IZR, <- (bpow_IZR (e' - E)) by lia.
          rewrite Rmult_assoc, <- bpow_add. f_equal. f_equal. lia. }
        pose proof (bpow_pos e') as Pe'.
        assert (Hee : (bpow (E - 1) <= bpow e' / 2)%R).
        { rewrite bpow_half. apply bpow_le. lia. }
        destruct (Z.eq_dec e' (emax - prec)) as [He' | He'].
        -- rewrite <- He' in *.
           destruct (Z.eq_dec E e') as [EE | EE].
           ++ assert (Hnm : n = Zpos m').
              { rewrite <- Hm, EE, Z.sub_diag. lia. }
              destruct (Z.eq_dec (Zpos m') (2 ^ prec - 1)) as [Hmax | Hmax].
              ** assert (Od : Z.odd n = true).
                 { rewrite Hnm, Hmax.
                   replace prec with (1 + (prec - 1))%Z by lia.
                   rewrite Z.pow_add_r by lia. apply Z.odd_spec.
                   exists (2 ^ (prec - 1) - 1)%Z. lia. }
                 pose proof (Hodd Od) as Hstrict.
                 unfold Rabs in Hstrict.
                 destruct (Rcase_abs (IZR n * bpow E - X)) as [Hneg | Hpos];
                   rewrite <- bpow_half in Hstrict; rewrite EE in *; nra.
              ** assert (IZR (Zpos m') <= bpow prec - 2)%R.
                 { rewrite bpow_IZR by lia. rewrite <- minus_IZR. apply IZR_le. lia. }
                 rewrite EE in *. nra.
           ++ assert (bpow (E - 1) <= bpow e' / 4)%R.
              { replace (bpow e' / 4)%R with (bpow (e' - 2)).
                - apply bpow_le. lia.
                - replace e' with ((e' - 2) + 2)%Z at 2 by lia. rewrite bpow_add.
                  rewrite (bpow_IZR 2) by lia. change (2 ^ 2)%Z with 4%Z. lra. }
              nra.
        -- assert (bpow e' <= bpow (emax - prec) / 2)%R.
           { rewrite bpow_half. apply bpow_le. lia. }
           nra.
Qed.

End Format.
End RealView.

(** ** Products, quotients, differences and comparisons *)

Module RealOps.
Import RealView.
Section Format.
Variables prec emax : Z.
Hypothesis prec_pos : (0 < prec)%Z.

Local Abbreviation emin := (SpecFloat.emin prec emax).
Local Abbreviation fexp := (SpecFloat.fexp prec emax).

Lemma new_location_loc_of (B r : Z) :
  (0 < B)%Z -> (0 <= r < B)%Z -> new_location B r = loc_of r B.
Proof.
  intros HB Hr. unfold new_location, new_location_even, new_location_odd, loc_of.
  destruct (Z.even B) eqn:Ev; [reflexivity | ].
  destruct (r =? 0)%Z; [reflexivity | ]. f_equal.
  assert (Od : Z.odd B = true) by (rewrite <- Z.negb_even, Ev; reflexivity).
  apply Z.odd_spec in Od. destruct Od as [k Hk].
  destruct (Z.compare_spec (2 * r + 1) B) as [H | H | H];
    symmetry;
      [apply Z.compare_lt_iff | apply Z.compare_lt_iff | apply Z.compare_gt_iff]; lia.
Qed.

(** The product of two positive numbers is rounded with a relative error of
    at most [2 ^ - prec], or an absolute one of half the smallest number. *)
Lemma SFmul_error (m1 m2 : positive) (e1 e2 : Z) :
  let x := S754_finite false m1 e1 in
  let y := S754_finite false m2 e2 in
  let r := SFmul prec emax x y in
  (r = S754_infinity false
   /\ ((emin < emax - prec)%Z -> (bpow (emax - prec) <= SF2R x * SF2R y)%R))
  \/ ((Rabs (SF2R r - SF2R x * SF2R y)
        <= SF2R x * SF2R y * bpow (- prec) + bpow (emin - 1))%R
      /\ (r = S754_zero false \/ exists m' e', r = S754_finite false m' e')).
Proof.
  intros x y r. subst x y r. cbn [SFmul xorb SF2R cond_Zopp].
  pose proof (binary_round_aux_error prec emax prec_pos (Zpos (m1 * m2)) 1 (e1 + e2)
                ltac:(lia) ltac:(lia)) as H.
  rewrite Z.div_1_r, Z.mod_1_r in H. change (loc_of 0 1) with loc_Exact in H.
  specialize (H (or_intror eq_refl)). cbv zeta in H.
  replace (IZR (Zpos (m1 * m2)) / 1 * bpow (e1 + e2))%R
    with (IZR (Zpos m1) * bpow e1 * (IZR (Zpos m2) * bpow e2))%R in H
    by (rewrite Pos2Z.inj_mul, mult_IZR, bpow_add; field).
  destruct H as [[Hr Hb] | (Hb & Hs & _)]; [left | right; split; assumption].
  split; [exact Hr | ]. intros Hsane. apply (Hb Hsane).
Qed.

Lemma quotient_digits (m1 m2 : positive) (s : Z) :
  (0 <= s)%Z ->
  (Zpos (digits2_pos m1) + s - Zpos (digits2_pos m2)
   <= Zdigits2 (Zpos m1 * 2 ^ s / Zpos m2))%Z.
Proof.
  intros Hs.
  pose proof (SpecFloatFacts.digits2_pos_bounds m1) as [L1 U1].
  pose proof (SpecFloatFacts.digits2_pos_bounds m2) as [L2 U2].
  pose proof (RoundingFormat.Zdigits2_nonneg (Zpos m1 * 2 ^ s / Zpos m2)) as D0.
  set (d1 := Zpos (digits2_pos m1)) in *. set (d2 := Zpos (digits2_pos m2)) in *.
  assert (Hd1 : (1 <= d1)%Z) by (subst d1; lia).
  assert (Hd2 : (1 <= d2)%Z) by (subst d2; lia).
  destruct (Z.le_gt_cases (d1 + s - d2) 0) as [Hle | Hgt]; [lia | ].
  assert (G : (d1 + s - d2 - 1 < Zdigits2 (Zpos m1 * 2 ^ s / Zpos m2))%Z); [ | lia].
  apply RoundingFormat.Zdigits2_gt; [lia | ].
  apply Z.div_le_lower_bound; [lia | ].
  assert (P1 : (0 < 2 ^ (d1 + s - d2 - 1))%Z) by (apply Z.pow_pos_nonneg; lia).
  assert (P2 : (0 < 2 ^ s)%Z) by (apply Z.pow_pos_nonneg; lia).
  assert (E1 : (2 ^ (d1 + s - d2 - 1) * 2 ^ d2 = 2 ^ (d1 - 1) * 2 ^ s)%Z).
  { rewrite <- !Z.pow_add_r by lia. f_equal. lia. }
  nia.
Qed.

Lemma SFdiv_core_binary_spec (m1 m2 : positive) (e1 e2 : Z) :
  exists s e', (0 <= s)%Z /\ (s + e' = e1 - e2)%Z
    /\ (e' <= fexp (Zdigits2 (Zpos m1 * 2 ^ s / Zpos m2) + e'))%Z
    /\ SFdiv_core_binary prec emax (Zpos m1) e1 (Zpos m2) e2
       = (Zpos m1 * 2 ^ s / Zpos m2, e',
          loc_of ((Zpos m1 * 2 ^ s) mod Zpos m2) (Zpos m2))%Z.
Proof.
  unfold SFdiv_core_binary. cbn [Zdigits2].
  set (d1 := Zpos (digits2_pos m1)). set (d2 := Zpos (digits2_pos m2)).
  set (e' := Z.min (fexp (d1 + e1 - (d2 + e2))) (e1 - e2)).
  set (s := (e1 - e2 - e')%Z).
  assert (Hs : (0 <= s)%Z) by (subst s e'; lia).
  exists s, e'. split; [exact Hs | ]. split; [subst s; lia | ].
  pose proof (quotient_digits m1 m2 s Hs) as Q. fold d1 d2 in Q.
  split.
  { assert (e' <= fexp (d1 + e1 - (d2 + e2)))%Z by (subst e'; lia).
    assert (fexp (d1 + e1 - (d2 + e2))
            <= fexp (Zdigits2 (Zpos m1 * 2 ^ s / Zpos m2) + e'))%Z
      by (unfold SpecFloat.fexp; subst s; lia).
    lia. }
  assert (Hm : match s with
               | Zpos _ => Z.shiftl (Zpos m1) s
               | 0%Z => Zpos m1
               | Zneg _ => 0%Z
               end = (Zpos m1 * 2 ^ s)%Z).
  { destruct s as [ | p | p] eqn:Es; try lia.
    rewrite Z.shiftl_mul_pow2 by lia. reflexivity. }
  rewrite Hm.
  assert (PA : (0 <= Zpos m1 * 2 ^ s)%Z).
  { apply Z.mul_nonneg_nonneg; [lia | ]. apply Z.pow_nonneg. lia. }
  unfold Z.div, Z.modulo.
  pose proof (Z.mod_pos_bound (Zpos m1 * 2 ^ s) (Zpos m2) ltac:(lia)) as Hr.
  unfold Z.modulo in Hr.
  destruct (Z.div_eucl (Zpos m1 * 2 ^ s) (Zpos m2)) as [q r].
  rewrite new_location_loc_of by lia. reflexivity.
Qed.

(** The quotient of two positive numbers, likewise. *)
Lemma SFdiv_error (m1 m2 : positive) (e1 e2 : Z) :
  let x := S754_finite false m1 e1 in
  let y := S754_finite false m2 e2 in
  let r := SFdiv prec emax x y in
  (r = S754_infinity false
   /\ ((emin < emax - prec)%Z -> (bpow (emax - prec) <= SF2R x / SF2R y)%R))
  \/ ((Rabs (SF2R r - SF2R x / SF2R y)
        <= SF2R x / SF2R y * bpow (- prec) + bpow (emin - 1))%R
      /\ (r = S754_zero false \/ exists m' e', r = S754_finite false m' e')).
Proof.
  intros x y r. subst x y r. cbn [SFdiv xorb SF2R cond_Zopp].
  destruct (SFdiv_core_binary_spec m1 m2 e1 e2) as (s & e' & Hs & Hse & Hf & ->).
  assert (PA : (0 <= Zpos m1 * 2 ^ s)%Z).
  { apply Z.mul_nonneg_nonneg; [lia | ]. apply Z.pow_nonneg. lia. }
  pose proof (binary_round_aux_error prec emax prec_pos (Zpos m1 * 2 ^ s) (Zpos m2) e'
                PA ltac:(lia) (or_introl Hf)) as H.
  cbv zeta in H.
  replace (IZR (Zpos m1 * 2 ^ s) / IZR (Zpos m2) * bpow e')%R
    with (IZR (Zpos m1) * bpow e1 / (IZR (Zpos m2) * bpow e2))%R in H.
  { destruct H as [[Hr Hb] | (Hb & Hs' & _)]; [left | right; split; assumption].
    split; [exact Hr | ]. intros Hsane. apply (Hb Hsane). }
  rewrite mult_IZR, <- (bpow_IZR s) by lia.
  replace e1 with (s + e' + e2)%Z by lia. rewrite !bpow_add.
  pose proof (bpow_pos e2). assert (0 < IZR (Zpos m2))%R by (apply IZR_lt; lia).
  field. split; lra.
Qed.

(** Facts about signs and values. *)
Lemma SF2R_finite_pos (m : positive) (e : Z) :
  (0 < SF2R (S754_finite false m e))%R.
Proof.
  cbn [SF2R cond_Zopp]. pose proof (bpow_pos e).
  assert (0 < IZR (Zpos m))%R by (apply IZR_lt; lia). nra.
Qed.

Lemma SF2R_finite_neg (m : positive) (e : Z) :
  (SF2R (S754_finite true m e) < 0)%R.
Proof.
  cbn [SF2R cond_Zopp]. pose proof (bpow_pos e).
  assert (IZR (- Zpos m) < 0)%R by (apply IZR_lt; lia). nra.
Qed.

(** The exact difference of two finite numbers, as the integer the
    subtraction computes, in units of the smaller exponent. *)
Lemma difference_value (s1 s2 : bool) (m1 m2 : positive) (e1 e2 : Z) :
  let ez := Z.min e1 e2 in
  let M := (cond_Zopp s1 (Zpos (fst (shl_align m1 e1 ez)))
            - cond_Zopp s2 (Zpos (fst (shl_align m2 e2 ez))))%Z in
  (IZR M * bpow ez)%R
  = (SF2R (S754_finite s1 m1 e1) - SF2R (S754_finite s2 m2 e2))%R.
Proof.
  intros ez M. subst M. cbn [SF2R].
  assert (V : forall s m e, (ez <= e)%Z ->
            (IZR (cond_Zopp s (Zpos (fst (shl_align m e ez)))) * bpow ez)%R
            = (IZR (cond_Zopp s (Zpos m)) * bpow e)%R).
  { intros s m e He.
    assert (Hv : (IZR (Zpos (fst (shl_align m e ez))) * bpow ez)%R
                 = (IZR (Zpos m) * bpow e)%R).
    { rewrite SpecFloatFacts.shl_align_value, mult_IZR, <- bpow_IZR by lia.
      rewrite Rmult_assoc, <- bpow_add. f_equal. f_equal. lia. }
    destruct s; cbn [cond_Zopp]; [ | exact Hv].
    rewrite !opp_IZR. lra. }
  rewrite minus_IZR, Rmult_minus_distr_r, !V by (subst ez; lia). reflexivity.
Qed.

(** Comparison of valid finite numbers is comparison of the real numbers. *)
Lemma SFcompare_real (x y : spec_float) :
  SpecFloat.valid_binary prec emax x = true ->
  SpecFloat.valid_binary prec emax y = true ->
  SFfinite x -> SFfinite y ->
  match SFcompare x y with
  | Some Lt => (SF2R x < SF2R y)%R
  | Some Eq => SF2R x = SF2R y
  | Some Gt => (SF2R y < SF2R x)%R
  | None => False
  end.
Proof.
  intros Vx Vy Fx Fy.
  destruct x as [sx | sx | | sx mx ex], y as [sy | sy | | sy my ey];
    try contradiction.
  - reflexivity.
  - cbn [SFcompare]. destruct sy.
    + apply SF2R_finite_neg.
    + apply SF2R_finite_pos.
  - cbn [SFcompare]. destruct sx.
    + apply SF2R_finite_neg.
    + apply SF2R_finite_pos.
  - pose proof (SpecFloatFacts.finite_difference_sign prec emax prec_pos
                  _ _ _ _ _ _ Vx Vy) as Hs.
    cbv zeta in Hs.
    pose proof (difference_value sx sy mx my ex ey) as Hd. cbv zeta in Hd.
    pose proof (bpow_pos (Z.min ex ey)) as Pz.
    destruct (SFcompare (S754_finite sx mx ex) (S754_finite sy my ey))
      as [[ | | ] | ]; try contradiction.
    + rewrite Hs in Hd. lra.
    + apply IZR_lt in Hs. nra.
    + apply IZR_lt in Hs. nra.
Qed.

Lemma SFleb_real (x y : spec_float) :
  SpecFloat.valid_binary prec emax x = true ->
  SpecFloat.valid_binary prec emax y = true ->
  SFfinite x -> SFfinite y ->
  SFleb x y = true -> (SF2R x <= SF2R y)%R.
Proof.
  intros Vx Vy Fx Fy. pose proof (SFcompare_real x y Vx Vy Fx Fy) as H.
  unfold SFleb. destruct (SFcompare x y) as [[ | | ] | ]; intros E;
    try discriminate; lra.
Qed.

Lemma SFltb_real (x y : spec_float) :
  SpecFloat.valid_binary prec emax x = true ->
  SpecFloat.valid_binary prec emax y = true ->
  SFfinite x -> SFfinite y ->
  SFltb x y = true -> (SF2R x < SF2R y)%R.
Proof.
  intros Vx Vy Fx Fy. pose proof (SFcompare_real x y Vx Vy Fx Fy) as H.
  unfold SFltb. destruct (SFcompare x y) as [[ | | ] | ]; intros E;
    try discriminate; lra.
Qed.

(** Between two finite numbers there are only finite numbers. *)
Lemma SFleb_between (lo x hi : spec_float) :
  SFfinite lo -> SFfinite hi ->
  SFleb lo x = true -> SFleb x hi = true -> SFfinite x.
Proof.
  unfold SFleb.
  destruct lo as [[ | ] | [ | ] | | [ | ] ml el],
           hi as [[ | ] | [ | ] | | [ | ] mh eh],
           x as [[ | ] | [ | ] | | [ | ] m e];
    cbn; intros Fl Fh H1 H2; try contradiction; try exact I; discriminate.
Qed.

(** Only finite numbers have a finite difference. *)
Lemma SFsub_finite_inv (x y : spec_float) :
  SFfinite (SFsub prec emax x y) -> SFfinite x /\ SFfinite y.
Proof.
  destruct x as [sx | sx | | sx mx ex], y as [sy | sy | | sy my ey];
    cbn [SFsub SFfinite]; try tauto;
    try destruct sx; try destruct sy; cbn [SFfinite negb]; tauto.
Qed.

(** Every finite number of the format is below the threshold of overflow. *)
Lemma valid_below_threshold (s : bool) (m : positive) (e : Z) :
  SpecFloat.valid_binary prec emax (S754_finite s m e) = true ->
  (IZR (Zpos m) * bpow e < bpow emax - bpow (emax - prec - 1))%R.
Proof.
  intros V.
  pose proof (SpecFloatFacts.valid_finite_bounds prec emax s m e V) as (_ & Hd & _).
  cbn [SpecFloat.valid_binary] in V. unfold bounded in V.
  apply andb_prop in V. destruct V as [_ V]. apply Z.leb_le in V.
  pose proof (SpecFloatFacts.digits2_pos_bounds m) as [_ U].
  assert (Zpos m < 2 ^ prec)%Z.
  { apply Z.lt_le_trans with (1 := U). apply Z.pow_le_mono_r; lia. }
  assert (IZR (Zpos m) <= bpow prec - 1)%R.
  { rewrite bpow_IZR by lia. rewrite <- minus_IZR. apply IZR_le. lia. }
  assert (bpow e <= bpow (emax - prec))%R by (apply bpow_le; lia).
  assert (bpow emax = bpow prec * bpow (emax - prec))%R.
  { rewrite <- bpow_add. f_equal. lia. }
  assert (bpow (emax - prec - 1) = bpow (emax - prec) / 2)%R
    by (symmetry; apply bpow_half).
  pose proof (bpow_pos e). pose proof (bpow_pos (emax - prec)).
  assert (0 < IZR (Zpos m))%R by (apply IZR_lt; lia).
  nra.
Qed.

(** [binary_round] rounds a positive number of any exponent. *)
Lemma binary_round_error (m : positive) (e : Z) :
  let X := (IZR (Zpos m) * bpow e)%R in
  let r := binary_round prec emax false m e in
  let Omega := (bpow emax - bpow (emax - prec - 1))%R in
  (r = S754_infinity false /\ ((emin < emax - prec)%Z -> (Omega <= X)%R))
  \/ ((Rabs (SF2R r - X) <= X * bpow (- prec) + bpow (emin - 1))%R
      /\ (r = S754_zero false \/ exists m' e', r = S754_finite false m' e')
      /\ ((emin < emax - prec)%Z -> (X < Omega)%R)).
Proof.
  intros X r Omega. subst r. unfold binary_round, shl_align.
  set (d := Zpos (digits2_pos m)).
  assert (G : forall mz ez,
            (IZR (Zpos mz) * bpow ez)%R = X ->
            (ez <= fexp (Zdigits2 (Zpos mz) + ez))%Z ->
            let r := binary_round_aux prec emax false (Zpos mz) ez loc_Exact in
            (r = S754_infinity false /\ ((emin < emax - prec)%Z -> (Omega <= X)%R))
            \/ ((Rabs (SF2R r - X) <= X * bpow (- prec) + bpow (emin - 1))%R
                /\ (r = S754_zero false \/ exists m' e', r = S754_finite false m' e')
                /\ ((emin < emax - prec)%Z -> (X < Omega)%R))).
  { intros mz ez HX Hz rz. subst rz.
    pose proof (binary_round_aux_error prec emax prec_pos (Zpos mz) 1 ez
                  ltac:(lia) ltac:(lia)) as H.
    rewrite Z.div_1_r, Z.mod_1_r in H. change (loc_of 0 1) with loc_Exact in H.
    specialize (H (or_introl Hz)). cbv zeta in H.
    replace (IZR (Zpos mz) / 1 * bpow ez)%R with X in H by (rewrite <- HX; field).
    fold Omega in H.
    destruct H as [[Hr Hb] | (Hb & Hs & Ho)]; [left | right].
    - split; [exact Hr | ]. intros Hsane. apply (Hb Hsane). exact Hz.
    - split; [exact Hb | ]. split; [exact Hs | ]. intros Hsane. now apply Ho. }
  destruct (fexp (d + e) - e)%Z as [ | k | k] eqn:Ek.
  - apply G; [reflexivity | ]. cbn [Zdigits2]. fold d. lia.
  - apply G; [reflexivity | ]. cbn [Zdigits2]. fold d. lia.
  - apply G.
    + rewrite SpecFloatFacts.iter_xO_value, mult_IZR, <- bpow_IZR by lia.
      subst X. rewrite Rmult_assoc, <- bpow_add. f_equal. f_equal. lia.
    + cbn [Zdigits2]. rewrite SpecFloatFacts.digits2_pos_iter_xO.
      rewrite Pos2Z.inj_add. fold d.
      replace (d + Zpos k + fexp (d + e))%Z with (d + e)%Z by lia. lia.
Qed.

(** The difference of two finite numbers, the first not below the second. *)
Lemma SFsub_error (x y : spec_float) :
  SpecFloat.valid_binary prec emax x = true ->
  SpecFloat.valid_binary prec emax y = true ->
  SFfinite x -> SFfinite y ->
  let D := (SF2R x - SF2R y)%R in
  let r := SFsub prec emax x y in
  let Omega := (bpow emax - bpow (emax - prec - 1))%R in
  (0 <= D)%R ->
  (r = S754_infinity false /\ ((emin < emax - prec)%Z -> (Omega <= D)%R))
  \/ ((Rabs (SF2R r - D) <= D * bpow (- prec) + bpow (emin - 1))%R
      /\ ((exists s, r = S754_zero s) \/ exists m' e', r = S754_finite false m' e')
      /\ ((emin < emax - prec)%Z -> (D < Omega)%R)).
Proof.
  intros Vx Vy Fx Fy D r Omega HD.
  pose proof (bpow_pos (- prec)) as Pp. pose proof (bpow_pos (emin - 1)) as Pm.
  assert (Exact : SF2R r = D ->
                  ((exists s, r = S754_zero s)
                   \/ exists m' e', r = S754_finite false m' e') ->
                  (D < Omega)%R ->
                  (Rabs (SF2R r - D) <= D * bpow (- prec) + bpow (emin - 1))%R
                  /\ ((exists s, r = S754_zero s)
                      \/ exists m' e', r = S754_finite false m' e')
                  /\ ((emin < emax - prec)%Z -> (D < Omega)%R)).
  { intros -> Hs Ho. rewrite Rminus_diag, Rabs_R0.
    split; [nra | ]. split; [exact Hs | ]. intros _. exact Ho. }
  assert (PO : (0 < Omega)%R).
  { subst Omega. apply Rlt_0_minus. apply bpow_lt. lia. }
  destruct x as [sx | sx | | sx mx ex], y as [sy | sy | | sy my ey];
    try contradiction; subst D r; cbn [SFsub SF2R] in *.
  - right. apply Exact; [ | left | lra].
    + destruct sx, sy; cbn [SF2R]; lra.
    + destruct sx, sy; eauto.
  - right. pose proof (valid_below_threshold _ _ _ Vy) as By. fold Omega in By.
    destruct sy; cbn [negb cond_Zopp] in *.
    + apply Exact; [rewrite opp_IZR; lra | right; eauto | ].
      rewrite opp_IZR. lra.
    + exfalso. pose proof (SF2R_finite_pos my ey) as P. cbn [SF2R cond_Zopp] in P. lra.
  - right. pose proof (valid_below_threshold _ _ _ Vx) as Bx. fold Omega in Bx.
    destruct sx; cbn [cond_Zopp] in *.
    + exfalso. pose proof (SF2R_finite_neg mx ex) as P. cbn [SF2R cond_Zopp] in P. lra.
    + apply Exact; [lra | right; eauto | lra].
  - pose proof (difference_value sx sy mx my ex ey) as Hd. cbv zeta in Hd.
    cbn [SF2R] in Hd.
    set (M := (cond_Zopp sx (Zpos (fst (shl_align mx ex (Z.min ex ey))))
               - cond_Zopp sy (Zpos (fst (shl_align my ey (Z.min ex ey)))))%Z) in *.
    pose proof (bpow_pos (Z.min ex ey)) as Pz.
    destruct M as [ | m | m] eqn:EM; cbn [binary_normalize] in *.
    + right. apply Exact; [cbn [SF2R]; lra | left; eauto | lra].
    + pose proof (binary_round_error m (Z.min ex ey)) as H. cbv zeta in H.
      rewrite Hd in H. fold Omega in H.
      destruct H as [H | (Hb & Hs & Ho)]; [left; exact H | right].
      split; [exact Hb | ]. split; [ | exact Ho].
      destruct Hs as [Hs | Hs]; [left; eauto | right; exact Hs].
    + exfalso. assert (IZR (Zneg m) < 0)%R by (apply IZR_lt; lia). nra.
Qed.

End Format.
End RealOps.

(** ** In binary64: a span times a resolution *)

Module Binary64Reals.
Import Py SpecFloatFacts Binary64Facts RealView.

(** Integers of at most [prec] digits are numbers of the format. *)
Lemma binary_round_small_value (prec emax : Z) (p : positive) :
  (0 < prec)%Z ->
  (Zpos (digits2_pos p) <= prec)%Z -> (2 <= emax)%Z -> (prec <= emax)%Z ->
  exists m e, binary_round prec emax false p 0 = S754_finite false m e
              /\ (IZR (Zpos m) * bpow e)%R = IZR (Zpos p).
Proof.
  intros Hprec Hd H2 Hpe.
  pose proof (Pos2Z.is_pos (digits2_pos p)) as Hd0.
  unfold binary_round, shl_align, SpecFloat.fexp.
  replace (Z.max (Zpos (digits2_pos p) + 0 - prec) (SpecFloat.emin prec emax) - 0)%Z
    with (Zpos (digits2_pos p) - prec)%Z by (unfold SpecFloat.emin; lia).
  replace (Z.max (Zpos (digits2_pos p) + 0 - prec) (SpecFloat.emin prec emax))%Z
    with (Zpos (digits2_pos p) - prec)%Z by (unfold SpecFloat.emin; lia).
  destruct (Zpos (digits2_pos p) - prec)%Z as [ | k | k] eqn:Ek; try lia.
  - exists p, 0%Z. split.
    + apply binary_round_aux_canonical; unfold SpecFloat.emin; lia.
    + unfold bpow. rewrite powerRZ_O. lra.
  - exists (Pos.iter xO p k), (Zneg k). split.
    + apply binary_round_aux_canonical.
      * rewrite digits2_pos_iter_xO. lia.
      * unfold SpecFloat.emin. lia.
      * lia.
    + change (Zneg k) with (- Zpos k)%Z.
      rewrite iter_xO_value, mult_IZR, bpow_opp, <- bpow_IZR by lia.
      pose proof (bpow_pos (Zpos k)). field. lra.
Qed.

Lemma of_uint63_value (n : int) :
  (0 < Uint63.to_Z n < 2 ^ 53)%Z ->
  exists m e, Prim2SF (of_uint63 n) = S754_finite false m e
              /\ (IZR (Zpos m) * bpow e)%R = IZR (Uint63.to_Z n).
Proof.
  intros [H0 H]. rewrite of_uint63_spec.
  destruct (Uint63.to_Z n) as [ | p | p]; try lia.
  cbn [binary_normalize].
  apply binary_round_small_value.
  - reflexivity.
  - pose proof (digits2_pos_bounds p) as [Hlo _].
    assert (Zpos (digits2_pos p) - 1 < 53)%Z; [ | unfold prec; lia].
    apply (Z.pow_lt_mono_r_iff 2); lia.
  - unfold emax. lia.
  - unfold prec, emax. lia.
Qed.

(** Every finite number of the format is below [2 ^ emax]. *)
Lemma valid_finite_below (s : bool) (m : positive) (e : Z) :
  SpecFloat.valid_binary prec emax (S754_finite s m e) = true ->
  (IZR (Zpos m) * bpow e < bpow emax)%R.
Proof.
  intros V.
  pose proof (valid_finite_bounds prec emax s m e V) as (_ & Hd & _).
  cbn [SpecFloat.valid_binary] in V. unfold bounded in V.
  apply andb_prop in V. destruct V as [_ V]. apply Z.leb_le in V.
  pose proof (digits2_pos_bounds m) as [_ U].
  assert (Zpos m < 2 ^ prec)%Z.
  { apply Z.lt_le_trans with (1 := U). apply Z.pow_le_mono_r; lia. }
  assert (IZR (Zpos m) < bpow prec)%R.
  { rewrite bpow_IZR by (unfold prec; lia). now apply IZR_lt. }
  assert (bpow prec * bpow e <= bpow emax)%R.
  { rewrite <- bpow_add. apply bpow_le. lia. }
  pose proof (bpow_pos e). nra.
Qed.

(** Truncating a positive number gives the integer at or just below it. *)
Lemma SFtrunc_floor (m : positive) (e : Z) :
  exists z, SFtrunc (S754_finite false m e) = Some z
            /\ (IZR z <= SF2R (S754_finite false m e) < IZR z + 1)%R.
Proof.
  cbn [SFtrunc SF2R cond_Zopp]. eexists. split; [reflexivity | ].
  destruct (Z.le_gt_cases 0 e) as [He | He].
  - rewrite Z.shiftl_mul_pow2, mult_IZR, <- bpow_IZR by lia. lra.
  - replace (Z.shiftl (Zpos m) e) with (Z.shiftl (Zpos m) (- - e)) by (f_equal; lia).
    rewrite Z.shiftl_opp_r, Z.shiftr_div_pow2 by lia.
    assert (P : (0 < 2 ^ (- e))%Z) by (apply Z.pow_pos_nonneg; lia).
    pose proof (Z.div_mod (Zpos m) (2 ^ (- e)) ltac:(lia)) as Hdm.
    pose proof (Z.mod_pos_bound (Zpos m) (2 ^ (- e)) P) as Hr.
    set (z := (Zpos m / 2 ^ (- e))%Z) in *.
    set (r := (Zpos m mod 2 ^ (- e))%Z) in *.
    assert (Hone : (bpow e * bpow (- e) = 1)%R).
    { rewrite <- bpow_add, Z.add_opp_diag_r. reflexivity. }
    assert (Hm : IZR (Zpos m) = (bpow (- e) * IZR z + IZR r)%R).
    { rewrite bpow_IZR, <- mult_IZR, <- plus_IZR by lia. f_equal. exact Hdm. }
    assert (0 <= IZR r)%R by (apply IZR_le; lia).
    assert (IZR r < bpow (- e))%R by (rewrite bpow_IZR by lia; apply IZR_lt; lia).
    pose proof (bpow_pos e). pose proof (bpow_pos (- e)).
    rewrite Hm.
    replace ((bpow (- e) * IZR z + IZR r) * bpow e)%R
      with (IZR z * (bpow e * bpow (- e)) + IZR r * bpow e)%R by ring.
    rewrite Hone.
    assert (IZR r * bpow e < bpow (- e) * bpow e)%R by (apply Rmult_lt_compat_r; lra).
    assert (0 <= IZR r * bpow e)%R by (apply Rmult_le_pos; lra).
    split; lra.
Qed.

Lemma bpow_m3 : bpow (-3) = (/ 8)%R.
Proof.
  change (-3)%Z with (Z.opp 3). rewrite bpow_opp, bpow_IZR by lia. reflexivity.
Qed.

Lemma bpow_m10 : bpow (-10) = (/ 1024)%R.
Proof.
  change (-10)%Z with (Z.opp 10). rewrite bpow_opp, bpow_IZR by lia. reflexivity.
Qed.

(** The two error terms of binary64: the relative one, for numbers of full
    precision, and half of the smallest positive number. *)
Local Abbreviation eps := (bpow (- prec)).
Local Abbreviation eta := (bpow (SpecFloat.emin prec emax - 1)).

Lemma eps_small : (0 < eps <= / 1024)%R.
Proof.
  split; [apply bpow_pos | ]. rewrite <- bpow_m10. apply bpow_le. unfold prec. lia.
Qed.

Lemma eta_small : (0 < eta <= / 1024)%R.
Proof.
  split; [apply bpow_pos | ]. rewrite <- bpow_m10. apply bpow_le.
  unfold SpecFloat.emin, prec, emax. lia.
Qed.

(** Half of the smallest number, times a finite number, is small. *)
Lemma eta_times_finite (v : R) :
  (0 <= v < bpow emax)%R -> (v * eta <= / 1024)%R.
Proof.
  intros [H0 H]. pose proof (proj1 eta_small) as Pe.
  apply Rle_trans with (bpow emax * eta)%R; [nra | ].
  rewrite <- bpow_add, <- bpow_m10. apply bpow_le.
  unfold SpecFloat.emin, prec, emax. lia.
Qed.

Lemma count_times_eps (w : int) :
  (Uint63.to_Z w < 2 ^ 50)%Z -> (IZR (Uint63.to_Z w) * eps <= / 8)%R.
Proof.
  intros H. pose proof (proj1 eps_small) as Pe.
  apply Rle_trans with (bpow 50 * eps)%R.
  - assert (IZR (Uint63.to_Z w) <= bpow 50)%R; [ | nra].
    rewrite bpow_IZR by lia. apply IZR_le. lia.
  - rewrite <- bpow_add, <- bpow_m3. apply bpow_le. unfold prec. lia.
Qed.

(** The resolution: a count of pixels below [2 ^ 50] over a positive finite
    span, when it does not overflow, is a positive number that, times the
    span, is the count up to the two error terms. *)
Lemma resolution_value (w : int) (d : float) (mD : positive) (eD : Z) :
  (0 < Uint63.to_Z w < 2 ^ 50)%Z ->
  Prim2SF d = S754_finite false mD eD ->
  is_finite (of_uint63 w / d) = true ->
  exists mq eq,
    Prim2SF (of_uint63 w / d) = S754_finite false mq eq
    /\ (Rabs (IZR (Zpos mq) * bpow eq * (IZR (Zpos mD) * bpow eD)
              - IZR (Uint63.to_Z w))
        <= IZR (Uint63.to_Z w) * eps + IZR (Zpos mD) * bpow eD * eta)%R.
Proof.
  intros [W0 W50] Ed Fq.
  pose proof (Prim2SF_valid d) as Vd. rewrite Ed in Vd.
  apply is_finite_cases in Fq.
  destruct (of_uint63_value w) as (mW & eW & EW & VW); [lia | ].
  pose proof (valid_finite_below _ _ _ Vd) as Dmax.
  rewrite div_spec, EW, Ed in Fq |- *. unfold SF64div in *.
  pose proof (RealOps.SFdiv_error prec emax prec_positive mW mD eW eD) as Hq.
  cbv zeta in Hq. cbn [SF2R cond_Zopp] in Hq. rewrite VW in Hq.
  pose proof (count_times_eps w W50) as WEps.
  set (q := SFdiv prec emax (S754_finite false mW eW) (S754_finite false mD eD)) in *.
  set (D := (IZR (Zpos mD) * bpow eD)%R) in *.
  set (Wr := IZR (Uint63.to_Z w)) in *.
  assert (PD : (0 < D)%R).
  { subst D. pose proof (bpow_pos eD).
    assert (0 < IZR (Zpos mD))%R by (apply IZR_lt; lia). nra. }
  assert (W1 : (1 <= Wr)%R) by (subst Wr; apply IZR_le; lia).
  pose proof (eta_times_finite D ltac:(lra)) as DEta.
  pose proof eps_small as [PEps Eps]. pose proof eta_small as [PEta Eta].
  set (T := (Wr / D)%R) in *.
  assert (TD : (T * D = Wr)%R) by (subst T; field; lra).
  assert (PT : (0 < T)%R) by (subst T; apply Rdiv_lt_0_compat; lra).
  destruct Hq as [[Hq _] | [Hq Sq]]; [rewrite Hq in Fq; contradiction | ].
  apply Rabs_le_inv in Hq.
  destruct Sq as [Sq | (mq & eq & Sq)].
  { exfalso. rewrite Sq in Hq. cbn [SF2R] in Hq. nra. }
  exists mq, eq. split; [exact Sq | ].
  rewrite Sq in Hq. cbn [SF2R cond_Zopp] in Hq.
  apply Rabs_le. nra.
Qed.

(** The product of two positive numbers that is below [2 ^ 51] does not
    overflow: its truncation is an integer next to it. *)
Lemma product_truncation (a q : float) (ma mq : positive) (ea eq : Z) (bound : R) :
  Prim2SF a = S754_finite false ma ea ->
  Prim2SF q = S754_finite false mq eq ->
  let X := (IZR (Zpos ma) * bpow ea * (IZR (Zpos mq) * bpow eq))%R in
  (X <= bound)%R -> (bound <= bpow 50 + 1)%R ->
  exists z, py_int (a * q) = Ok z
            /\ (0 <= z)%Z
            /\ (X - (bound * eps + eta) - 1 < IZR z <= X + (bound * eps + eta))%R.
Proof.
  intros Ea Eq X HX Hb.
  pose proof eps_small as [PEps Eps]. pose proof eta_small as [PEta Eta].
  assert (X0 : (0 < X)%R).
  { subst X. pose proof (bpow_pos ea). pose proof (bpow_pos eq).
    assert (0 < IZR (Zpos ma))%R by (apply IZR_lt; lia).
    assert (0 < IZR (Zpos mq))%R by (apply IZR_lt; lia).
    apply Rmult_lt_0_compat; nra. }
  unfold py_int. rewrite mul_spec, Ea, Eq. unfold SF64mul.
  pose proof (RealOps.SFmul_error prec emax prec_positive ma mq ea eq) as Hp.
  cbv zeta in Hp. cbn [SF2R cond_Zopp] in Hp. fold X in Hp.
  set (p := SFmul prec emax (S754_finite false ma ea) (S754_finite false mq eq)) in *.
  destruct Hp as [[_ Hp] | [Hp Sp]].
  { exfalso.
    assert (bpow 51 <= bpow (emax - prec))%R by (apply bpow_le; unfold emax, prec; lia).
    assert (bpow 50 + 1 < bpow 51)%R.
    { rewrite !bpow_IZR by lia. rewrite <- plus_IZR. apply IZR_lt. lia. }
    specialize (Hp ltac:(unfold SpecFloat.emin, emax, prec; lia)). lra. }
  apply Rabs_le_inv in Hp.
  assert (HP : (X - (bound * eps + eta) <= SF2R p <= X + (bound * eps + eta))%R) by nra.
  destruct Sp as [Sp | (mp & ep & Sp)].
  - rewrite Sp in HP |- *. cbn [SF2R] in HP. exists 0%Z.
    split; [reflexivity | ]. split; [lia | ]. lra.
  - rewrite Sp in HP |- *.
    destruct (SFtrunc_floor mp ep) as (z & Ez & Hz). rewrite Ez.
    exists z. split; [reflexivity | ]. split; [ | lra].
    cbn [SFtrunc cond_Zopp] in Ez. injection Ez as <-.
    apply Z.shiftl_nonneg. lia.
Qed.

(** A count of pixels below [2 ^ 50], divided by a positive span and
    multiplied by it again, truncates to the count or to one less. *)
Lemma span_times_resolution (w : int) (d : float) :
  (0 < Uint63.to_Z w < 2 ^ 50)%Z ->
  SFpositive (Prim2SF d) -> is_finite d = true ->
  is_finite (of_uint63 w / d) = true ->
  py_int (d * (of_uint63 w / d)) = Ok (Uint63.to_Z w)
  \/ py_int (d * (of_uint63 w / d)) = Ok (Uint63.to_Z w - 1)%Z.
Proof.
  intros HW Pd Fd Fq.
  pose proof (Prim2SF_valid d) as Vd.
  apply is_finite_cases in Fd.
  destruct (Prim2SF d) as [sd | sd | | sd mD eD] eqn:Ed; try contradiction.
  cbn in Pd. subst sd.
  destruct (resolution_value w d mD eD HW Ed Fq) as (mq & eq & Eq & Hq).
  pose proof (valid_finite_below _ _ _ Vd) as Dmax.
  pose proof (count_times_eps w (proj2 HW)) as WEps.
  pose proof eps_small as [PEps Eps]. pose proof eta_small as [PEta Eta].
  set (D := (IZR (Zpos mD) * bpow eD)%R) in *.
  set (Q := (IZR (Zpos mq) * bpow eq)%R) in *.
  set (Wr := IZR (Uint63.to_Z w)) in *.
  assert (PD : (0 < D)%R).
  { subst D. pose proof (bpow_pos eD).
    assert (0 < IZR (Zpos mD))%R by (apply IZR_lt; lia). nra. }
  assert (W1 : (1 <= Wr)%R) by (subst Wr; apply IZR_le; lia).
  assert (W2 : (Wr <= bpow 50)%R).
  { subst Wr. rewrite bpow_IZR by lia. apply IZR_le. lia. }
  pose proof (eta_times_finite D ltac:(lra)) as DEta.
  apply Rabs_le_inv in Hq.
  destruct (product_truncation d _ mD mq eD eq (Wr + / 4)%R Ed Eq)
    as (z & Ez & _ & Hz).
  { fold D Q. nra. }
  { lra. }
  fold D Q in Hz. rewrite Ez.
  assert (z < Uint63.to_Z w + 1)%Z.
  { apply lt_IZR. rewrite plus_IZR. fold Wr. nra. }
  assert (Uint63.to_Z w - 2 < z)%Z.
  { apply lt_IZR. rewrite minus_IZR. fold Wr. nra. }
  assert (Hz' : z = Uint63.to_Z w \/ z = (Uint63.to_Z w - 1)%Z) by lia.
  destruct Hz' as [-> | ->]; [left | right]; reflexivity.
Qed.

(** Between the bounds: the distance to the upper bound, times the
    resolution, truncates to an integer from 0 to the count of pixels. *)
Lemma inside_times_resolution (w : int) (lo hi x : float) :
  (0 < Uint63.to_Z w < 2 ^ 50)%Z ->
  (lo <? hi)%float = true ->
  is_finite (hi - lo) = true ->
  is_finite (of_uint63 w / (hi - lo)) = true ->
  (lo <=? x)%float = true -> (x <=? hi)%float = true ->
  exists z, py_int ((hi - x) * (of_uint63 w / (hi - lo))) = Ok z
            /\ (0 <= z <= Uint63.to_Z w)%Z.
Proof.
  intros HW Hlt Fd Fq Hlo Hhi.
  pose proof (sub_positive _ _ Hlt) as Pd.
  pose proof (Prim2SF_valid lo) as Vlo. pose proof (Prim2SF_valid hi) as Vhi.
  pose proof (Prim2SF_valid x) as Vx. pose proof (Prim2SF_valid (hi - lo)) as Vd.
  pose proof (is_finite_cases _ Fd) as Sd.
  assert (Fhl : SFfinite (Prim2SF hi) /\ SFfinite (Prim2SF lo)).
  { apply (RealOps.SFsub_finite_inv prec emax). rewrite sub_spec in Sd. exact Sd. }
  destruct Fhl as [Fh Fl].
  rewrite leb_spec in Hlo, Hhi. rewrite ltb_spec in Hlt.
  pose proof (RealOps.SFleb_between _ _ _ Fl Fh Hlo Hhi) as Fx.
  pose proof (RealOps.SFleb_real prec emax prec_positive _ _ Vlo Vx Fl Fx Hlo) as Rlo.
  pose proof (RealOps.SFleb_real prec emax prec_positive _ _ Vx Vhi Fx Fh Hhi) as Rhi.
  pose proof (RealOps.SFltb_real prec emax prec_positive _ _ Vlo Vhi Fl Fh Hlt) as Rlt.
  assert (Sane : (SpecFloat.emin prec emax < emax - prec)%Z)
    by (unfold SpecFloat.emin, emax, prec; lia).
  (* the span *)
  pose proof (RealOps.SFsub_error prec emax prec_positive _ _ Vhi Vlo Fh Fl) as Hd.
  cbv zeta in Hd. specialize (Hd ltac:(lra)).
  (* the distance to the upper bound *)
  pose proof (RealOps.SFsub_error prec emax prec_positive _ _ Vhi Vx Fh Fx) as Ha.
  cbv zeta in Ha. specialize (Ha ltac:(lra)).
  destruct (Prim2SF (hi - lo)) as [sd | sd | | sd mD eD] eqn:Ed; try contradiction.
  cbn in Pd. subst sd.
  destruct (resolution_value w (hi - lo) mD eD HW Ed Fq) as (mq & eq & Eq & Hq).
  pose proof (valid_finite_below _ _ _ Vd) as Dmax.
  pose proof (Prim2SF_valid (of_uint63 w / (hi - lo))) as Vq. rewrite Eq in Vq.
  pose proof (valid_finite_below _ _ _ Vq) as Qmax.
  pose proof (count_times_eps w (proj2 HW)) as WEps.
  pose proof eps_small as [PEps Eps]. pose proof eta_small as [PEta Eta].
  rewrite sub_spec in Ed. unfold SF64sub in Ed. rewrite Ed in Hd.
  cbn [SF2R cond_Zopp] in Hd.
  set (D := (IZR (Zpos mD) * bpow eD)%R) in *.
  set (Q := (IZR (Zpos mq) * bpow eq)%R) in *.
  set (Wr := IZR (Uint63.to_Z w)) in *.
  set (S := (SF2R (Prim2SF hi) - SF2R (Prim2SF lo))%R) in *.
  set (Da := (SF2R (Prim2SF hi) - SF2R (Prim2SF x))%R) in *.
  assert (PD : (0 < D)%R).
  { subst D. pose proof (bpow_pos eD).
    assert (0 < IZR (Zpos mD))%R by (apply IZR_lt; lia). nra. }
  assert (PQ : (0 < Q)%R).
  { subst Q. pose proof (bpow_pos eq).
    assert (0 < IZR (Zpos mq))%R by (apply IZR_lt; lia). nra. }
  assert (W1 : (1 <= Wr)%R) by (subst Wr; apply IZR_le; lia).
  assert (W2 : (Wr <= bpow 50)%R).
  { subst Wr. rewrite bpow_IZR by lia. apply IZR_le. lia. }
  pose proof (eta_times_finite D ltac:(lra)) as DEta.
  pose proof (eta_times_finite Q ltac:(lra)) as QEta.
  assert (HDa : (0 <= Da <= S)%R) by (subst Da S; lra).
  destruct Hd as [[Hd _] | (Hd & _ & Od)]; [discriminate Hd | ].
  specialize (Od Sane). apply Rabs_le_inv in Hd. apply Rabs_le_inv in Hq.
  destruct Ha as [[_ Ha] | (Ha & Sa & _)]; [specialize (Ha Sane); lra | ].
  apply Rabs_le_inv in Ha.
  unfold py_int at 1. rewrite mul_spec, sub_spec. unfold SF64mul, SF64sub.
  destruct Sa as [[sa Sa] | (ma & ea & Sa)].
  - (* at the upper bound *)
    rewrite Sa, Eq. cbn [SFmul SFtrunc]. exists 0%Z. split; [reflexivity | lia].
  - rewrite Sa in Ha. cbn [SF2R cond_Zopp] in Ha.
    set (Av := (IZR (Zpos ma) * bpow ea)%R) in *.
    set (u := (S * Q)%R).
    assert (A1 : (u * (1 - eps) <= Wr + / 8 + 2 / 1024)%R) by (subst u; nra).
    assert (A2 : (eps * u <= / 4 + / 256)%R) by nra.
    assert (A3 : (Av * Q <= Wr + 5 / 8 + 12 / 1024)%R) by (subst u; nra).
    assert (Ea : Prim2SF (hi - x) = S754_finite false ma ea).
    { rewrite sub_spec. exact Sa. }
    destruct (product_truncation (hi - x) _ ma mq ea eq (Wr + 3 / 4)%R Ea Eq)
      as (z & Ez & Hz0 & Hz).
    { fold Av Q. lra. }
    { lra. }
    fold Av Q in Hz.
    exists z. split; [ | split; [exact Hz0 | ]].
    + unfold py_int in Ez. rewrite mul_spec, sub_spec in Ez. exact Ez.
    + assert (z < Uint63.to_Z w + 1)%Z; [ | lia].
      apply lt_IZR. rewrite plus_IZR. fold Wr. nra.
Qed.

End Binary64Reals.

(* ================================================================== *)
(** * CoordinatePixelMapper: [convert_lng_lat_to_pixel] *)
(* ================================================================== *)

Module CoordinatePixelMapper.
Import Py imagery_helper GeoUtils SpecFloatFacts Binary64Facts PyFacts.
Local Open Scope float_scope.

Section Geometry.
Variable g : DatasetReader.

Local Abbreviation b := (bounds g).
(* The two resolutions, in pixels per unit. *)
Local Abbreviation xres := (of_uint63 (width g) / (right b - left b)).
Local Abbreviation yres := (of_uint63 (height g) / (top b - bottom b)).

Lemma bounds_check (lng lat : float) :
  outside (left b) (right b) lng || outside (bottom b) (top b) lat = true ->
  convert_lng_lat_to_pixel g lng lat = Raise OutOfBoundsError.
Proof.
  unfold convert_lng_lat_to_pixel, outside. intros H.
  destruct (right b <? lng), (lng <? left b); cbn [orb] in *; try reflexivity.
  destruct (top b <? lat), (lat <? bottom b); cbn [orb] in *; try reflexivity.
  discriminate H.
Qed.

(** Past the bounds check, on a geometry with right > left and
    top > bottom, nothing but the conversions to [int] can fail. *)
Lemma past_bounds_check (lng lat : float) :
  (left b <? right b) = true -> (bottom b <? top b) = true ->
  outside (left b) (right b) lng = false ->
  outside (bottom b) (top b) lat = false ->
  convert_lng_lat_to_pixel g lng lat
  = (x <- py_int ((right b - lng) * xres) ;;
     y <- py_int ((top b - lat) * yres) ;;
     Ok (x, y)).
Proof.
  intros Hlr Hbt Hx Hy.
  unfold convert_lng_lat_to_pixel, outside in *.
  rewrite (orb_comm (right b <? lng)), (orb_comm (top b <? lat)), Hx, Hy.
  pose proof (sub_positive _ _ Hlr) as Pw.
  pose proof (sub_positive _ _ Hbt) as Ph.
  unfold np.abs. rewrite (abs_positive _ Pw), (abs_positive _ Ph).
  rewrite (truediv_positive _ _ Pw), (truediv_positive _ _ Ph).
  reflexivity.
Qed.

Lemma xpos_nonneg (lng : float) :
  (left b <? right b) = true -> outside (left b) (right b) lng = false ->
  SFnonneg (Prim2SF ((right b - lng) * xres)).
Proof.
  intros Hlr Hx. apply orb_false_elim in Hx. destruct Hx as [_ Hx].
  apply mul_nonneg.
  - now apply sub_nonneg.
  - apply div_nonneg; [apply of_uint63_nonneg | now apply sub_positive].
Qed.

Lemma ypos_nonneg (lat : float) :
  (bottom b <? top b) = true -> outside (bottom b) (top b) lat = false ->
  SFnonneg (Prim2SF ((top b - lat) * yres)).
Proof.
  intros Hbt Hy. apply orb_false_elim in Hy. destruct Hy as [_ Hy].
  apply mul_nonneg.
  - now apply sub_nonneg.
  - apply div_nonneg; [apply of_uint63_nonneg | now apply sub_positive].
Qed.

Lemma no_bounds_error_past_check (lng lat : float) :
  outside (left b) (right b) lng || outside (bottom b) (top b) lat = false ->
  convert_lng_lat_to_pixel g lng lat <> Raise OutOfBoundsError.
Proof.
  unfold convert_lng_lat_to_pixel, outside.
  rewrite (orb_comm (lng <? left b)), (orb_comm (lat <? bottom b)).
  intros H. apply orb_false_elim in H. destruct H as [-> ->].
  unfold OutOfBoundsError.
  destruct (truediv (of_uint63 (width g)) _) as [xr | e1] eqn:E1; cbn [bind];
    [ | apply truediv_raises in E1; subst; discriminate].
  destruct (truediv (of_uint63 (height g)) _) as [yr | e2] eqn:E2; cbn [bind];
    [ | apply truediv_raises in E2; subst; discriminate].
  destruct (py_int ((right b - lng) * _)) as [x | e3] eqn:E3; cbn [bind];
    [ | apply py_int_raises in E3; destruct E3; subst; discriminate].
  destruct (py_int ((top b - lat) * _)) as [y | e4] eqn:E4; cbn [bind];
    [ | apply py_int_raises in E4; destruct E4; subst; discriminate].
  discriminate.
Qed.

Lemma raises_iff_outside (lng lat : float) :
  convert_lng_lat_to_pixel g lng lat = Raise OutOfBoundsError
  <-> outside (left b) (right b) lng = true
      \/ outside (bottom b) (top b) lat = true.
Proof.
  split.
  - intros H.
    destruct (outside (left b) (right b) lng
              || outside (bottom b) (top b) lat) eqn:E.
    + now apply orb_true_iff.
    + now apply no_bounds_error_past_check in E.
  - intros H. apply bounds_check. now apply orb_true_iff.
Qed.

(** On a geometry with right > left and top > bottom the code is the
    mapper of the specification, exceptions included. *)
Lemma convert_refines_lngLatToPixel (lng lat : float) :
  (left b <? right b) = true -> (bottom b <? top b) = true ->
  convert_lng_lat_to_pixel g lng lat = lngLatToPixel g lng lat.
Proof.
  intros Hlr Hbt. unfold lngLatToPixel.
  destruct (outside (left b) (right b) lng
            || outside (bottom b) (top b) lat) eqn:E.
  - now apply bounds_check.
  - apply orb_false_elim in E. destruct E as [Hx Hy].
    rewrite past_bounds_check by assumption.
    rewrite (py_int_floor _ (xpos_nonneg lng Hlr Hx)).
    rewrite (py_int_floor _ (ypos_nonneg lat Hbt Hy)).
    reflexivity.
Qed.

End Geometry.

(** Between numbers, strictly outside an interval is not inside it. *)
Lemma outside_not_inside (lo hi x : float) :
  is_nan lo = false -> is_nan hi = false -> is_nan x = false ->
  outside lo hi x = negb (inside lo hi x).
Proof.
  intros Hlo Hhi Hx. unfold outside, inside.
  rewrite (ltb_leb lo x), (ltb_leb x hi) by assumption.
  now rewrite negb_andb.
Qed.

(** Inside an interval is not strictly outside it. *)
Lemma inside_not_outside (lo hi x : float) :
  inside lo hi x = true -> outside lo hi x = false.
Proof.
  unfold inside, outside. intros H. apply andb_prop in H. destruct H as [H1 H2].
  now rewrite (leb_not_ltb _ _ H1), (leb_not_ltb _ _ H2).
Qed.

(** C2.  [convert_lng_lat_to_pixel] raises its "Invalid lat/lng" exception
    exactly when the longitude lies outside the interval from left to right
    or the latitude outside the interval from bottom to top (between
    numbers: when one of them is not inside its closed interval).  On a
    geometry with right > left and top > bottom, an in-bounds call computes
    floor((right - lng) * xres) and floor((top - lat) * yres) in binary64,
    with xres = width / (right - left) and yres = height / (top - bottom).
    When the spans and the resolutions are finite and the pixel counts are
    positive and below 2^50, every call with the longitude and the latitude
    inside their intervals returns these two integers, x from 0 to the width
    and y from 0 to the height; the top-right corner maps to (0, 0). *)
Theorem convert_lng_lat_to_pixel_spec (g : DatasetReader) (lng lat : float) :
  let b := bounds g in
  let xres := of_uint63 (width g) / (right b - left b) in
  let yres := of_uint63 (height g) / (top b - bottom b) in
  let W := Uint63.to_Z (width g) in
  let H := Uint63.to_Z (height g) in
  (convert_lng_lat_to_pixel g lng lat = Raise OutOfBoundsError
   <-> outside (left b) (right b) lng = true
       \/ outside (bottom b) (top b) lat = true)
  /\ (is_nan lng = false -> is_nan lat = false ->
      is_nan (left b) = false -> is_nan (right b) = false ->
      is_nan (bottom b) = false -> is_nan (top b) = false ->
      (convert_lng_lat_to_pixel g lng lat = Raise OutOfBoundsError
       <-> inside (left b) (right b) lng = false
           \/ inside (bottom b) (top b) lat = false))
  /\ ((left b <? right b) = true -> (bottom b <? top b) = true ->
      outside (left b) (right b) lng = false ->
      outside (bottom b) (top b) lat = false ->
      convert_lng_lat_to_pixel g lng lat
      = (x <- floor ((right b - lng) * xres) ;;
         y <- floor ((top b - lat) * yres) ;;
         Ok (x, y)))
  /\ ((left b <? right b) = true -> (bottom b <? top b) = true ->
      (0 < W < 2 ^ 50)%Z -> (0 < H < 2 ^ 50)%Z ->
      is_finite (right b - left b) = true -> is_finite (top b - bottom b) = true ->
      is_finite xres = true -> is_finite yres = true ->
      inside (left b) (right b) lng = true ->
      inside (bottom b) (top b) lat = true ->
      exists x y,
        convert_lng_lat_to_pixel g lng lat = Ok (x, y)
        /\ floor ((right b - lng) * xres) = Ok x
        /\ floor ((top b - lat) * yres) = Ok y
        /\ (0 <= x <= W)%Z /\ (0 <= y <= H)%Z)
  /\ ((left b <? right b) = true -> (bottom b <? top b) = true ->
      is_finite (right b) = true -> is_finite (top b) = true ->
      is_finite xres = true -> is_finite yres = true ->
      convert_lng_lat_to_pixel g (right b) (top b) = Ok (0, 0)%Z).
Proof.
  cbv zeta. split; [ | split; [ | split; [ | split]]].
  - apply raises_iff_outside.
  - intros Nx Ny Nl Nr Nb Nt.
    rewrite raises_iff_outside, !outside_not_inside by assumption.
    now rewrite !negb_true_iff.
  - intros Hlr Hbt Hx Hy.
    rewrite (convert_refines_lngLatToPixel g lng lat Hlr Hbt).
    unfold lngLatToPixel. now rewrite Hx, Hy.
  - intros Hlr Hbt HW HH Fw Fh Fx Fy Ix Iy.
    pose proof (inside_not_outside _ _ _ Ix) as Ox.
    pose proof (inside_not_outside _ _ _ Iy) as Oy.
    unfold inside in Ix, Iy.
    apply andb_prop in Ix. destruct Ix as [Ix1 Ix2].
    apply andb_prop in Iy. destruct Iy as [Iy1 Iy2].
    destruct (Binary64Reals.inside_times_resolution (width g) _ _ lng
                HW Hlr Fw Fx Ix1 Ix2) as (x & Ex & Rx).
    destruct (Binary64Reals.inside_times_resolution (height g) _ _ lat
                HH Hbt Fh Fy Iy1 Iy2) as (y & Ey & Ry).
    exists x, y. rewrite past_bounds_check by assumption.
    rewrite <- (py_int_floor _ (xpos_nonneg g lng Hlr Ox)).
    rewrite <- (py_int_floor _ (ypos_nonneg g lat Hbt Oy)).
    rewrite Ex, Ey. repeat split; try reflexivity; lia.
  - intros Hlr Hbt Fr Ft Fx Fy.
    rewrite past_bounds_check; try assumption.
    + rewrite (sub_diag _ Fr), (sub_diag _ Ft).
      destruct (zero_mul_finite _ Fx) as [sx Ex].
      destruct (zero_mul_finite _ Fy) as [sy Ey].
      now rewrite (py_int_zero _ _ Ex), (py_int_zero _ _ Ey).
    + unfold outside. now rewrite ltb_irrefl, (ltb_asym _ _ Hlr).
    + unfold outside. now rewrite ltb_irrefl, (ltb_asym _ _ Hbt).
Qed.

(** Calls the theorem covers: a point inside, and the top-right corner. *)
Lemma convert_lng_lat_to_pixel_spec_witness :
  convert_lng_lat_to_pixel Examples.degrees_19 5 5 = Ok (736, 736)%Z
  /\ (exists x y,
        convert_lng_lat_to_pixel Examples.degrees_19 5 5 = Ok (x, y)
        /\ (0 <= x <= 1000)%Z /\ (0 <= y <= 1000)%Z)
  /\ convert_lng_lat_to_pixel Examples.degrees_19 19 19 = Ok (0, 0)%Z.
Proof.
  destruct (convert_lng_lat_to_pixel_spec Examples.degrees_19 5 5)
    as (_ & _ & Hin & Hall & Hcorner).
  split; [ | split].
  - etransitivity; [exact (Hin eq_refl eq_refl eq_refl eq_refl) | ].
    vm_compute. reflexivity.
  - destruct (Hall eq_refl eq_refl
                ltac:(vm_compute; split; reflexivity)
                ltac:(vm_compute; split; reflexivity)
                eq_refl eq_refl eq_refl eq_refl eq_refl eq_refl)
      as (x & y & E & _ & _ & Rx & Ry).
    exists x, y. split; [exact E | ]. split; [exact Rx | exact Ry].
  - apply Hcorner; reflexivity.
Defined.

(** C10, at a sample input: on 1000 pixels over the degrees 0 to 19 the
    in-bounds call at the left edge returns x = 999, not the width 1000;
    likewise y at the bottom edge. *)
Lemma far_edge_falls_short :
  convert_lng_lat_to_pixel Examples.degrees_19 0 5 = Ok (999, 736)%Z
  /\ convert_lng_lat_to_pixel Examples.degrees_19 5 0 = Ok (736, 999)%Z
  /\ Uint63.to_Z (width Examples.degrees_19) = 1000%Z
  /\ Uint63.to_Z (height Examples.degrees_19) = 1000%Z.
Proof. vm_compute. repeat split; reflexivity. Qed.

(** C10, as amended.  On a geometry with right > left and top > bottom,
    a finite span and resolution and fewer than 2^50 pixels across, the
    in-bounds call at the left edge raises nothing at the bounds check and
    gives x = width or x = width - 1: x is int((right - left) * xres)
    computed in binary64, which is the width, one past the largest pixel
    index, when the product is the pixel count exactly.  Likewise y = height
    or y = height - 1 at the bottom edge. *)
Theorem far_edges_past_the_grid (g : DatasetReader) (lng lat : float) :
  let b := bounds g in
  let xres := of_uint63 (width g) / (right b - left b) in
  let yres := of_uint63 (height g) / (top b - bottom b) in
  let W := Uint63.to_Z (width g) in
  let H := Uint63.to_Z (height g) in
  (left b <? right b) = true -> (bottom b <? top b) = true ->
  ((0 < W < 2 ^ 50)%Z ->
   is_finite (right b - left b) = true -> is_finite xres = true ->
   outside (bottom b) (top b) lat = false ->
   convert_lng_lat_to_pixel g (left b) lat
   = (y <- py_int ((top b - lat) * yres) ;; Ok (W, y))
   \/ convert_lng_lat_to_pixel g (left b) lat
      = (y <- py_int ((top b - lat) * yres) ;; Ok ((W - 1)%Z, y)))
  /\ ((0 < H < 2 ^ 50)%Z ->
      is_finite (top b - bottom b) = true -> is_finite yres = true ->
      outside (left b) (right b) lng = false ->
      convert_lng_lat_to_pixel g lng (bottom b)
      = (x <- py_int ((right b - lng) * xres) ;; Ok (x, H))
      \/ convert_lng_lat_to_pixel g lng (bottom b)
         = (x <- py_int ((right b - lng) * xres) ;; Ok (x, (H - 1)%Z)))
  /\ ((right b - left b) * xres = of_uint63 (width g) -> (W < 2 ^ 53)%Z ->
      py_int ((right b - left b) * xres) = Ok W)
  /\ ((top b - bottom b) * yres = of_uint63 (height g) -> (H < 2 ^ 53)%Z ->
      py_int ((top b - bottom b) * yres) = Ok H).
Proof.
  cbv zeta. intros Hlr Hbt. repeat split.
  - intros HW Fd Fx Hy.
    rewrite past_bounds_check; try assumption.
    + destruct (Binary64Reals.span_times_resolution (width g) _ HW
                  (sub_positive _ _ Hlr) Fd Fx) as [-> | ->]; [left | right];
        reflexivity.
    + unfold outside. now rewrite ltb_irrefl, (ltb_asym _ _ Hlr).
  - intros HH Fd Fy Hx.
    rewrite past_bounds_check; try assumption.
    + destruct (Binary64Reals.span_times_resolution (height g) _ HH
                  (sub_positive _ _ Hbt) Fd Fy) as [-> | ->]; [left | right];
        reflexivity.
    + unfold outside. now rewrite ltb_irrefl, (ltb_asym _ _ Hbt).
  - intros -> Hw. now apply py_int_of_uint63.
  - intros -> Hh. now apply py_int_of_uint63.
Qed.

(** Two geometries: on one the left edge lands on the width, on the other
    one short of it. *)
Lemma far_edges_past_the_grid_witness :
  (convert_lng_lat_to_pixel Examples.one_degree 0 0.5 = Ok (1000, 500)%Z
   \/ convert_lng_lat_to_pixel Examples.one_degree 0 0.5 = Ok (999, 500)%Z)
  /\ (convert_lng_lat_to_pixel Examples.degrees_19 5 0 = Ok (736, 1000)%Z
      \/ convert_lng_lat_to_pixel Examples.degrees_19 5 0 = Ok (736, 999)%Z).
Proof.
  split.
  - destruct (far_edges_past_the_grid Examples.one_degree 0.25 0.5 eq_refl eq_refl)
      as (Hleft & _ & _ & _).
    destruct (Hleft ltac:(vm_compute; split; reflexivity) eq_refl eq_refl eq_refl)
      as [E | E]; [left | right];
      (etransitivity; [exact E | vm_compute; reflexivity]).
  - destruct (far_edges_past_the_grid Examples.degrees_19 5 5 eq_refl eq_refl)
      as (_ & Hbottom & _ & _).
    destruct (Hbottom ltac:(vm_compute; split; reflexivity) eq_refl eq_refl eq_refl)
      as [E | E]; [left | right];
      (etransitivity; [exact E | vm_compute; reflexivity]).
Defined.

End CoordinatePixelMapper.

(* ================================================================== *)
(** * DistanceCalculator: [distance_in_m] *)
(* ================================================================== *)

Module DistanceCalculator.
Import Py imagery_helper GeoUtils Binary64Facts.
Local Open Scope float_scope.

Lemma math_1_raises (f : float -> float) (x : float) (e : exn) :
  math.math_1 f x = Raise e -> e = ValueError.
Proof.
  unfold math.math_1.
  destruct (is_nan (f x) && negb (is_nan x)); [congruence | ].
  destruct (is_infinity (f x) && is_finite x); congruence.
Qed.

(** An odd function stays odd under CPython's wrapper. *)
Lemma math_1_opp (f : float -> float) (x : float) :
  (forall y, f (- y) = - f y) ->
  math.math_1 f (- x)
  = match math.math_1 f x with
    | Ok r => Ok (- r)
    | Raise e => Raise e
    end.
Proof.
  intros Hodd. unfold math.math_1.
  rewrite Hodd, !is_nan_opp, is_infinity_opp, is_finite_opp.
  destruct (is_nan (f x) && negb (is_nan x)); [reflexivity | ].
  destruct (is_infinity (f x) && is_finite x); reflexivity.
Qed.

Section Symmetry.
Context `{Libm}.
Hypothesis sin_odd : forall x, libm_sin (- x) = - libm_sin x.

Lemma sin_half_opp (u : float) :
  math.sin (- u / 2)
  = match math.sin (u / 2) with
    | Ok r => Ok (- r)
    | Raise e => Raise e
    end.
Proof. rewrite div_opp_l. now apply math_1_opp. Qed.

(** The haversine term does not see the order of the two points: the two
    differences change sign (or are both zero) and the two cosines swap. *)
Lemma haversine_symmetric (u u' v v' A B : float) (k : float -> result float) :
  u' = - u \/ u' = u -> v' = - v \/ v' = v ->
  (s1 <- math.sin (u / 2) ;;
   s2 <- math.sin (u / 2) ;;
   c1 <- math.cos A ;;
   c2 <- math.cos B ;;
   s3 <- math.sin (v / 2) ;;
   s4 <- math.sin (v / 2) ;;
   k (s1 * s2 + c1 * c2 * s3 * s4))
  = (s1 <- math.sin (u' / 2) ;;
     s2 <- math.sin (u' / 2) ;;
     c1 <- math.cos B ;;
     c2 <- math.cos A ;;
     s3 <- math.sin (v' / 2) ;;
     s4 <- math.sin (v' / 2) ;;
     k (s1 * s2 + c1 * c2 * s3 * s4)).
Proof.
  intros Hu Hv.
  assert (Eu : math.sin (u' / 2) = math.sin (u / 2)
               \/ math.sin (u' / 2)
                  = match math.sin (u / 2) with
                    | Ok r => Ok (- r)
                    | Raise e => Raise e
                    end).
  { destruct Hu as [-> | ->]; [right; apply sin_half_opp | now left]. }
  assert (Ev : math.sin (v' / 2) = math.sin (v / 2)
               \/ math.sin (v' / 2)
                  = match math.sin (v / 2) with
                    | Ok r => Ok (- r)
                    | Raise e => Raise e
                    end).
  { destruct Hv as [-> | ->]; [right; apply sin_half_opp | now left]. }
  destruct Eu as [-> | ->], Ev as [-> | ->];
    destruct (math.sin (u / 2)) as [r | e1]; cbn [bind]; try reflexivity;
    destruct (math.cos A) as [a | ea] eqn:EA, (math.cos B) as [cb | eb] eqn:EB;
    cbn [bind]; try reflexivity;
    try (apply math_1_raises in EA); try (apply math_1_raises in EB);
    subst; try reflexivity;
    destruct (math.sin (v / 2)) as [t | e2]; cbn [bind]; try reflexivity;
    repeat (rewrite mul_opp_r || rewrite mul_opp_l || rewrite opp_involutive);
    rewrite (mul_comm cb a); reflexivity.
Qed.

End Symmetry.

(** C9.  The distance from [a] to [b] is the distance from [b] to [a]: the
    same float, or the same exception.  The sine of the C library is taken
    to be odd, as that of every libm is. *)
Theorem distanceMeters_symmetric `{Libm}
  (sin_odd : forall x, libm_sin (- x) = - libm_sin x) (a b : GeoPoint) :
  distanceMeters a b = distanceMeters b a.
Proof.
  unfold distanceMeters, distance_in_m.
  apply (haversine_symmetric sin_odd
           (latitude b * pi / 180 - latitude a * pi / 180)
           (latitude a * pi / 180 - latitude b * pi / 180)
           (longitude b * pi / 180 - longitude a * pi / 180)
           (longitude a * pi / 180 - longitude b * pi / 180)
           (latitude a * pi / 180) (latitude b * pi / 180)
           (fun h => p <- math.sqrt h ;;
                     q <- math.sqrt (1 - h) ;;
                     t <- math.atan2 p q ;;
                     Ok (R_earth * (2 * t)))).
  - destruct (sub_swap (latitude b * pi / 180) (latitude a * pi / 180))
      as [E | [E1 E2]]; [now left | right; congruence].
  - destruct (sub_swap (longitude b * pi / 180) (longitude a * pi / 180))
      as [E | [E1 E2]]; [now left | right; congruence].
Qed.

Lemma small_sin_odd (x : float) :
  Standins.small_sin (- x) = - Standins.small_sin x.
Proof. unfold Standins.small_sin. now rewrite mul_opp_opp, mul_opp_l. Qed.

(** Two points a kilometre apart, under the small-angle libm. *)
Lemma distanceMeters_symmetric_witness :
  @distanceMeters Standins.small_angle_libm Examples.origin Examples.nearby
  = @distanceMeters Standins.small_angle_libm Examples.nearby Examples.origin.
Proof.
  exact (@distanceMeters_symmetric Standins.small_angle_libm small_sin_odd
           Examples.origin Examples.nearby).
Defined.

End DistanceCalculator.

(* ================================================================== *)
(** * PixelFootprintEstimator: [pixel_in_m] *)
(* ================================================================== *)

Module PixelFootprintEstimator.
Import Py imagery_helper GeoUtils Binary64Facts PyFacts.
Local Open Scope string_scope.
Local Open Scope float_scope.

(** C6.  A dataset whose CRS code (the text after the last colon of its
    CRS) is not "4326" has no pixel size: [pixel_in_m] returns [None]. *)
Theorem pixel_in_m_other_crs `{Libm} (satdata : DatasetReader) :
  crs_code satdata <> "4326" -> pixel_in_m satdata = Ok None.
Proof.
  intros Hcrs. unfold pixel_in_m.
  apply String.eqb_neq in Hcrs. now rewrite Hcrs.
Qed.

Lemma pixel_in_m_other_crs_witness :
  crs_code Examples.utm_tile = "32618"
  /\ @pixel_in_m Standins.small_angle_libm Examples.utm_tile = Ok None.
Proof.
  split; [reflexivity | ].
  apply (@pixel_in_m_other_crs Standins.small_angle_libm Examples.utm_tile).
  apply String.eqb_neq. reflexivity.
Defined.

Lemma truediv_count (x : float) (n : int) :
  (0 < Uint63.to_Z n)%Z -> truediv x (of_uint63 n) = Ok (x / of_uint63 n).
Proof. intros Hn. apply truediv_positive. now apply of_uint63_positive. Qed.




End PixelFootprintEstimator.

(* ================================================================== *)
(** * RangeRescaler: [to_uint8] *)
(* ================================================================== *)

Module RangeRescaler.
Import Py imagery_helper GeoUtils SpecFloatFacts Binary64Facts.
Local Open Scope float_scope.

(** ** [np.max] *)

Lemma fold_max_ge (t : list Z) : forall s, (s <= fold_left Z.max t s)%Z.
Proof.
  induction t as [ | x t IH]; intros s; cbn [fold_left]; [lia | ].
  specialize (IH (Z.max s x)). lia.
Qed.

Lemma fold_max_bound (t : list Z) : forall s x,
  In x t -> (x <= fold_left Z.max t s)%Z.
Proof.
  induction t as [ | y t IH]; intros s x Hin; cbn [fold_left]; [contradiction | ].
  destruct Hin as [-> | Hin].
  - pose proof (fold_max_ge t (Z.max s x)). lia.
  - now apply IH.
Qed.

Lemma fold_max_in (t : list Z) : forall s, In (fold_left Z.max t s) (s :: t).
Proof.
  induction t as [ | y t IH]; intros s; cbn [fold_left]; [now left | ].
  destruct (IH (Z.max s y)) as [E | Hin].
  - rewrite <- E.
    destruct (Z.max_spec s y) as [[_ ->] | [_ ->]]; [right; now left | now left].
  - right. right. exact Hin.
Qed.

Lemma max_bound (band : list Z) (m : Z) :
  np.max band = Ok m -> forall s, In s band -> (s <= m)%Z.
Proof.
  destruct band as [ | s0 t]; cbn [np.max]; intros E s Hin; inversion E; subst.
  destruct Hin as [-> | Hin]; [apply fold_max_ge | now apply fold_max_bound].
Qed.

Lemma max_in (band : list Z) (m : Z) : np.max band = Ok m -> In m band.
Proof.
  destruct band as [ | s0 t]; cbn [np.max]; intros E; inversion E; subst.
  apply fold_max_in.
Qed.

(** ** The rescaling *)

Lemma Z2float_10000 : Z2float 10000 = 10000.
Proof. reflexivity. Qed.

(** What [scale] computes on a band it rescales. *)
Lemma scale_rescales (band : list Z) (m : Z) :
  np.max band = Ok m -> (255 < m)%Z ->
  scale band
  = Ok (np.FloatArr (map (fun s => clamp_255 (scaled s 10000)) band)).
Proof.
  intros Em Hm. unfold scale. rewrite Em. cbn [bind].
  apply Z.ltb_lt in Hm. rewrite Hm.
  unfold np.divide. rewrite !map_map. reflexivity.
Qed.

Lemma scale_passes (band : list Z) (m : Z) :
  np.max band = Ok m -> (m <= 255)%Z -> scale band = Ok (np.IntArr band).
Proof.
  intros Em Hm. unfold scale. rewrite Em. cbn [bind].
  apply Z.ltb_ge in Hm. now rewrite Hm.
Qed.

(** Whatever the [max] it is given, [to_uint8] rescales against 10000. *)
Lemma to_uint8_rescales (band : list Z) (m min max : Z) :
  np.max band = Ok m -> (255 < m)%Z ->
  to_uint8 [band] min max
  = Ok [map (fun s => rescaled_sample s 10000) band].
Proof.
  intros Em Hm. unfold to_uint8. cbn [mapM].
  rewrite (scale_rescales band m Em Hm). cbn [bind np.astype_uint8].
  now rewrite map_map.
Qed.

(** X1.  With the default [max] of 10000, a band whose maximum exceeds 255 comes
    out as the specification says: each sample is
    round((sample / 10000) * 255), capped at 255, stored as an 8-bit
    sample. *)
Lemma to_uint8_default_max (band : list Z) (m min : Z) :
  np.max band = Ok m -> (255 < m)%Z ->
  to_uint8 [band] min 10000
  = (out <- rescaleBand band min 10000 ;; Ok [out]).
Proof.
  intros Em Hm. rewrite (to_uint8_rescales band m min 10000 Em Hm).
  unfold rescaleBand. rewrite Em. cbn [bind].
  apply Z.ltb_lt in Hm. now rewrite Hm.
Qed.

(** A band whose maximum is 100000 comes out with a sample equal to 255. *)
Lemma to_uint8_saturates (band : list Z) (min max : Z) :
  np.max band = Ok 100000%Z ->
  exists out, to_uint8 [band] min max = Ok [out] /\ In 255%Z out.
Proof.
  intros Em. eexists. split.
  - apply (to_uint8_rescales band 100000); [assumption | lia].
  - apply max_in in Em.
    apply (in_map (fun s => rescaled_sample s 10000)) in Em. exact Em.
Qed.

Lemma to_uint8_default_max_witness :
  to_uint8 [[300; 20000; 0]%Z] 0 10000 = Ok [[8; 255; 0]%Z].
Proof.
  etransitivity;
    [exact (to_uint8_default_max [300; 20000; 0]%Z 20000 0 eq_refl eq_refl) | ].
  vm_compute. reflexivity.
Defined.

Lemma to_uint8_saturates_witness :
  exists out, to_uint8 [[100000; 5]%Z] 0 10000 = Ok [out] /\ In 255%Z out.
Proof. exact (to_uint8_saturates [100000; 5]%Z 0 10000 eq_refl). Defined.

(** C1, at a sample input: with [max=20000] a sample of 300 is still
    divided by 10000 and comes out as 8, where the specification's
    round((300 / 20000) * 255) is 4. *)
Theorem to_uint8_ignores_max :
  to_uint8 [[300%Z]] 0 20000 = Ok [[8%Z]]
  /\ rescaleBand [300%Z] 0 20000 = Ok [4%Z].
Proof. vm_compute. split; reflexivity. Qed.

(** C3, at a sample input: a band holding -1 has a maximum below 255 and
    comes out as 255. *)
Lemma to_uint8_wraps_negative :
  np.max [(-1)%Z] = Ok (-1)%Z
  /\ to_uint8 [[(-1)%Z]] 0 10000 = Ok [[255%Z]].
Proof. vm_compute. split; reflexivity. Qed.

(** C3, as amended.  A band of integer samples whose maximum is at most
    255 is neither rescaled nor clamped: [scale] returns it as it is, and
    each sample is then only stored as an 8-bit one, that is reduced
    modulo 256.  A band of integer samples none of which is negative comes
    out unchanged. *)
Theorem to_uint8_low_band (band : list Z) (m min max : Z) :
  np.max band = Ok m -> (m <= 255)%Z ->
  scale band = Ok (np.IntArr band)
  /\ to_uint8 [band] min max = Ok [map (fun s => (s mod 256)%Z) band]
  /\ ((forall s, In s band -> (0 <= s)%Z) -> to_uint8 [band] min max = Ok [band]).
Proof.
  intros Em Hm.
  assert (E : to_uint8 [band] min max = Ok [map (fun s => (s mod 256)%Z) band]).
  { unfold to_uint8. cbn [mapM]. now rewrite (scale_passes band m Em Hm). }
  split; [now apply (scale_passes band m) | ].
  split; [exact E | ].
  intros Hpos. rewrite E. do 2 f_equal.
  rewrite <- (map_id band) at 2. apply map_ext_in.
  intros s Hin. apply Z.mod_small.
  pose proof (max_bound band m Em s Hin). specialize (Hpos s Hin). lia.
Qed.

(** An all-zero band comes out all-zero. *)
Lemma to_uint8_low_band_witness :
  to_uint8 [[0; 0; 0; 0]%Z] 0 10000 = Ok [[0; 0; 0; 0]%Z]
  /\ to_uint8 [[12; 255; 0]%Z] 0 10000 = Ok [[12; 255; 0]%Z].
Proof.
  split.
  - apply (to_uint8_low_band [0; 0; 0; 0]%Z 0 0 10000 eq_refl); [lia | ].
    cbn. intros s Hs. lia.
  - apply (to_uint8_low_band [12; 255; 0]%Z 255 0 10000 eq_refl); [lia | ].
    cbn. intros s Hs. lia.
Defined.

(** ** No clamp at zero *)

Lemma negative_below_255 (v : float) : (v <? 0) = true -> (255 <? v) = false.
Proof.
  rewrite !ltb_spec.
  change (Prim2SF 0) with (S754_zero false).
  change (Prim2SF 255) with (S754_finite false 8972014882652160 (-45)).
  destruct (Prim2SF v) as [[ | ] | [ | ] | | [ | ] m e]; cbn; congruence.
Qed.

Lemma negative_not_zero (v : float) : (v <? 0) = true -> (v =? 0) = false.
Proof.
  rewrite ltb_spec, eqb_spec.
  change (Prim2SF 0) with (S754_zero false).
  destruct (Prim2SF v) as [[ | ] | [ | ] | | [ | ] m e]; cbn; congruence.
Qed.

(** C5.  [scale] enforces the upper bound 255 only: what it returns is the
    band itself, or the scaled samples with those above 255 replaced by 255;
    a scaled sample below zero is left as it is, and is not zero. *)
Theorem scale_never_clamps_at_zero (band : list Z) (arr : np.ndarray) :
  scale band = Ok arr ->
  match arr with
  | np.IntArr out => out = band
  | np.FloatArr out =>
      out = map (fun s => if 255 <? scaled s 10000 then 255 else scaled s 10000) band
      /\ forall i s, nth_error band i = Some s ->
           (scaled s 10000 <? 0) = true ->
           nth_error out i = Some (scaled s 10000)
           /\ (scaled s 10000 =? 0) = false
  end.
Proof.
  intros E.
  destruct (np.max band) as [m | e] eqn:Em.
  - destruct (Z.ltb_spec 255 m) as [Hm | Hm].
    + rewrite (scale_rescales band m Em Hm) in E. inversion E; subst arr. clear E.
      split; [reflexivity | ].
      intros i s Hi Hneg. split; [ | now apply negative_not_zero].
      rewrite nth_error_map, Hi. cbn [option_map]. unfold clamp_255.
      now rewrite (negative_below_255 _ Hneg).
    + rewrite (scale_passes band m Em Hm) in E. inversion E. reflexivity.
  - unfold scale in E. rewrite Em in E. discriminate.
Qed.

(** A band with a negative sample: -400 is scaled to -10 and stays -10. *)
Lemma scale_never_clamps_at_zero_witness :
  scale [(-400)%Z; 300%Z] = Ok (np.FloatArr [-10; 8])
  /\ nth_error [-10; 8] 0 = Some (scaled (-400) 10000)
  /\ (scaled (-400) 10000 =? 0) = false.
Proof.
  pose proof (scale_never_clamps_at_zero [(-400)%Z; 300%Z]
                (np.FloatArr [-10; 8]) eq_refl) as [_ H].
  split; [reflexivity | ].
  exact (H 0%nat (-400)%Z eq_refl eq_refl).
Defined.

End RangeRescaler.

(* ================================================================== *)
(** * GeometryTextConverter: [bbox_to_corners] and [bbox_to_GeoJSON] *)
(* ================================================================== *)

Module GeometryTextConverter.
Import Py imagery_helper GeoUtils.
Local Open Scope string_scope.

Section Parser.
Context `{FloatParser}.

(** ** One pair *)

Lemma clean_pt_tokens (point a b : string) (x y : float) :
  tokens point = [a; b] ->
  float_of_str (strip a) = Ok x -> float_of_str (strip b) = Ok y ->
  clean_pt point = Ok [x; y].
Proof.
  unfold clean_pt, tokens. intros -> Ha Hb. now rewrite Hb, Ha.
Qed.

Lemma clean_pt_malformed (point : string) :
  List.length (tokens point) <> 2%nat ->
  clean_pt point = Raise (Exception "Input point is invalid").
Proof.
  unfold clean_pt, tokens.
  destruct (split " " (strip point)) as [ | a [ | b [ | c l]]]; cbn [List.length];
    intros Hn; try reflexivity.
  now contradiction Hn.
Qed.

Lemma two_tokens (point : string) :
  List.length (tokens point) = 2%nat -> exists a b, tokens point = [a; b].
Proof.
  destruct (tokens point) as [ | a [ | b [ | c l]]]; cbn [List.length];
    intros Hn; try discriminate.
  now exists a, b.
Qed.

(** ** The whole text *)

Lemma bbox_to_corners_pair_count (text : string) :
  List.length (pairs text) <> 2%nat ->
  bbox_to_corners text = Raise (Exception "Input bounding box is invalid").
Proof.
  unfold bbox_to_corners, pairs. intros Hn.
  apply Nat.eqb_neq in Hn. now rewrite Hn.
Qed.

Lemma bbox_to_corners_two_pairs (text p1 p2 : string) :
  pairs text = [p1; p2] ->
  bbox_to_corners text
  = (c1 <- clean_pt p1 ;;
     c2 <- clean_pt p2 ;;
     let clean_pts := [c1; c2] in
     p0 <- getitem clean_pts 0 ;;
     p1 <- getitem clean_pts 1 ;;
     MIN_X <- getitem p0 0 ;;
     MIN_Y <- getitem p0 1 ;;
     MAX_X <- getitem p1 0 ;;
     MAX_Y <- getitem p1 1 ;;
     Ok [MIN_X; MIN_Y; MAX_X; MAX_Y]).
Proof.
  unfold bbox_to_corners, pairs. intros ->. cbn [List.length Nat.eqb negb mapM].
  destruct (clean_pt p1) as [c1 | e]; cbn [bind]; [ | reflexivity].
  destruct (clean_pt p2) as [c2 | e]; cbn [bind]; reflexivity.
Qed.

Lemma bbox_to_corners_numbers (text p1 p2 a1 b1 a2 b2 : string)
  (x1 y1 x2 y2 : float) :
  pairs text = [p1; p2] ->
  tokens p1 = [a1; b1] -> tokens p2 = [a2; b2] ->
  float_of_str (strip a1) = Ok x1 -> float_of_str (strip b1) = Ok y1 ->
  float_of_str (strip a2) = Ok x2 -> float_of_str (strip b2) = Ok y2 ->
  bbox_to_corners text = Ok [x1; y1; x2; y2].
Proof.
  intros Hp T1 T2 X1 Y1 X2 Y2.
  rewrite (bbox_to_corners_two_pairs text p1 p2 Hp).
  rewrite (clean_pt_tokens p1 a1 b1 x1 y1 T1 X1 Y1).
  rewrite (clean_pt_tokens p2 a2 b2 x2 y2 T2 X2 Y2).
  reflexivity.
Qed.

End Parser.

(** C4, at a sample input: "BOX(a b,c d)" holds two pairs of two tokens
    each, and [bbox_to_corners] returns no list: [float] raises
    [ValueError]. *)
Lemma bbox_to_corners_not_a_number :
  List.length (pairs "BOX(a b,c d)") = 2%nat
  /\ map (fun pair => List.length (tokens pair)) (pairs "BOX(a b,c d)")
     = [2%nat; 2%nat]
  /\ @bbox_to_corners Standins.decimal_parser "BOX(a b,c d)" = Raise ValueError.
Proof. vm_compute. repeat split; reflexivity. Qed.

(** C4, as amended.  On a text in which every token of a two-token pair is
    a number, [bbox_to_corners] raises one of its own exceptions exactly
    when the parenthesized group does not hold 2 comma-separated pairs or
    some pair does not split into exactly 2 space-separated tokens, and
    otherwise returns the four numbers in the order they are written, first
    pair then second pair.  "BOX(10.0 20.0,30.0 40.0)" gives
    [10.0, 20.0, 30.0, 40.0]; "BOX(1 2)" is refused. *)
Theorem bbox_to_corners_spec `{FloatParser} :
  (forall text : string,
      (forall pair a b, In pair (pairs text) -> tokens pair = [a; b] ->
                        numeric a /\ numeric b) ->
      ((exists e, bbox_to_corners text = Raise e /\ MalformedGeometryError e)
       <-> (List.length (pairs text) <> 2%nat
            \/ exists pair, In pair (pairs text)
                            /\ List.length (tokens pair) <> 2%nat))
      /\ (List.length (pairs text) = 2%nat ->
          (forall pair, In pair (pairs text) -> List.length (tokens pair) = 2%nat) ->
          exists a1 b1 a2 b2 x1 y1 x2 y2,
            map tokens (pairs text) = [[a1; b1]; [a2; b2]]
            /\ float_of_str (strip a1) = Ok x1 /\ float_of_str (strip b1) = Ok y1
            /\ float_of_str (strip a2) = Ok x2 /\ float_of_str (strip b2) = Ok y2
            /\ bbox_to_corners text = Ok [x1; y1; x2; y2]))
  /\ (float_of_str "10.0" = Ok 10%float -> float_of_str "20.0" = Ok 20%float ->
      float_of_str "30.0" = Ok 30%float -> float_of_str "40.0" = Ok 40%float ->
      bbox_to_corners "BOX(10.0 20.0,30.0 40.0)"
      = Ok [10; 20; 30; 40]%float)
  /\ (exists e, bbox_to_corners "BOX(1 2)" = Raise e /\ MalformedGeometryError e).
Proof.
  split; [ | split].
  - intros text Hnum.
    assert (Hret : List.length (pairs text) = 2%nat ->
              (forall pair, In pair (pairs text) -> List.length (tokens pair) = 2%nat) ->
              exists a1 b1 a2 b2 x1 y1 x2 y2,
                map tokens (pairs text) = [[a1; b1]; [a2; b2]]
                /\ float_of_str (strip a1) = Ok x1 /\ float_of_str (strip b1) = Ok y1
                /\ float_of_str (strip a2) = Ok x2 /\ float_of_str (strip b2) = Ok y2
                /\ bbox_to_corners text = Ok [x1; y1; x2; y2]).
    { intros Hlen Htok.
      destruct (pairs text) as [ | p1 [ | p2 [ | p3 l]]] eqn:Hp; try discriminate.
      destruct (two_tokens p1 (Htok p1 (or_introl eq_refl))) as (a1 & b1 & T1).
      destruct (two_tokens p2 (Htok p2 (or_intror (or_introl eq_refl))))
        as (a2 & b2 & T2).
      destruct (Hnum p1 a1 b1 (or_introl eq_refl) T1) as [[x1 X1] [y1 Y1]].
      destruct (Hnum p2 a2 b2 (or_intror (or_introl eq_refl)) T2)
        as [[x2 X2] [y2 Y2]].
      exists a1, b1, a2, b2, x1, y1, x2, y2.
      cbn [map]. rewrite T1, T2. repeat split; try assumption.
      now apply (bbox_to_corners_numbers text p1 p2 a1 b1 a2 b2). }
    split; [ | exact Hret]. split.
    + intros (e & He & Hm).
      destruct (Nat.eq_dec (List.length (pairs text)) 2) as [Hlen | Hlen];
        [ | now left].
      right.
      destruct (pairs text) as [ | p1 [ | p2 [ | p3 l]]] eqn:Hp; try discriminate.
      destruct (Nat.eq_dec (List.length (tokens p1)) 2) as [L1 | L1];
        [ | exists p1; split; [now left | assumption]].
      destruct (Nat.eq_dec (List.length (tokens p2)) 2) as [L2 | L2];
        [ | exists p2; split; [right; now left | assumption]].
      exfalso.
      destruct Hret as (a1 & b1 & a2 & b2 & x1 & y1 & x2 & y2 & _ & _ & _ & _ & _ & Hok).
      * reflexivity.
      * intros pair [<- | [<- | []]]; assumption.
      * rewrite Hok in He. discriminate.
    + intros [Hlen | (pair & Hin & Hbad)].
      * eexists. split; [now apply bbox_to_corners_pair_count | now left].
      * destruct (Nat.eq_dec (List.length (pairs text)) 2) as [Hlen | Hlen];
          [ | eexists; split; [now apply bbox_to_corners_pair_count | now left]].
        destruct (pairs text) as [ | p1 [ | p2 [ | p3 l]]] eqn:Hp; try discriminate.
        exists (Exception "Input point is invalid"). split; [ | now right].
        rewrite (bbox_to_corners_two_pairs text p1 p2 Hp).
        destruct (Nat.eq_dec (List.length (tokens p1)) 2) as [L1 | L1].
        -- destruct (two_tokens p1 L1) as (a1 & b1 & T1).
           destruct (Hnum p1 a1 b1 (or_introl eq_refl) T1) as [[x1 X1] [y1 Y1]].
           rewrite (clean_pt_tokens p1 a1 b1 x1 y1 T1 X1 Y1). cbn [bind].
           destruct Hin as [<- | [<- | []]]; [contradiction | ].
           now rewrite (clean_pt_malformed _ Hbad).
        -- now rewrite (clean_pt_malformed _ L1).
  - intros X1 Y1 X2 Y2.
    now apply (bbox_to_corners_numbers _ "10.0 20.0" "30.0 40.0"
                 "10.0" "20.0" "30.0" "40.0").
  - eexists. split; [now apply bbox_to_corners_pair_count | now left].
Qed.

(** The text of the specification's example, under the decimal parser. *)
Lemma bbox_to_corners_spec_witness :
  @bbox_to_corners Standins.decimal_parser "BOX(10.0 20.0,30.0 40.0)"
  = Ok [10; 20; 30; 40]%float.
Proof.
  destruct (@bbox_to_corners_spec Standins.decimal_parser) as (_ & Hexample & _).
  apply Hexample; reflexivity.
Defined.

(** [point_to_lng_lat] on the specification's example: "POINT(5.5 6.6)"
    gives the longitude 5.5 and the latitude 6.6, in this order. *)
Lemma point_to_lng_lat_example `{FloatParser} :
  float_of_str "5.5" = Ok 5.5%float -> float_of_str "6.6" = Ok 6.6%float ->
  point_to_lng_lat "POINT(5.5 6.6)" = Ok [5.5; 6.6]%float.
Proof.
  intros X Y. unfold point_to_lng_lat.
  now apply (clean_pt_tokens _ "5.5" "6.6").
Qed.

Lemma point_to_lng_lat_example_witness :
  @point_to_lng_lat Standins.decimal_parser "POINT(5.5 6.6)"
  = Ok [5.5; 6.6]%float.
Proof.
  exact (@point_to_lng_lat_example Standins.decimal_parser eq_refl eq_refl).
Defined.

(** C7.  The polygon [bbox_to_GeoJSON] builds from the corners
    [minX, minY, maxX, maxY] is one ring of exactly 5 positions; its first
    and last positions are identical, and its first four are the corners
    (minX, minY), (maxX, minY), (maxX, maxY), (minX, maxY), in this order. *)
Theorem bbox_to_GeoJSON_ring `{FloatParser}
  (bbox_geometry bbox_crs : string) (out_path : option string)
  (corners : list float) :
  bbox_to_corners bbox_geometry = Ok corners ->
  exists minX minY maxX maxY geojson ring,
    corners = [minX; minY; maxX; maxY]
    /\ bbox_to_GeoJSON bbox_geometry bbox_crs out_path
       = Ok (geojson, option_map (fun path => (path, geojson)) out_path)
    /\ polygon_ring geojson = Some ring
    /\ List.length ring = 5%nat
    /\ nth_error ring 0 = nth_error ring 4
    /\ firstn 4 ring = [(minX, minY); (maxX, minY); (maxX, maxY); (minX, maxY)]
    /\ nth_error ring 4 = Some (minX, minY).
Proof.
  intros Hc.
  assert (Hshape : exists a b c d, corners = [a; b; c; d]).
  { unfold bbox_to_corners in Hc.
    destruct (negb _); [discriminate | ].
    destruct (mapM clean_pt _) as [pts | e]; cbn [bind] in Hc; [ | discriminate].
    destruct (negb _); [discriminate | ].
    destruct (getitem pts 0) as [p0 | e]; cbn [bind] in Hc; [ | discriminate].
    destruct (getitem pts 1) as [p1 | e]; cbn [bind] in Hc; [ | discriminate].
    destruct (getitem p0 0) as [a | e]; cbn [bind] in Hc; [ | discriminate].
    destruct (getitem p0 1) as [b | e]; cbn [bind] in Hc; [ | discriminate].
    destruct (getitem p1 0) as [c | e]; cbn [bind] in Hc; [ | discriminate].
    destruct (getitem p1 1) as [d | e]; cbn [bind] in Hc; [ | discriminate].
    inversion Hc. now exists a, b, c, d. }
  destruct Hshape as (a & b & c & d & ->).
  exists a, b, c, d. eexists. eexists.
  split; [reflexivity | ].
  split; [unfold bbox_to_GeoJSON; rewrite Hc; reflexivity | ].
  repeat split; reflexivity.
Qed.

(** The unit box of the specification's example. *)
Lemma bbox_to_GeoJSON_ring_witness :
  exists geojson,
    @bbox_to_GeoJSON Standins.decimal_parser "BOX(0 0,1 1)" "4326" None
    = Ok (geojson, None)
    /\ polygon_ring geojson
       = Some [(0, 0); (1, 0); (1, 1); (0, 1); (0, 0)]%float.
Proof.
  destruct (@bbox_to_GeoJSON_ring Standins.decimal_parser "BOX(0 0,1 1)" "4326"
              None [0; 0; 1; 1]%float eq_refl)
    as (a & b & c & d & geojson & ring & Hc & Hg & Hr & _).
  exists geojson. split; [exact Hg | ].
  inversion Hc; subst a b c d.
  vm_compute in Hg. inversion Hg; subst geojson. reflexivity.
Defined.

End GeometryTextConverter.

(* ================================================================== *)
(** * Texts: splitting and removing *)
(* ================================================================== *)

Module TextFacts.
Import Py Further.
Local Open Scope string_scope.

Lemma last_app_nonempty {A : Type} (l s : list A) (d : A) :
  s <> [] -> List.last (l ++ s) d = List.last s d.
Proof.
  intros Hs. induction l as [ | x l IH]; [reflexivity | ].
  cbn [List.app List.last]. destruct (l ++ s)%list eqn:E; [ | exact IH].
  apply app_eq_nil in E. destruct E as [_ E]. contradiction.
Qed.

Lemma split_nonempty (c : ascii) (s : string) : split c s <> [].
Proof.
  induction s as [ | a s IH]; cbn [split]; [discriminate | ].
  destruct (Ascii.eqb a c); [discriminate | ].
  destruct (split c s); discriminate.
Qed.

(** A text without the separator is one piece. *)
Lemma split_free (c : ascii) (s : string) :
  occurs c s = false -> split c s = [s].
Proof.
  induction s as [ | a s IH]; cbn [split occurs]; [reflexivity | ].
  intros H. apply orb_false_elim in H. destruct H as [Ha Hs].
  rewrite Ha, (IH Hs). reflexivity.
Qed.

(** The pieces of [a ++ c ++ b]: a first piece that holds no separator,
    then the pieces of [b]. *)
Lemma split_app_free (c : ascii) (a b : string) :
  occurs c a = false -> split c (a ++ String c b) = a :: split c b.
Proof.
  induction a as [ | x a IH]; cbn [split occurs append].
  - intros _. now rewrite Ascii.eqb_refl.
  - intros H. apply orb_false_elim in H. destruct H as [Hx Ha].
    rewrite Hx, (IH Ha). reflexivity.
Qed.

(** After a separator, what comes before does not change the last piece. *)
Lemma split_app_last (c : ascii) (a b : string) :
  last_item (split c (a ++ String c b)) = last_item (split c b).
Proof.
  assert (H : exists h t, split c (a ++ String c b) = ((h :: t) ++ split c b)%list).
  { induction a as [ | x a (h & t & IH)]; cbn [split append].
    - rewrite Ascii.eqb_refl. now exists "", [].
    - rewrite IH. destruct (Ascii.eqb x c).
      + now exists "", (h :: t).
      + now exists (String x h), t. }
  destruct H as (h & t & ->). unfold last_item.
  apply last_app_nonempty, split_nonempty.
Qed.

Lemma remove_char_free (c : ascii) (s : string) :
  occurs c s = false -> remove_char c s = s.
Proof.
  induction s as [ | a s IH]; cbn [remove_char occurs]; [reflexivity | ].
  intros H. apply orb_false_elim in H. destruct H as [Ha Hs].
  now rewrite Ha, (IH Hs).
Qed.

Lemma remove_char_app (c : ascii) (a b : string) :
  remove_char c (a ++ b) = remove_char c a ++ remove_char c b.
Proof.
  induction a as [ | x a IH]; cbn [remove_char append]; [reflexivity | ].
  destruct (Ascii.eqb x c); [exact IH | cbn [append]; now rewrite IH].
Qed.

Lemma occurs_app (c : ascii) (a b : string) :
  occurs c (a ++ b) = occurs c a || occurs c b.
Proof.
  induction a as [ | x a IH]; cbn [occurs append]; [reflexivity | ].
  now rewrite IH, orb_assoc.
Qed.

Lemma occurs_app_other (c x : ascii) (a b : string) :
  Ascii.eqb x c = false -> occurs c (a ++ String x b) = occurs c a || occurs c b.
Proof. intros Hx. rewrite occurs_app. cbn [occurs]. now rewrite Hx. Qed.

Lemma append_empty_r (s : string) : s ++ "" = s.
Proof. induction s as [ | a s IH]; cbn [append]; [reflexivity | now rewrite IH]. Qed.

Lemma append_assoc (a b c : string) : (a ++ b) ++ c = a ++ (b ++ c).
Proof. induction a as [ | x a IH]; cbn [append]; [reflexivity | now rewrite IH]. Qed.

End TextFacts.

(* ================================================================== *)
(** * Texts: stripping *)
(* ================================================================== *)

Module StripFacts.
Import Py Further TextFacts.
Local Open Scope string_scope.

Lemma rstrip_cons (x : ascii) (s : string) :
  isspace x = false -> rstrip (String x s) = String x (rstrip s).
Proof. intros Hx. cbn [rstrip]. rewrite Hx. destruct (rstrip s); reflexivity. Qed.

Lemma lstrip_app (x : ascii) (a b : string) :
  isspace x = false -> lstrip (a ++ String x b) = lstrip a ++ String x b.
Proof.
  intros Hx. induction a as [ | y a IH]; cbn [lstrip append].
  - now rewrite Hx.
  - destruct (isspace y); [exact IH | reflexivity].
Qed.

Lemma rstrip_app (x : ascii) (a b : string) :
  isspace x = false -> rstrip (a ++ String x b) = a ++ String x (rstrip b).
Proof.
  intros Hx. induction a as [ | y a IH]; cbn [append].
  - now apply rstrip_cons.
  - cbn [rstrip]. rewrite IH. destruct a; reflexivity.
Qed.

Lemma lstrip_idempotent (s : string) : lstrip (lstrip s) = lstrip s.
Proof.
  induction s as [ | c s IH]; cbn [lstrip]; [reflexivity | ].
  destruct (isspace c) eqn:Hc; [exact IH | ]. cbn [lstrip]. now rewrite Hc.
Qed.

Lemma rstrip_idempotent (s : string) : rstrip (rstrip s) = rstrip s.
Proof.
  induction s as [ | c s IH]; [reflexivity | ].
  destruct (isspace c) eqn:Hc.
  - assert (E : rstrip (String c s)
                = match rstrip s with "" => "" | r => String c r end).
    { cbn [rstrip]. now rewrite Hc. }
    rewrite E. destruct (rstrip s) as [ | d r]; [reflexivity | ].
    change (rstrip (String c (String d r)))
      with (match rstrip (String d r) with
            | "" => if isspace c then "" else String c ""
            | r' => String c r'
            end).
    now rewrite IH.
  - rewrite (rstrip_cons c s Hc), (rstrip_cons c _ Hc), IH. reflexivity.
Qed.

Lemma lstrip_rstrip (s : string) : lstrip (rstrip s) = rstrip (lstrip s).
Proof.
  induction s as [ | c s IH]; [reflexivity | ].
  destruct (isspace c) eqn:Hc.
  - assert (E : rstrip (String c s)
                = match rstrip s with "" => "" | r => String c r end).
    { cbn [rstrip]. now rewrite Hc. }
    rewrite E. cbn [lstrip]. rewrite Hc, <- IH.
    destruct (rstrip s) as [ | d r]; [reflexivity | ].
    cbn [lstrip]. now rewrite Hc.
  - rewrite (rstrip_cons c s Hc). cbn [lstrip]. rewrite Hc.
    now rewrite (rstrip_cons c s Hc).
Qed.

Lemma strip_lstrip (s : string) : strip (lstrip s) = strip s.
Proof. unfold strip. now rewrite lstrip_idempotent. Qed.

Lemma strip_rstrip (s : string) : strip (rstrip s) = strip s.
Proof. unfold strip. now rewrite lstrip_rstrip, rstrip_idempotent. Qed.

(** A text without white space is left as it is. *)
Lemma lstrip_no_space (s : string) : has_space s = false -> lstrip s = s.
Proof.
  destruct s as [ | c s]; cbn [lstrip has_space]; [reflexivity | ].
  intros H. apply orb_false_elim in H. destruct H as [Hc _]. now rewrite Hc.
Qed.

Lemma rstrip_no_space (s : string) : has_space s = false -> rstrip s = s.
Proof.
  induction s as [ | c s IH]; cbn [has_space]; [reflexivity | ].
  intros H. apply orb_false_elim in H. destruct H as [Hc Hs].
  now rewrite (rstrip_cons c s Hc), (IH Hs).
Qed.

Lemma strip_no_space (s : string) : has_space s = false -> strip s = s.
Proof.
  intros H. unfold strip. now rewrite (lstrip_no_space s H), (rstrip_no_space s H).
Qed.

Lemma has_space_occurs (s : string) : has_space s = false -> occurs " " s = false.
Proof.
  induction s as [ | c s IH]; cbn [has_space occurs]; [reflexivity | ].
  intros H. apply orb_false_elim in H. destruct H as [Hc Hs].
  rewrite (IH Hs), orb_false_r.
  destruct (Ascii.eqb_spec c " ") as [-> | ]; [discriminate Hc | reflexivity].
Qed.

(** The pieces of two texts with [k] blanks between them. *)
Lemma split_spaces (k : nat) (b : string) :
  occurs " " b = false ->
  split " " (spaces k ++ b) = (repeat "" k ++ [b])%list.
Proof.
  intros Hb. induction k as [ | k IH]; cbn [spaces append repeat List.app].
  - now apply split_free.
  - cbn [split]. rewrite Ascii.eqb_refl, IH. reflexivity.
Qed.

Lemma split_blank_separated (k : nat) (a b : string) :
  occurs " " a = false -> occurs " " b = false ->
  List.length (split " " (a ++ spaces (S k) ++ b)) = S (S k).
Proof.
  intros Ha Hb. cbn [spaces append].
  rewrite (split_app_free " " a _ Ha), (split_spaces k b Hb).
  cbn [List.length]. rewrite length_app, repeat_length. cbn [List.length]. lia.
Qed.

(** White space at the two ends of a text whose ends are not white. *)
Lemma strip_ends (x y : ascii) (s : string) :
  isspace x = false -> isspace y = false ->
  strip (String x (s ++ String y "")) = String x (s ++ String y "").
Proof.
  intros Hx Hy. unfold strip. cbn [lstrip]. rewrite Hx.
  change (String x (s ++ String y "")) with ((String x s) ++ String y "").
  now rewrite (rstrip_app y (String x s) "" Hy).
Qed.

End StripFacts.

(* ================================================================== *)
(** * The parsers of points and boxes *)
(* ================================================================== *)

Module GeometryTextExtras.
Import Py imagery_helper GeoUtils Further TextFacts StripFacts.
Local Open Scope string_scope.

Section Parser.
Context `{FloatParser}.

(** [clean_pt] reads its text through [strip] only. *)
Lemma clean_pt_strip (p q : string) : strip p = strip q -> clean_pt p = clean_pt q.
Proof. unfold clean_pt. now intros ->. Qed.

Lemma clean_pt_shape (p : string) (r : list float) :
  clean_pt p = Ok r -> exists x y, r = [x; y].
Proof.
  unfold clean_pt.
  destruct (split " " (strip p)) as [ | a [ | b [ | c l]]]; try discriminate.
  destruct (float_of_str (strip b)) as [y | e]; cbn [bind]; [ | discriminate].
  destruct (float_of_str (strip a)) as [x | e]; cbn [bind]; [ | discriminate].
  intros E. inversion E. now exists x, y.
Qed.

(** The text between the last "(" and a closing ")" . *)
Lemma wrapped_body (keyword body : string) :
  occurs "(" body = false -> occurs ")" body = false ->
  remove_char ")" (last_item (split "(" (keyword ++ "(" ++ body ++ ")"))) = body.
Proof.
  intros Ho Hc.
  change (keyword ++ "(" ++ body ++ ")") with (keyword ++ String "(" (body ++ ")")).
  rewrite split_app_last, split_free.
  - cbn [last_item List.last]. rewrite remove_char_app, (remove_char_free _ _ Hc).
    cbn [remove_char]. rewrite Ascii.eqb_refl. apply append_empty_r.
  - rewrite occurs_app, Ho. reflexivity.
Qed.

Lemma occurs_lstrip (c : ascii) (s : string) :
  occurs c s = false -> occurs c (lstrip s) = false.
Proof.
  induction s as [ | a s IH]; cbn [lstrip occurs]; [reflexivity | ].
  intros Hs. destruct (isspace a); [ | exact Hs].
  apply orb_false_elim in Hs. now apply IH.
Qed.

Lemma occurs_rstrip (c : ascii) (s : string) :
  occurs c s = false -> occurs c (rstrip s) = false.
Proof.
  induction s as [ | a s IH]; cbn [occurs]; [reflexivity | ].
  intros Hs. apply orb_false_elim in Hs. destruct Hs as [Ha Hs].
  specialize (IH Hs). cbn [rstrip].
  destruct (rstrip s) as [ | d r].
  - destruct (isspace a); cbn [occurs]; [reflexivity | now rewrite Ha].
  - cbn [occurs] in *. now rewrite Ha.
Qed.

Lemma bbox_to_corners_shape (text : string) (corners : list float) :
  bbox_to_corners text = Ok corners -> exists a b c d, corners = [a; b; c; d].
Proof.
  unfold bbox_to_corners. intros Hc.
  destruct (negb _); [discriminate | ].
  destruct (mapM clean_pt _) as [pts | e]; cbn [bind] in Hc; [ | discriminate].
  destruct (negb _); [discriminate | ].
  destruct (getitem pts 0) as [p0 | e]; cbn [bind] in Hc; [ | discriminate].
  destruct (getitem pts 1) as [p1 | e]; cbn [bind] in Hc; [ | discriminate].
  destruct (getitem p0 0) as [a | e]; cbn [bind] in Hc; [ | discriminate].
  destruct (getitem p0 1) as [b | e]; cbn [bind] in Hc; [ | discriminate].
  destruct (getitem p1 0) as [c | e]; cbn [bind] in Hc; [ | discriminate].
  destruct (getitem p1 1) as [d | e]; cbn [bind] in Hc; [ | discriminate].
  inversion Hc. now exists a, b, c, d.
Qed.

(** [point_to_lng_lat] on a text whose last parenthesized group is [body]. *)
Lemma point_to_lng_lat_wrapped (keyword body : string) :
  occurs "(" body = false -> occurs ")" body = false ->
  point_to_lng_lat (keyword ++ "(" ++ body ++ ")") = clean_pt body.
Proof. intros Ho Hc. unfold point_to_lng_lat. now rewrite wrapped_body. Qed.

End Parser.

(** X6.  [point_to_lng_lat] splits what is between the last "(" and the
    end, the ")" removed and the white space around stripped, at the
    blanks.  Unless there are exactly two tokens it raises "Input point is
    invalid"; otherwise it reads the second token, then the first, as
    numbers, and returns them in the order they are written.  So it returns
    exactly on two tokens that are numbers, and what it returns has two
    entries. *)
Theorem point_to_lng_lat_spec `{FloatParser} (text : string) :
  let body := remove_char ")" (last_item (split "(" text)) in
  (List.length (tokens body) <> 2%nat ->
   point_to_lng_lat text = Raise (Exception "Input point is invalid"))
  /\ (forall a b, tokens body = [a; b] ->
      point_to_lng_lat text
      = (lat <- float_of_str (strip b) ;;
         lng <- float_of_str (strip a) ;;
         Ok [lng; lat]))
  /\ (forall r, point_to_lng_lat text = Ok r <->
      exists a b x y,
        tokens body = [a; b] /\ float_of_str (strip a) = Ok x
        /\ float_of_str (strip b) = Ok y /\ r = [x; y]).
Proof.
  cbv zeta. unfold point_to_lng_lat.
  set (body := remove_char ")" (last_item (split "(" text))).
  assert (Two : forall a b, tokens body = [a; b] ->
            clean_pt body
            = (lat <- float_of_str (strip b) ;;
               lng <- float_of_str (strip a) ;;
               Ok [lng; lat])).
  { intros a b T. unfold clean_pt. unfold tokens in T. now rewrite T. }
  split; [ | split].
  - apply GeometryTextConverter.clean_pt_malformed.
  - exact Two.
  - intros r. split.
    + intros E.
      destruct (Nat.eq_dec (List.length (tokens body)) 2) as [L | L].
      * destruct (GeometryTextConverter.two_tokens body L) as (a & b & T).
        rewrite (Two a b T) in E.
        destruct (float_of_str (strip b)) as [y | e] eqn:Y; cbn [bind] in E;
          [ | discriminate].
        destruct (float_of_str (strip a)) as [x | e] eqn:X; cbn [bind] in E;
          [ | discriminate].
        inversion E. now exists a, b, x, y.
      * rewrite (GeometryTextConverter.clean_pt_malformed body L) in E.
        discriminate.
    + intros (a & b & x & y & T & X & Y & ->).
      now apply (GeometryTextConverter.clean_pt_tokens body a b).
Qed.

Lemma point_to_lng_lat_spec_witness :
  @point_to_lng_lat Standins.decimal_parser "POINT(5.5 6.6)"
  = Ok [5.5; 6.6]%float
  /\ @point_to_lng_lat Standins.decimal_parser "POINT(5.5,6.6)"
     = Raise (Exception "Input point is invalid").
Proof.
  split.
  - destruct (@point_to_lng_lat_spec Standins.decimal_parser "POINT(5.5 6.6)")
      as (_ & _ & Hret).
    apply Hret. exists "5.5", "6.6", 5.5%float, 6.6%float.
    repeat split; reflexivity.
  - destruct (@point_to_lng_lat_spec Standins.decimal_parser "POINT(5.5,6.6)")
      as (Hbad & _).
    apply Hbad. vm_compute. discriminate.
Defined.

(** X7.  Neither parser looks at what stands before the last "(": two texts
    that agree from there on are read alike, whatever the keyword. *)
Theorem keyword_never_checked `{FloatParser} (keyword1 keyword2 rest : string) :
  point_to_lng_lat (keyword1 ++ "(" ++ rest)
  = point_to_lng_lat (keyword2 ++ "(" ++ rest)
  /\ bbox_to_corners (keyword1 ++ "(" ++ rest)
     = bbox_to_corners (keyword2 ++ "(" ++ rest).
Proof.
  unfold point_to_lng_lat, bbox_to_corners, inner_text.
  change (keyword1 ++ "(" ++ rest) with (keyword1 ++ String "(" rest).
  change (keyword2 ++ "(" ++ rest) with (keyword2 ++ String "(" rest).
  rewrite !split_app_last. split; reflexivity.
Qed.

(** X8.  A box is its two points: between the parentheses, without further
    parentheses or commas in the two pairs, [bbox_to_corners] returns the
    entries [point_to_lng_lat] returns for the first pair followed by those
    for the second, and raises what it raises. *)
Theorem bbox_is_two_points `{FloatParser} (p1 p2 : string) :
  occurs "," p1 = false -> occurs "," p2 = false ->
  occurs "(" p1 = false -> occurs "(" p2 = false ->
  occurs ")" p1 = false -> occurs ")" p2 = false ->
  bbox_to_corners ("BOX(" ++ p1 ++ "," ++ p2 ++ ")")
  = (a <- point_to_lng_lat ("POINT(" ++ p1 ++ ")") ;;
     b <- point_to_lng_lat ("POINT(" ++ p2 ++ ")") ;;
     Ok (a ++ b)%list).
Proof.
  intros C1 C2 O1 O2 R1 R2.
  rewrite (point_to_lng_lat_wrapped "POINT" p1 O1 R1).
  rewrite (point_to_lng_lat_wrapped "POINT" p2 O2 R2).
  assert (Hp : pairs ("BOX(" ++ p1 ++ "," ++ p2 ++ ")") = [lstrip p1; rstrip p2]).
  { unfold pairs, inner_text.
    replace (remove_char ")" (last_item (split "(" ("BOX(" ++ p1 ++ "," ++ p2 ++ ")"))))
      with (p1 ++ "," ++ p2).
    - unfold strip.
      change (p1 ++ "," ++ p2) with (p1 ++ String "," p2).
      rewrite (lstrip_app "," p1 p2 eq_refl), (rstrip_app "," (lstrip p1) p2 eq_refl).
      rewrite (split_app_free "," _ _ (occurs_lstrip _ _ C1)).
      now rewrite (split_free "," _ (occurs_rstrip _ _ C2)).
    - symmetry.
      replace ("BOX(" ++ p1 ++ "," ++ p2 ++ ")")
        with ("BOX" ++ "(" ++ (p1 ++ "," ++ p2) ++ ")")
        by (cbn [append]; now rewrite !append_assoc).
      change (p1 ++ "," ++ p2) with (p1 ++ String "," p2).
      apply wrapped_body; rewrite occurs_app_other by reflexivity.
      + now rewrite O1, O2.
      + now rewrite R1, R2. }
  rewrite (GeometryTextConverter.bbox_to_corners_two_pairs _ _ _ Hp).
  rewrite (clean_pt_strip (lstrip p1) p1 (strip_lstrip p1)).
  rewrite (clean_pt_strip (rstrip p2) p2 (strip_rstrip p2)).
  destruct (clean_pt p1) as [c1 | e] eqn:E1; cbn [bind]; [ | reflexivity].
  destruct (clean_pt p2) as [c2 | e] eqn:E2; cbn [bind]; [ | reflexivity].
  destruct (clean_pt_shape p1 c1 E1) as (x1 & y1 & ->).
  destruct (clean_pt_shape p2 c2 E2) as (x2 & y2 & ->).
  reflexivity.
Qed.

Lemma bbox_is_two_points_witness :
  @bbox_to_corners Standins.decimal_parser "BOX(1.5 2, 3 4.25)"
  = Ok [1.5; 2; 3; 4.25]%float.
Proof.
  etransitivity;
    [exact (@bbox_is_two_points Standins.decimal_parser "1.5 2" " 3 4.25"
              eq_refl eq_refl eq_refl eq_refl eq_refl eq_refl) | ].
  vm_compute. reflexivity.
Defined.

(** X9.  Between the two numbers of a point there must be exactly one blank:
    with none, or with two or more, [point_to_lng_lat] raises "Input point
    is invalid", whatever the two texts without white space are. *)
Theorem point_separator `{FloatParser} (a b : string) (k : nat) :
  a <> "" -> b <> "" ->
  has_space a = false -> has_space b = false ->
  occurs "(" a = false -> occurs "(" b = false ->
  occurs ")" a = false -> occurs ")" b = false ->
  k <> 1%nat ->
  point_to_lng_lat ("POINT(" ++ a ++ spaces k ++ b ++ ")")
  = Raise (Exception "Input point is invalid").
Proof.
  intros Na Nb Sa Sb Oa Ob Ra Rb Hk.
  assert (Os : forall c, Ascii.eqb " " c = false -> occurs c (spaces k) = false).
  { intros c Hc. clear Hk. induction k as [ | j IH]; cbn [spaces occurs];
      [reflexivity | now rewrite Hc]. }
  set (body := a ++ spaces k ++ b).
  replace ("POINT(" ++ a ++ spaces k ++ b ++ ")") with ("POINT" ++ "(" ++ body ++ ")")
    by (subst body; cbn [append]; now rewrite !append_assoc).
  rewrite point_to_lng_lat_wrapped.
  - apply GeometryTextConverter.clean_pt_malformed. unfold tokens.
    assert (Hs : strip body = body).
    { subst body. unfold strip.
      destruct a as [ | x a']; [now contradiction Na | ].
      destruct b as [ | y b']; [now contradiction Nb | ].
      cbn [has_space] in Sa, Sb.
      apply orb_false_elim in Sa. destruct Sa as [Hx _].
      apply orb_false_elim in Sb. destruct Sb as [Hy Sb'].
      cbn [append lstrip]. rewrite Hx.
      change (String x (a' ++ spaces k ++ String y b'))
        with ((String x a') ++ (spaces k ++ String y b')).
      rewrite <- append_assoc, (rstrip_app y _ b' Hy).
      now rewrite (rstrip_no_space b' Sb'). }
    rewrite Hs. subst body.
    destruct k as [ | [ | j]]; [ | now contradiction Hk | ].
    + cbn [spaces append]. rewrite split_free; [cbn; lia | ].
      rewrite occurs_app, (has_space_occurs a Sa), (has_space_occurs b Sb).
      reflexivity.
    + rewrite (split_blank_separated (S j) a b
                 (has_space_occurs a Sa) (has_space_occurs b Sb)). lia.
  - subst body. rewrite !occurs_app, Oa, Ob, (Os "("%char eq_refl). reflexivity.
  - subst body. rewrite !occurs_app, Ra, Rb, (Os ")"%char eq_refl). reflexivity.
Qed.

Lemma point_separator_witness :
  @point_to_lng_lat Standins.decimal_parser "POINT(5.5  6.6)"
  = Raise (Exception "Input point is invalid").
Proof.
  apply (@point_separator Standins.decimal_parser "5.5" "6.6" 2);
    try reflexivity; discriminate.
Defined.

End GeometryTextExtras.

(* ================================================================== *)
(** * The GeoJSON of a point *)
(* ================================================================== *)

Module GeoJSONExtras.
Import Py imagery_helper GeoUtils Further TextFacts GeometryTextExtras.
Local Open Scope string_scope.

(** X10.  The document [point_to_GeoJSON] builds: when [point_to_lng_lat]
    raises, so does it, with the same exception; otherwise it returns a
    feature collection whose one geometry is of type "Point", whose
    coordinates are a list holding the one position [lng, lat], and whose
    CRS is named "urn:ogc:def:crs:EPSG::" followed by the code it was given.
    The same document is what is written, when an output path is given. *)
Theorem point_to_GeoJSON_document `{FloatParser}
  (point_geometry point_crs : string) (out_path : option string) :
  (forall e, point_to_lng_lat point_geometry = Raise e ->
             point_to_GeoJSON point_geometry point_crs out_path = Raise e)
  /\ (forall r, point_to_lng_lat point_geometry = Ok r ->
      exists lng lat geojson,
        r = [lng; lat]
        /\ point_to_GeoJSON point_geometry point_crs out_path
           = Ok (geojson, option_map (fun path => (path, geojson)) out_path)
        /\ geometry_type geojson = Some "Point"
        /\ coordinates geojson = Some [(lng, lat)]
        /\ crs_name geojson = Some ("urn:ogc:def:crs:EPSG::" ++ point_crs)).
Proof.
  split.
  - intros e E. unfold point_to_GeoJSON. now rewrite E.
  - intros r E.
    destruct (clean_pt_shape _ r E) as (lng & lat & ->).
    exists lng, lat. eexists. split; [reflexivity | ].
    split; [unfold point_to_GeoJSON; rewrite E; reflexivity | ].
    repeat split; reflexivity.
Qed.

Lemma point_to_GeoJSON_document_witness :
  exists geojson,
    @point_to_GeoJSON Standins.decimal_parser "POINT(5.5 6.6)" "4326"
      (Some "point.json")
    = Ok (geojson, Some ("point.json", geojson))
    /\ coordinates geojson = Some [(5.5, 6.6)]%float
    /\ crs_name geojson = Some "urn:ogc:def:crs:EPSG::4326".
Proof.
  destruct (@point_to_GeoJSON_document Standins.decimal_parser
              "POINT(5.5 6.6)" "4326" (Some "point.json")) as (_ & Hok).
  destruct (Hok [5.5; 6.6]%float eq_refl)
    as (lng & lat & geojson & Hr & Hg & _ & Hc & Hn).
  exists geojson. inversion Hr; subst lng lat.
  split; [exact Hg | ]. split; [exact Hc | exact Hn].
Defined.

End GeoJSONExtras.

(* ================================================================== *)
(** * The rescaling of large samples *)
(* ================================================================== *)

Module Saturation.
Import Py imagery_helper GeoUtils SpecFloatFacts Binary64Facts.
Import RealView RealOps Binary64Reals.
Local Open Scope Z_scope.

Lemma Z2float_of_uint63 (s : Z) :
  0 <= s < 2 ^ 63 -> Z2float s = of_uint63 (Uint63.of_Z s).
Proof.
  intros Hs. rewrite <- (SF2Prim_Prim2SF (of_uint63 (Uint63.of_Z s))).
  rewrite of_uint63_spec, Uint63.of_Z_spec, Z.mod_small; [reflexivity | ].
  change wB with (2 ^ 63). lia.
Qed.

Lemma to_Z_of_Z (s : Z) : 0 <= s < 2 ^ 63 -> Uint63.to_Z (Uint63.of_Z s) = s.
Proof.
  intros Hs. rewrite Uint63.of_Z_spec, Z.mod_small; [reflexivity | ].
  change wB with (2 ^ 63). lia.
Qed.

(** The value of a non-negative integer below [2 ^ 53], as a float. *)
Lemma Z2float_value (s : Z) :
  0 < s < 2 ^ 53 ->
  exists m e, Prim2SF (Z2float s) = S754_finite false m e
              /\ (IZR (Zpos m) * bpow e)%R = IZR s.
Proof.
  intros Hs. rewrite Z2float_of_uint63 by lia.
  destruct (of_uint63_value (Uint63.of_Z s)) as (m & e & E & V).
  - rewrite to_Z_of_Z; lia.
  - exists m, e. rewrite to_Z_of_Z in V by lia. now split.
Qed.

(** Rounding to the nearest integer, between the integers around. *)
Lemma half_even_above (m k : positive) (j : Z) :
  (IZR j + / 2 < IZR (Zpos m) * bpow (Zneg k))%R ->
  j + 1 <= half_even m (Zneg k).
Proof.
  intros H. change (Zneg k) with (- Zpos k) in H.
  rewrite bpow_opp, bpow_IZR in H by lia.
  assert (HK : 0 < 2 ^ Zpos k) by (apply Z.pow_pos_nonneg; lia).
  assert (HKr : (0 < IZR (2 ^ Zpos k))%R) by (now apply IZR_lt).
  assert (Hz : (2 * j + 1) * 2 ^ Zpos k < 2 * Zpos m).
  { apply lt_IZR. rewrite !mult_IZR, plus_IZR, mult_IZR.
    apply (Rmult_lt_compat_r (IZR (2 ^ Zpos k))) in H; [ | exact HKr].
    replace (IZR (Zpos m) * / IZR (2 ^ Zpos k) * IZR (2 ^ Zpos k))%R
      with (IZR (Zpos m)) in H by (field; lra).
    lra. }
  unfold half_even. cbv zeta.
  rewrite Z.shiftr_div_pow2, !Z.shiftl_mul_pow2, Z.mul_1_l by lia.
  pose proof (Z.div_mod (Zpos m) (2 ^ Zpos k) ltac:(lia)) as Dm.
  pose proof (Z.mod_pos_bound (Zpos m) (2 ^ Zpos k) HK) as Bm.
  set (q := Zpos m / 2 ^ Zpos k) in *. set (r := Zpos m mod 2 ^ Zpos k) in *.
  assert (Hh : 2 ^ Zpos k = 2 * 2 ^ (Zpos k - 1)).
  { rewrite <- Z.pow_succ_r by lia. f_equal. lia. }
  set (K := 2 ^ Zpos k) in *. set (h := 2 ^ (Zpos k - 1)) in *.
  assert (Hq : j <= q) by nia.
  destruct (Z.eq_dec j q) as [-> | Hne].
  - assert (Hr : h < Zpos m - q * K) by nia.
    apply Z.compare_gt_iff in Hr. rewrite Hr. lia.
  - destruct (Zpos m - q * K ?= h); [destruct (Z.even q) | | ]; lia.
Qed.

Lemma half_even_below (m k : positive) (u : Z) :
  (IZR (Zpos m) * bpow (Zneg k) < IZR u)%R -> half_even m (Zneg k) <= u.
Proof.
  intros H. change (Zneg k) with (- Zpos k) in H.
  rewrite bpow_opp, bpow_IZR in H by lia.
  assert (HK : 0 < 2 ^ Zpos k) by (apply Z.pow_pos_nonneg; lia).
  assert (HKr : (0 < IZR (2 ^ Zpos k))%R) by (now apply IZR_lt).
  assert (Hz : Zpos m < u * 2 ^ Zpos k).
  { apply lt_IZR. rewrite mult_IZR.
    apply (Rmult_lt_compat_r (IZR (2 ^ Zpos k))) in H; [ | exact HKr].
    replace (IZR (Zpos m) * / IZR (2 ^ Zpos k) * IZR (2 ^ Zpos k))%R
      with (IZR (Zpos m)) in H by (field; lra).
    exact H. }
  unfold half_even. cbv zeta.
  rewrite Z.shiftr_div_pow2 by lia.
  assert (Hq : Zpos m / 2 ^ Zpos k < u) by (apply Z.div_lt_upper_bound; lia).
  destruct (_ ?= _); [destruct (Z.even _) | | ]; lia.
Qed.

(** Comparison, from the real numbers. *)
Lemma SFltb_of_real (x y : spec_float) :
  SpecFloat.valid_binary prec emax x = true ->
  SpecFloat.valid_binary prec emax y = true ->
  SFfinite x -> SFfinite y ->
  (SF2R x < SF2R y)%R -> SFltb x y = true.
Proof.
  intros Vx Vy Fx Fy H.
  pose proof (SFcompare_real prec emax ltac:(reflexivity) x y Vx Vy Fx Fy) as C.
  unfold SFltb. destruct (SFcompare x y) as [[ | | ] | ];
    [lra | reflexivity | lra | contradiction].
Qed.

Lemma bpow_small (e : Z) : e <= -20 -> (bpow e <= / 1048576)%R.
Proof.
  intros H. apply Rle_trans with (bpow (-20)); [now apply bpow_le | ].
  change (-20) with (- (20)). rewrite bpow_opp, bpow_IZR by lia.
  change (2 ^ 20) with 1048576. lra.
Qed.

(** From 10020 on, the rescaled value is above 255 before the cap. *)
Lemma scaled_large (s : Z) :
  10020 <= s < 2 ^ 53 -> (255 <? scaled s 10000)%float = true.
Proof.
  intros Hs. unfold scaled.
  destruct (Z2float_value s ltac:(lia)) as (m & e & Ef & Vf).
  destruct (Z2float_value 10000 ltac:(lia)) as (mt & et & Et & Vt).
  destruct (Z2float_value 255 ltac:(lia)) as (mc & ec & Ec & Vc).
  change (Z2float 255) with 255%float in Ec.
  set (f := Z2float s) in *. set (t := Z2float 10000) in *.
  assert (HX : (IZR 10020 <= IZR s < IZR (2 ^ 53))%R)
    by (split; [apply IZR_le | apply IZR_lt]; lia).
  change (2 ^ 53) with 9007199254740992 in HX.
  pose proof (bpow_small (- prec) ltac:(unfold prec; lia)) as Heps.
  pose proof (bpow_small (emin - 1) ltac:(unfold emin, prec, emax; lia)) as Heta.
  pose proof (bpow_pos (- prec)) as Heps0.
  pose proof (bpow_pos (emin - 1)) as Heta0.
  assert (Big : (IZR (2 ^ 60) <= bpow (emax - prec))%R).
  { rewrite <- bpow_IZR by lia. apply bpow_le. unfold emax, prec. lia. }
  change (2 ^ 60) with 1152921504606846976 in Big.
  (* the quotient *)
  assert (Eq : Prim2SF (f / t) = SFdiv prec emax (Prim2SF f) (Prim2SF t))
    by apply div_spec.
  rewrite Ef, Et in Eq.
  pose proof (SFdiv_error prec emax ltac:(reflexivity) m mt e et) as Dq.
  cbv zeta in Dq. rewrite <- Eq in Dq. cbn [SF2R cond_Zopp] in Dq.
  rewrite Vf, Vt in Dq.
  destruct Dq as [[_ Dq] | [Dq Sq]].
  { specialize (Dq ltac:(unfold emin, emax, prec; lia)). lra. }
  apply Rabs_le_inv in Dq.
  assert (HQ : (100199 / 100000 <= SF2R (Prim2SF (f / t)) <= IZR (2 ^ 41))%R).
  { change (2 ^ 41) with 2199023255552.
    assert (0 <= IZR s / 10000 * bpow (- prec)
            <= IZR s / 10000 * / 1048576)%R by (split; nra).
    split; lra. }
  destruct Sq as [Sq | (mq & eq & Sq)].
  { rewrite Sq in HQ. cbn [SF2R] in HQ. lra. }
  (* the product *)
  assert (Ep : Prim2SF (f / t * 255)
               = SFmul prec emax (Prim2SF (f / t)) (Prim2SF 255))
    by apply mul_spec.
  rewrite Sq, Ec in Ep. rewrite Sq in HQ. cbn [SF2R cond_Zopp] in HQ.
  pose proof (SFmul_error prec emax ltac:(reflexivity) mq mc eq ec) as Dp.
  cbv zeta in Dp. rewrite <- Ep in Dp. cbn [SF2R cond_Zopp] in Dp.
  rewrite Vc in Dp.
  change (2 ^ 41) with 2199023255552 in HQ.
  destruct Dp as [[_ Dp] | [Dp Sp]].
  { specialize (Dp ltac:(unfold emin, emax, prec; lia)). nra. }
  apply Rabs_le_inv in Dp.
  assert (HP : (IZR 255 + / 2 < SF2R (Prim2SF (f / t * 255)) < IZR (2 ^ 50))%R).
  { change (2 ^ 50) with 1125899906842624.
    assert (0 <= IZR (Zpos mq) * bpow eq * 255 * bpow (- prec)
            <= IZR (Zpos mq) * bpow eq * 255 * / 1048576)%R by (split; nra).
    split; lra. }
  destruct Sp as [Sp | (mp & ep & Sp)].
  { rewrite Sp in HP. cbn [SF2R] in HP. lra. }
  (* the rounding *)
  assert (V255 : SF2R (Prim2SF 255) = 255%R).
  { rewrite Ec. cbn [SF2R cond_Zopp]. exact Vc. }
  assert (F255 : SFfinite (Prim2SF 255)) by (rewrite Ec; exact I).
  rewrite ltb_spec. unfold np.round. rewrite Sp. cbn [np.SFrint].
  rewrite Sp in HP. cbn [SF2R cond_Zopp] in HP.
  destruct (0 <=? ep) eqn:Hep.
  - rewrite <- Sp, SF2Prim_Prim2SF.
    apply SFltb_of_real; try apply Prim2SF_valid; try exact F255.
    + rewrite Sp. exact I.
    + rewrite V255, Sp. cbn [SF2R cond_Zopp]. lra.
  - apply Z.leb_gt in Hep. destruct ep as [ | k | k]; try lia.
    pose proof (half_even_above mp k 255 ltac:(lra)) as Lo.
    pose proof (half_even_below mp k (2 ^ 50) ltac:(lra)) as Hi.
    destruct (half_even mp (Zneg k)) as [ | n | n]; try lia.
    destruct (Z2float_value (Zpos n) ltac:(lia)) as (mr & er & Er & Vr).
    assert (Ern : Prim2SF (Z2float (Zpos n)) = binary_round prec emax false n 0).
    { rewrite Z2float_of_uint63, of_uint63_spec, to_Z_of_Z by lia. reflexivity. }
    rewrite <- Ern. rewrite SF2Prim_Prim2SF.
    apply SFltb_of_real; try apply Prim2SF_valid; try exact F255.
    + rewrite Er. exact I.
    + rewrite V255, Er. cbn [SF2R cond_Zopp]. rewrite Vr.
      apply IZR_lt. lia.
Qed.

Lemma rescaled_large (s : Z) :
  10020 <= s < 2 ^ 53 -> rescaled_sample s 10000 = 255.
Proof.
  intros Hs. unfold rescaled_sample, clamp_255.
  rewrite (scaled_large s Hs). reflexivity.
Qed.

End Saturation.

(* ================================================================== *)
(** * The bands [to_uint8] returns *)
(* ================================================================== *)

Module BandExtras.
Import Py imagery_helper GeoUtils Further RangeRescaler.
Local Open Scope Z_scope.

(** ** The samples that come out *)

Lemma float_to_uint8_range (x : float) : 0 <= np.float_to_uint8 x <= 255.
Proof.
  unfold np.float_to_uint8.
  destruct (SFtrunc (Prim2SF x)) as [z | ]; [ | lia].
  destruct (Z.abs z <? 2 ^ 31); [ | lia].
  pose proof (Z.mod_pos_bound z 256 ltac:(lia)). lia.
Qed.

Lemma astype_uint8_range (a : np.ndarray) :
  Forall (fun s => 0 <= s <= 255) (np.astype_uint8 a).
Proof.
  apply Forall_forall. intros s Hs. destruct a as [l | l]; cbn [np.astype_uint8] in Hs;
    apply in_map_iff in Hs; destruct Hs as (x & <- & _).
  - pose proof (Z.mod_pos_bound x 256 ltac:(lia)). lia.
  - apply float_to_uint8_range.
Qed.

Lemma scale_length (band : list Z) (a : np.ndarray) :
  scale band = Ok a -> List.length (np.astype_uint8 a) = List.length band.
Proof.
  unfold scale. destruct (np.max band) as [m | e]; cbn [bind]; [ | discriminate].
  destruct (255 <? m); intros E; inversion E; subst a; cbn [np.astype_uint8];
    unfold np.divide; now rewrite ?length_map.
Qed.

Lemma scale_returns (band : list Z) :
  band <> [] -> exists a, scale band = Ok a.
Proof.
  intros Hb. unfold scale. destruct band as [ | s t]; [now contradiction Hb | ].
  cbn [np.max bind]. destruct (255 <? _); eauto.
Qed.

Lemma scale_empty : scale [] = Raise ValueError.
Proof. reflexivity. Qed.

(** X4.  What [to_uint8] returns has the shape of what it was given, band by
    band, and holds 8-bit samples only: every sample that comes out is
    between 0 and 255. *)
Theorem to_uint8_eight_bit (bands out : list (list Z)) (min max : Z) :
  to_uint8 bands min max = Ok out ->
  Forall2 (fun band o =>
             List.length o = List.length band
             /\ Forall (fun s => 0 <= s <= 255) o) bands out.
Proof.
  unfold to_uint8. revert out.
  induction bands as [ | band bands IH]; intros out E; cbn [mapM] in E.
  - inversion E. constructor.
  - destruct (scale band) as [a | e] eqn:Es; cbn [bind] in E; [ | discriminate].
    destruct (mapM _ bands) as [outs | e]; cbn [bind] in E; [ | discriminate].
    inversion E; subst out. constructor.
    + split; [now apply scale_length | apply astype_uint8_range].
    + now apply IH.
Qed.

Lemma to_uint8_eight_bit_witness :
  Forall2 (fun band o =>
             List.length o = List.length band
             /\ Forall (fun s => 0 <= s <= 255) o)
    [[300; 20000; -7]; [1; -2]] [[8; 255; 0]; [1; 254]].
Proof.
  apply (to_uint8_eight_bit [[300; 20000; -7]; [1; -2]] _ 0 10000).
  vm_compute. reflexivity.
Defined.

(** X5.  [to_uint8] raises exactly when one of the bands holds no sample, and
    what it raises then is the [ValueError] of [np.max]. *)
Theorem to_uint8_empty_band (bands : list (list Z)) (min max : Z) :
  (In [] bands -> to_uint8 bands min max = Raise ValueError)
  /\ (~ In [] bands -> exists out, to_uint8 bands min max = Ok out).
Proof.
  unfold to_uint8. induction bands as [ | band bands [IH1 IH2]]; cbn [mapM].
  - split; [contradiction | eauto].
  - split.
    + intros [-> | Hin]; [reflexivity | ].
      destruct band as [ | s t]; [reflexivity | ].
      destruct (scale_returns (s :: t) ltac:(discriminate)) as [a ->].
      cbn [bind]. now rewrite (IH1 Hin).
    + intros Hn.
      destruct (scale_returns band) as [a ->].
      { intros ->. apply Hn. now left. }
      destruct IH2 as [outs ->]; [intros Hin; apply Hn; now right | ].
      cbn [bind]. eauto.
Qed.

Lemma to_uint8_empty_band_witness :
  to_uint8 [[300; 5]; []] 0 10000 = Raise ValueError
  /\ exists out, to_uint8 [[300; 5]; [7]] 0 10000 = Ok out.
Proof.
  destruct (to_uint8_empty_band [[300; 5]; []] 0 10000) as [H1 _].
  destruct (to_uint8_empty_band [[300; 5]; [7]] 0 10000) as [_ H2].
  split.
  - apply H1. right. now left.
  - apply H2. intros [E | [E | []]]; discriminate.
Defined.

(** ** The rescaling, exactly *)

Lemma range_In (n : nat) : forall start s,
  start <= s < start + Z.of_nat n -> In s (range n start).
Proof.
  induction n as [ | n IH]; intros start s Hs; cbn [range]; [lia | ].
  destruct (Z.eq_dec s start) as [-> | Hne]; [now left | right].
  apply IH. lia.
Qed.

Lemma nearest_even_floor (a b : Z) : a / b <= nearest_even a b.
Proof.
  unfold nearest_even, round_nearest_even.
  destruct (loc_of (a mod b) b) as [ | [ | | ]]; try lia.
  destruct (Z.even (a / b)); lia.
Qed.

(** On every sample from 0 to [2 ^ 53] the binary64 computation
    [np.round((s / 10000.0) * 255.0)], capped at 255 and cast, gives the
    integer nearest to [255 s / 10000], capped at 255: below 10020 sample
    by sample, from there on by the bounds of the rounding errors. *)
Lemma rescaled_exact (s : Z) :
  0 <= s < 2 ^ 53 ->
  rescaled_sample s 10000 = Z.min 255 (nearest_even (255 * s) 10000).
Proof.
  intros Hs. destruct (Z.lt_ge_cases s 10020) as [Hlt | Hge].
  - assert (H : forallb (fun s => rescaled_sample s 10000
                                  =? Z.min 255 (nearest_even (255 * s) 10000))
                  (range (Z.to_nat 10020) 0) = true) by (vm_compute; reflexivity).
    rewrite forallb_forall in H. apply Z.eqb_eq, H, range_In.
    rewrite Z2Nat.id; lia.
  - rewrite Saturation.rescaled_large by lia.
    pose proof (nearest_even_floor (255 * s) 10000).
    assert (255 <= 255 * s / 10000) by (apply Z.div_le_lower_bound; lia).
    lia.
Qed.

Lemma nearest_even_mono (a a' b : Z) :
  0 <= a <= a' -> 0 < b -> nearest_even a b <= nearest_even a' b.
Proof.
  intros Ha Hb. unfold nearest_even.
  pose proof (Rounding.round_nearest_even_close a b ltac:(lia) Hb) as (_ & H1 & _ & O1).
  pose proof (Rounding.round_nearest_even_close a' b ltac:(lia) Hb) as (_ & H2 & _ & O2).
  cbv zeta in *.
  set (n := round_nearest_even (a / b) (loc_of (a mod b) b)) in *.
  set (n' := round_nearest_even (a' / b) (loc_of (a' mod b) b)) in *.
  destruct (Z.le_gt_cases n n') as [ | Hgt]; [assumption | exfalso].
  assert (Hnn : n = n' + 1) by nia.
  assert (Haa : 2 * a = 2 * n * b - b /\ 2 * a' = 2 * n' * b + b) by nia.
  destruct (Z.odd n) eqn:On.
  - specialize (O1 eq_refl). nia.
  - assert (On' : Z.odd n' = true).
    { rewrite Hnn, Z.add_1_r, Z.odd_succ, <- Z.negb_odd in On.
      now apply negb_false_iff in On. }
    specialize (O2 On'). nia.
Qed.

(** A larger sample is not given a smaller value. *)
Lemma rescaled_mono (s1 s2 : Z) :
  0 <= s1 <= s2 -> s2 < 2 ^ 53 ->
  rescaled_sample s1 10000 <= rescaled_sample s2 10000.
Proof.
  intros H1 H2. rewrite !rescaled_exact by lia.
  apply Z.min_le_compat_l, nearest_even_mono; lia.
Qed.

(** Band by band. *)
Lemma to_uint8_each (bands outs : list (list Z)) (min max : Z) :
  to_uint8 bands min max = Ok outs ->
  Forall2 (fun band out => to_uint8 [band] min max = Ok [out]) bands outs.
Proof.
  unfold to_uint8. revert outs.
  induction bands as [ | band bands IH]; intros outs E; cbn [mapM] in E.
  - inversion E. constructor.
  - destruct (scale band) as [a | e] eqn:Es; cbn [bind] in E; [ | discriminate].
    destruct (mapM _ bands) as [os | e]; cbn [bind] in E; [ | discriminate].
    inversion E; subst outs. constructor; [ | now apply IH].
    cbn [mapM]. now rewrite Es.
Qed.

(** X2.  A band of samples from 0 to [2 ^ 53] (any unsigned 8, 16 or 32-bit
    imagery) whose maximum exceeds 255 comes out, sample by sample, as the
    integer nearest to 255 s / 10000 (ties to even), capped at 255: the
    binary64 roundings of [np.round((band / 10000.0) * 255.0)] never change
    that integer. *)
Theorem to_uint8_exact (band : list Z) (m min max : Z) :
  np.max band = Ok m -> 255 < m ->
  (forall s, In s band -> 0 <= s < 2 ^ 53) ->
  to_uint8 [band] min max
  = Ok [map (fun s => Z.min 255 (nearest_even (255 * s) 10000)) band].
Proof.
  intros Em Hm Hs. rewrite (to_uint8_rescales band m min max Em Hm).
  do 2 f_equal. apply map_ext_in. intros s Hin. apply rescaled_exact, Hs, Hin.
Qed.

Lemma to_uint8_exact_witness :
  to_uint8 [[1000; 9980; 9981; 65535; 0]] 0 10000 = Ok [[26; 254; 255; 255; 0]].
Proof.
  etransitivity.
  - apply (to_uint8_exact [1000; 9980; 9981; 65535; 0] 65535 0 10000 eq_refl);
      [lia | ].
    intros s [<- | [<- | [<- | [<- | [<- | []]]]]]; lia.
  - vm_compute. reflexivity.
Defined.

(** X3.  [to_uint8] keeps the order of samples from 0 to [2 ^ 53]: within a
    band, a sample that is not larger than another does not come out
    larger. *)
Theorem to_uint8_keeps_order (bands outs : list (list Z)) (min max : Z) :
  (forall band s, In band bands -> In s band -> 0 <= s < 2 ^ 53) ->
  to_uint8 bands min max = Ok outs ->
  Forall2 (fun band out =>
             forall i j s1 s2 o1 o2,
               nth_error band i = Some s1 -> nth_error band j = Some s2 ->
               nth_error out i = Some o1 -> nth_error out j = Some o2 ->
               s1 <= s2 -> o1 <= o2) bands outs.
Proof.
  intros Hs E. apply to_uint8_each in E.
  induction E as [ | band out bands outs Eb _ IH]; constructor.
  - intros i j s1 s2 o1 o2 B1 B2 O1 O2 Hle.
    assert (Hb : forall s, In s band -> 0 <= s < 2 ^ 53).
    { intros s Hin. apply (Hs band s); [now left | exact Hin]. }
    pose proof (Hb s1 (nth_error_In _ _ B1)) as R1.
    pose proof (Hb s2 (nth_error_In _ _ B2)) as R2.
    destruct (np.max band) as [m | e] eqn:Em.
    + destruct (Z.lt_ge_cases 255 m) as [Hm | Hm].
      * rewrite (to_uint8_rescales band m min max Em Hm) in Eb.
        inversion Eb; subst out.
        rewrite nth_error_map, B1 in O1. rewrite nth_error_map, B2 in O2.
        cbn in O1, O2. inversion O1; inversion O2; subst o1 o2.
        apply rescaled_mono; lia.
      * unfold to_uint8 in Eb. cbn [mapM] in Eb.
        rewrite (scale_passes band m Em Hm) in Eb. cbn [bind np.astype_uint8] in Eb.
        inversion Eb; subst out.
        rewrite nth_error_map, B1 in O1. rewrite nth_error_map, B2 in O2.
        cbn in O1, O2. inversion O1; inversion O2; subst o1 o2.
        pose proof (max_bound band m Em s1 (nth_error_In _ _ B1)).
        pose proof (max_bound band m Em s2 (nth_error_In _ _ B2)).
        rewrite !Z.mod_small by lia. exact Hle.
    + unfold to_uint8, scale in Eb. cbn [mapM] in Eb. rewrite Em in Eb.
      discriminate Eb.
  - apply IH. intros b s Hb Hin. apply (Hs b s); [now right | exact Hin].
Qed.

Lemma to_uint8_keeps_order_witness :
  Forall2 (fun band out =>
             forall i j s1 s2 o1 o2,
               nth_error band i = Some s1 -> nth_error band j = Some s2 ->
               nth_error out i = Some o1 -> nth_error out j = Some o2 ->
               s1 <= s2 -> o1 <= o2)
    [[300; 20000; 7]; [1; 2]] [[8; 255; 0]; [1; 2]].
Proof.
  apply (to_uint8_keeps_order [[300; 20000; 7]; [1; 2]] _ 0 10000).
  - intros band s [<- | [<- | []]] Hin; cbn in Hin; lia.
  - vm_compute. reflexivity.
Defined.

End BandExtras.

(* ================================================================== *)
(** * Pixels: coordinates that are no numbers, datasets without extent *)
(* ================================================================== *)

Module PixelEdgeCases.
Import Py imagery_helper GeoUtils SpecFloatFacts Binary64Facts PyFacts.
Import Examples Further.
Local Open Scope string_scope.
Local Open Scope float_scope.

(** ** Not a number *)

Lemma SFeqb_refl (x : spec_float) : x <> S754_nan -> SFeqb x x = true.
Proof.
  destruct x as [s | s | | s m e]; intros H; try reflexivity;
    [destruct s; reflexivity | contradiction | ].
  unfold SFeqb, SFcompare.
  destruct s; rewrite Z.compare_refl, Pos.compare_cont_refl; reflexivity.
Qed.

Lemma is_nan_true (x : float) : is_nan x = true -> Prim2SF x = S754_nan.
Proof.
  unfold is_nan. rewrite eqb_spec. intros H. apply negb_true_iff in H.
  destruct (Prim2SF x) as [s | s | | s m e] eqn:E; try reflexivity;
    rewrite SFeqb_refl in H; discriminate.
Qed.

Lemma ltb_nan_r (x y : float) : is_nan y = true -> (x <? y) = false.
Proof.
  intros H. rewrite ltb_spec, (is_nan_true y H).
  destruct (Prim2SF x) as [s | s | | s m e]; reflexivity.
Qed.

Lemma ltb_nan_l (x y : float) : is_nan x = true -> (x <? y) = false.
Proof. intros H. rewrite ltb_spec, (is_nan_true x H). reflexivity. Qed.

Lemma sub_nan_r (x y : float) : is_nan y = true -> Prim2SF (x - y) = S754_nan.
Proof.
  intros H. rewrite sub_spec, (is_nan_true y H).
  destruct (Prim2SF x) as [s | s | | s m e]; reflexivity.
Qed.

Lemma mul_nan_l (x y : float) : Prim2SF x = S754_nan -> Prim2SF (x * y) = S754_nan.
Proof. intros H. rewrite mul_spec, H. reflexivity. Qed.

Lemma mul_nan_r (x y : float) : Prim2SF y = S754_nan -> Prim2SF (x * y) = S754_nan.
Proof.
  intros H. rewrite mul_spec, H.
  destruct (Prim2SF x) as [s | s | | s m e]; reflexivity.
Qed.

Lemma py_int_nan (x : float) : Prim2SF x = S754_nan -> py_int x = Raise ValueError.
Proof. unfold py_int. intros ->. reflexivity. Qed.

(** X11.  A coordinate that is not a number is not caught by the bounds
    check.  With a NaN longitude the call raises "Invalid lat/lng" only when
    the latitude is out of bounds, and [ZeroDivisionError] only on a zero
    span; otherwise it ends in the [ValueError] of [int] on a NaN.  With a
    NaN latitude likewise, after the conversion of the column.  No pixel is
    ever returned. *)
Theorem nan_coordinate (g : DatasetReader) (lng lat : float) :
  let b := bounds g in
  let xres := truediv (of_uint63 (width g)) (np.abs (right b - left b)) in
  let yres := truediv (of_uint63 (height g)) (np.abs (top b - bottom b)) in
  (is_nan lng = true ->
   convert_lng_lat_to_pixel g lng lat
   = if (top b <? lat) || (lat <? bottom b)
     then Raise (Exception "Invalid lat/lng")
     else (_ <- xres ;; _ <- yres ;; Raise ValueError))
  /\ (is_nan lat = true ->
      convert_lng_lat_to_pixel g lng lat
      = if (right b <? lng) || (lng <? left b)
        then Raise (Exception "Invalid lat/lng")
        else (xr <- xres ;; _ <- yres ;;
              _ <- py_int ((right b - lng) * xr) ;; Raise ValueError))
  /\ (is_nan lng = true \/ is_nan lat = true ->
      forall pixel, convert_lng_lat_to_pixel g lng lat <> Ok pixel).
Proof.
  cbv zeta.
  assert (Lng : is_nan lng = true ->
                convert_lng_lat_to_pixel g lng lat
                = if (top (bounds g) <? lat) || (lat <? bottom (bounds g))
                  then Raise (Exception "Invalid lat/lng")
                  else (_ <- truediv (of_uint63 (width g))
                                (np.abs (right (bounds g) - left (bounds g))) ;;
                        _ <- truediv (of_uint63 (height g))
                                (np.abs (top (bounds g) - bottom (bounds g))) ;;
                        Raise ValueError)).
  { intros N. unfold convert_lng_lat_to_pixel.
    rewrite (ltb_nan_r _ lng N), (ltb_nan_l lng _ N). cbn [orb].
    destruct ((top (bounds g) <? lat) || (lat <? bottom (bounds g)));
      [reflexivity | ].
    destruct (truediv _ _) as [xr | e]; cbn [bind]; [ | reflexivity].
    destruct (truediv _ _) as [yr | e]; cbn [bind]; [ | reflexivity].
    rewrite (py_int_nan _ (mul_nan_l _ xr (sub_nan_r _ lng N))). reflexivity. }
  assert (Lat : is_nan lat = true ->
                convert_lng_lat_to_pixel g lng lat
                = if (right (bounds g) <? lng) || (lng <? left (bounds g))
                  then Raise (Exception "Invalid lat/lng")
                  else (xr <- truediv (of_uint63 (width g))
                                 (np.abs (right (bounds g) - left (bounds g))) ;;
                        _ <- truediv (of_uint63 (height g))
                                (np.abs (top (bounds g) - bottom (bounds g))) ;;
                        _ <- py_int ((right (bounds g) - lng) * xr) ;;
                        Raise ValueError)).
  { intros N. unfold convert_lng_lat_to_pixel.
    destruct ((right (bounds g) <? lng) || (lng <? left (bounds g)));
      [reflexivity | ].
    rewrite (ltb_nan_r _ lat N), (ltb_nan_l lat _ N). cbn [orb].
    destruct (truediv _ _) as [xr | e]; cbn [bind]; [ | reflexivity].
    destruct (truediv _ _) as [yr | e]; cbn [bind]; [ | reflexivity].
    destruct (py_int _) as [x | e]; cbn [bind]; [ | reflexivity].
    rewrite (py_int_nan _ (mul_nan_l _ yr (sub_nan_r _ lat N))). reflexivity. }
  split; [exact Lng | split; [exact Lat | ]].
  intros [N | N] pixel E; [rewrite (Lng N) in E | rewrite (Lat N) in E];
    clear Lng Lat.
  - destruct (_ || _); [discriminate | ].
    destruct (truediv _ _); cbn [bind] in E; [ | discriminate].
    destruct (truediv _ _); cbn [bind] in E; discriminate.
  - destruct (_ || _); [discriminate | ].
    destruct (truediv _ _); cbn [bind] in E; [ | discriminate].
    destruct (truediv _ _); cbn [bind] in E; [ | discriminate].
    destruct (py_int _); cbn [bind] in E; discriminate.
Qed.

(** A NaN longitude, a NaN latitude, on a raster over one degree. *)
Lemma nan_coordinate_witness :
  convert_lng_lat_to_pixel one_degree nan 0.5 = Raise ValueError
  /\ convert_lng_lat_to_pixel one_degree 0.5 nan = Raise ValueError.
Proof.
  destruct (nan_coordinate one_degree nan 0.5) as (Hlng & _ & _).
  destruct (nan_coordinate one_degree 0.5 nan) as (_ & Hlat & _).
  split.
  - etransitivity; [exact (Hlng eq_refl) | vm_compute; reflexivity].
  - etransitivity; [exact (Hlat eq_refl) | vm_compute; reflexivity].
Defined.

(** ** A dataset without extent *)

Lemma abs_zero : np.abs 0 = 0.
Proof. reflexivity. Qed.

Lemma truediv_zero_span (x r : float) :
  is_finite r = true -> truediv x (np.abs (r - r)) = Raise ZeroDivisionError.
Proof. intros F. rewrite (sub_diag r F). reflexivity. Qed.

(** X12.  On a dataset whose left and right bounds are the same finite
    number, or whose top and bottom bounds are, no point has a pixel: a
    point that fails the bounds check gets "Invalid lat/lng", and every
    other point a [ZeroDivisionError]. *)
Theorem no_extent_no_pixel (g : DatasetReader) (lng lat : float) :
  let b := bounds g in
  (left b = right b /\ is_finite (left b) = true)
  \/ (top b = bottom b /\ is_finite (top b) = true) ->
  convert_lng_lat_to_pixel g lng lat
  = if outside (left b) (right b) lng || outside (bottom b) (top b) lat
    then Raise (Exception "Invalid lat/lng")
    else Raise ZeroDivisionError.
Proof.
  cbv zeta. intros D. unfold convert_lng_lat_to_pixel, outside.
  rewrite (orb_comm (lng <? left (bounds g))), (orb_comm (lat <? bottom (bounds g))).
  destruct ((right (bounds g) <? lng) || (lng <? left (bounds g)));
    [reflexivity | ].
  destruct ((top (bounds g) <? lat) || (lat <? bottom (bounds g)));
    [reflexivity | ].
  cbn [orb]. destruct D as [[E F] | [E F]].
  - rewrite <- E, (truediv_zero_span _ _ F). reflexivity.
  - destruct (truediv _ _) as [xr | e] eqn:X; cbn [bind].
    + rewrite <- E.
      replace (top (bounds g) - top (bounds g)) with 0 by (now rewrite sub_diag).
      reflexivity.
    + now rewrite (truediv_raises _ _ e X).
Qed.

(** The point on the line, a point off it. *)
Lemma no_extent_no_pixel_witness :
  convert_lng_lat_to_pixel vertical_line 3 0.5 = Raise ZeroDivisionError
  /\ convert_lng_lat_to_pixel vertical_line 2 0.5
     = Raise (Exception "Invalid lat/lng").
Proof.
  split.
  - etransitivity;
      [apply no_extent_no_pixel; left; split; reflexivity | reflexivity].
  - etransitivity;
      [apply no_extent_no_pixel; left; split; reflexivity | reflexivity].
Defined.

End PixelEdgeCases.

(* ================================================================== *)
(** * Distances: along a meridian, to the same point *)
(* ================================================================== *)

Module DistanceExtras.
Import Py imagery_helper GeoUtils SpecFloatFacts Binary64Facts PyFacts.
Import RealView RealOps Binary64Reals.
Local Open Scope float_scope.

(** ** What can be raised *)

Lemma math_2_raises (f : float -> float -> float) (x y : float) (e : exn) :
  math.math_2 f x y = Raise e -> e = ValueError \/ e = OverflowError.
Proof.
  unfold math.math_2.
  destruct (is_nan (f x y) && negb (is_nan x) && negb (is_nan y));
    [intros E; inversion E; now left | ].
  destruct (is_infinity (f x y) && is_finite x && is_finite y);
    [intros E; inversion E; now right | discriminate].
Qed.

Lemma distance_in_m_raises `{Libm} (lat1 lon1 lat2 lon2 : float) (e : exn) :
  distance_in_m lat1 lon1 lat2 lon2 = Raise e ->
  e = ValueError \/ e = OverflowError.
Proof.
  unfold distance_in_m, math.sin, math.cos, math.sqrt, math.atan2.
  repeat match goal with
         | |- context [math.math_1 ?f ?x] =>
             let E := fresh "E" in
             destruct (math.math_1 f x) eqn:E; cbn [bind];
             [ | apply DistanceCalculator.math_1_raises in E; subst;
                 intros E'; inversion E'; now left]
         end.
  destruct (math.math_2 _ _ _) eqn:Eat; cbn [bind]; [discriminate | ].
  apply math_2_raises in Eat. intros E'. inversion E'; subst. exact Eat.
Qed.

(** ** Along a meridian *)

Lemma along_meridian `{Libm} (lat1 lat2 lon lon' : float) :
  is_finite (lon * pi / 180) = true -> is_finite (lon' * pi / 180) = true ->
  distance_in_m lat1 lon lat2 lon = distance_in_m lat1 lon' lat2 lon'.
Proof.
  intros F F'. unfold distance_in_m. now rewrite (sub_diag _ F), (sub_diag _ F').
Qed.

(** X13.  The distance between two points of the same longitude does not
    depend on that longitude: along every meridian whose longitude in
    radians is a finite number, [distance_in_m] gives the same float, or
    the same exception. *)
Theorem distance_along_meridian `{Libm} (lat1 lat2 lon lon' : float) :
  is_finite (lon * pi / 180) = true -> is_finite (lon' * pi / 180) = true ->
  distance_in_m lat1 lon lat2 lon = distance_in_m lat1 lon' lat2 lon'.
Proof. apply along_meridian. Qed.

Lemma distance_along_meridian_witness :
  @distance_in_m Standins.small_angle_libm 0.009 0.002 0 0.002
  = @distance_in_m Standins.small_angle_libm 0.009 120 0 120.
Proof.
  apply (@distance_along_meridian Standins.small_angle_libm); reflexivity.
Defined.

(** ** From a point to itself *)

Lemma Prim2SF_one : exists m e, Prim2SF 1 = S754_finite false m e
                                /\ (IZR (Zpos m) * bpow e)%R = 1%R.
Proof.
  destruct (of_uint63_value 1 ltac:(cbn; lia)) as (m & e & E & V).
  exists m, e. split; [exact E | exact V].
Qed.

(** A number between -1 and 1, squared, times zero. *)
Lemma bounded_square_zero (c : float) :
  (abs c <=? 1) = true ->
  c * c * 0 = 0 /\ is_nan c = false /\ is_infinity c = false.
Proof.
  intros B. rewrite leb_spec, abs_spec in B.
  destruct Prim2SF_one as (m1 & e1 & E1 & V1).
  pose proof (Prim2SF_valid (abs c)) as Va. rewrite abs_spec in Va.
  pose proof (Prim2SF_valid 1) as V1v.
  unfold is_nan, is_infinity. rewrite !eqb_spec, abs_spec, Prim2SF_infinity.
  assert (Z : Prim2SF (c * c) = S754_zero false
              \/ exists m e, Prim2SF (c * c) = S754_finite false m e).
  { rewrite mul_spec.
    destruct (Prim2SF c) as [s | s | | s m e] eqn:E.
    - left. destruct s; reflexivity.
    - rewrite E1 in B. discriminate B.
    - discriminate B.
    - assert (Hc : (IZR (Zpos m) * bpow e <= 1)%R).
      { pose proof (SFleb_real prec emax prec_positive _ _ Va V1v) as L.
        rewrite E1 in L, B. cbn [SFabs SFfinite SF2R cond_Zopp] in L.
        rewrite V1 in L. exact (L I I B). }
      replace (SF64mul (S754_finite s m e) (S754_finite s m e))
        with (SFmul prec emax (S754_finite false m e) (S754_finite false m e))
        by (destruct s; reflexivity).
      destruct (SFmul_error prec emax prec_positive m m e e)
        as [[_ Hinf] | [_ Hfin]]; [exfalso | exact Hfin].
      specialize (Hinf ltac:(unfold emin, emax, prec; lia)).
      cbn [SF2R cond_Zopp] in Hinf.
      assert (Big : (2 <= bpow (emax - prec))%R).
      { change 2%R with (IZR (2 ^ 1)). rewrite <- bpow_IZR by lia.
        apply bpow_le. unfold emax, prec. lia. }
      assert (0 < IZR (Zpos m) * bpow e)%R
        by (pose proof (SF2R_finite_pos m e) as P; exact P).
      nra. }
  split; [ | split].
  - apply Prim2SF_inj. rewrite mul_spec, Prim2SF_zero.
    destruct Z as [-> | (m & e & ->)]; reflexivity.
  - destruct (Prim2SF c) as [s | s | | s m e]; try discriminate B.
    + destruct s; reflexivity.
    + rewrite PixelEdgeCases.SFeqb_refl by discriminate. reflexivity.
  - destruct (Prim2SF c) as [s | s | | s m e]; try reflexivity.
    rewrite E1 in B. discriminate B.
Qed.

(** X14.  The distance from a point to itself is 0, for every point whose
    coordinates in radians are finite numbers, on a C library whose sine
    of 0 and arc tangent of 0 over 1 are 0 and whose cosine of the
    latitude is between -1 and 1. *)
Theorem distance_to_itself `{Libm} (lat lon : float) :
  libm_sin 0 = 0 -> libm_atan2 0 1 = 0 ->
  (abs (libm_cos (lat * pi / 180)) <=? 1) = true ->
  is_finite (lat * pi / 180) = true -> is_finite (lon * pi / 180) = true ->
  distance_in_m lat lon lat lon = Ok 0.
Proof.
  intros S0 A0 C Flat Flon. unfold distance_in_m.
  rewrite (sub_diag _ Flat), (sub_diag _ Flon).
  change (0 / 2) with 0.
  assert (Es : math.sin 0 = Ok 0).
  { unfold math.sin, math.math_1. rewrite S0. reflexivity. }
  rewrite Es. cbn [bind].
  destruct (bounded_square_zero _ C) as (Zc & Nc & Ic).
  assert (Ec : math.cos (lat * pi / 180) = Ok (libm_cos (lat * pi / 180))).
  { unfold math.cos, math.math_1. rewrite Nc, Ic. reflexivity. }
  rewrite Ec. cbn [bind]. rewrite Zc.
  change (0 * 0 + 0 * 0) with 0.
  change (math.sqrt 0) with (@Ok float 0). cbn [bind].
  change (math.sqrt (1 - 0)) with (@Ok float 1). cbn [bind].
  unfold math.atan2, math.math_2. rewrite A0. reflexivity.
Qed.

Lemma distance_to_itself_witness :
  @distance_in_m Standins.small_angle_libm 45 7 45 7 = Ok 0.
Proof.
  apply (@distance_to_itself Standins.small_angle_libm); reflexivity.
Defined.

End DistanceExtras.

(* ================================================================== *)
(** * The size of a pixel: CRS text, empty rasters, errors *)
(* ================================================================== *)

Module FootprintExtras.
Import Py imagery_helper GeoUtils SpecFloatFacts Binary64Facts PyFacts.
Import Examples Further TextFacts DistanceExtras.
Local Open Scope string_scope.
Local Open Scope float_scope.

(** ** The text of the CRS *)

(** A text that holds a separator splits at its last one. *)
Lemma last_separator (c : ascii) (s : string) :
  occurs c s = true ->
  exists p t, s = p ++ String c t /\ occurs c t = false.
Proof.
  induction s as [ | a r IH]; cbn [occurs]; [discriminate | ].
  intros H. destruct (occurs c r) eqn:Hr.
  - destruct (IH eq_refl) as (p & t & -> & Ht).
    exists (String a p), t. split; [reflexivity | exact Ht].
  - rewrite orb_false_r in H. apply Ascii.eqb_eq in H. subst a.
    exists "", r. split; [reflexivity | exact Hr].
Qed.

Lemma last_item_split (c : ascii) (s t : string) :
  last_item (split c s) = t
  <-> occurs c t = false /\ (s = t \/ exists p, s = p ++ String c t).
Proof.
  split.
  - intros E. destruct (occurs c s) eqn:Hs.
    + destruct (last_separator c s Hs) as (p & u & -> & Hu).
      rewrite split_app_last, (split_free c u Hu) in E. cbn in E. subst u.
      split; [exact Hu | right; now exists p].
    + rewrite (split_free c s Hs) in E. cbn in E. subst t.
      split; [exact Hs | now left].
  - intros (Ht & [-> | (p & ->)]).
    + now rewrite (split_free c t Ht).
    + now rewrite split_app_last, (split_free c t Ht).
Qed.

Lemma crs_code_4326 (satdata : DatasetReader) :
  crs_code satdata = "4326"
  <-> crs satdata = "4326" \/ exists prefix, crs satdata = prefix ++ ":4326".
Proof.
  unfold crs_code. rewrite last_item_split. split.
  - intros (_ & H). exact H.
  - intros H. split; [reflexivity | exact H].
Qed.

(** On a "4326" dataset something is computed, or raised. *)
Lemma pixel_in_m_4326_not_none `{Libm} (satdata : DatasetReader) :
  crs_code satdata = "4326" -> pixel_in_m satdata <> Ok None.
Proof.
  intros Hcrs. unfold pixel_in_m. rewrite Hcrs, String.eqb_refl.
  repeat match goal with
         | |- (_ <- ?a ;; _) <> _ =>
             destruct a; cbn [bind]; [ | discriminate]
         end.
  discriminate.
Qed.

(** X15.  [pixel_in_m] returns [None] exactly on a dataset whose CRS text
    is neither "4326" nor a text that ends in ":4326": only what follows
    the last colon is looked at. *)
Theorem pixel_in_m_none `{Libm} (satdata : DatasetReader) :
  pixel_in_m satdata = Ok None
  <-> ~ (crs satdata = "4326" \/ exists prefix, crs satdata = prefix ++ ":4326").
Proof.
  rewrite <- crs_code_4326. split.
  - intros E Hcrs. exact (pixel_in_m_4326_not_none satdata Hcrs E).
  - intros Hcrs. unfold pixel_in_m.
    apply String.eqb_neq in Hcrs. now rewrite Hcrs.
Qed.

(** ** Without pixels *)

Lemma of_uint63_zero (n : int) : Uint63.to_Z n = 0%Z -> of_uint63 n = 0.
Proof.
  intros H. apply Prim2SF_inj. rewrite of_uint63_spec, H. reflexivity.
Qed.

Lemma truediv_no_count (x : float) (n : int) :
  Uint63.to_Z n = 0%Z -> truediv x (of_uint63 n) = Raise ZeroDivisionError.
Proof. intros H. now rewrite (of_uint63_zero n H). Qed.

Lemma count_cases (n : int) : Uint63.to_Z n = 0%Z \/ (0 < Uint63.to_Z n)%Z.
Proof. pose proof (Uint63.to_Z_bounded n). lia. Qed.

(** X16.  On a "4326" dataset whose width or height is 0, [pixel_in_m]
    computes the four distances, raising what they raise, and then raises
    [ZeroDivisionError]: it returns nothing. *)
Theorem pixel_in_m_no_pixels `{Libm} (satdata : DatasetReader) :
  let b := bounds satdata in
  crs_code satdata = "4326" ->
  Uint63.to_Z (width satdata) = 0%Z \/ Uint63.to_Z (height satdata) = 0%Z ->
  pixel_in_m satdata
  = (_ <- distance_in_m (top b) (left b) (top b) (right b) ;;
     _ <- distance_in_m (bottom b) (left b) (bottom b) (right b) ;;
     _ <- distance_in_m (top b) (left b) (bottom b) (left b) ;;
     _ <- distance_in_m (top b) (right b) (bottom b) (right b) ;;
     Raise ZeroDivisionError).
Proof.
  cbv zeta. intros Hcrs Hz. unfold pixel_in_m. rewrite Hcrs, String.eqb_refl.
  repeat match goal with
         | |- (_ <- ?a ;; _) = _ =>
             match a with
             | distance_in_m _ _ _ _ =>
                 destruct a; cbn [bind]; [ | reflexivity]
             end
         end.
  destruct (count_cases (width satdata)) as [W | W].
  - now rewrite (truediv_no_count _ _ W).
  - destruct Hz as [Hz | Hz]; [lia | ].
    rewrite (PixelFootprintEstimator.truediv_count _ _ W). cbn [bind].
    now rewrite (truediv_no_count _ _ Hz).
Qed.

Lemma pixel_in_m_no_pixels_witness :
  @pixel_in_m Standins.small_angle_libm no_columns = Raise ZeroDivisionError.
Proof.
  etransitivity.
  - apply (@pixel_in_m_no_pixels Standins.small_angle_libm no_columns);
      [reflexivity | left; reflexivity].
  - vm_compute. reflexivity.
Defined.

(** ** What can be raised *)

Lemma round_2_raises (x : float) (e : exn) :
  round_2 x = Raise e -> e = ValueError \/ e = OverflowError.
Proof.
  unfold round_2, py_round, truediv_int_float, float_of_int, truediv.
  change (100.0 =? 0) with false.
  destruct (Prim2SF (x * 100.0)) as [s | s | | s m ex]; cbn [bind not_an_integer];
    try (intros E; inversion E; auto; fail);
    destruct (is_infinity _); cbn [bind]; intros E; inversion E; auto.
Qed.

(** X17.  Nothing but [ValueError] and [OverflowError] leaves
    [distance_in_m]; [pixel_in_m] raises these and [ZeroDivisionError], the
    latter only on a dataset whose width or height is 0. *)
Theorem arithmetic_errors_only `{Libm} (e : exn) :
  (forall lat1 lon1 lat2 lon2,
      distance_in_m lat1 lon1 lat2 lon2 = Raise e ->
      e = ValueError \/ e = OverflowError)
  /\ (forall satdata,
         pixel_in_m satdata = Raise e ->
         e = ValueError \/ e = OverflowError
         \/ (e = ZeroDivisionError
             /\ (Uint63.to_Z (width satdata) = 0%Z
                 \/ Uint63.to_Z (height satdata) = 0%Z))).
Proof.
  split; [intros lat1 lon1 lat2 lon2; apply distance_in_m_raises | ].
  intros satdata. unfold pixel_in_m.
  destruct (String.eqb _ _); [ | discriminate].
  repeat match goal with
         | |- (_ <- ?a ;; _) = _ -> _ =>
             match a with
             | distance_in_m _ _ _ _ =>
                 let D := fresh "D" in
                 destruct a eqn:D; cbn [bind];
                 [ | apply distance_in_m_raises in D; intros E; inversion E;
                     subst; tauto]
             end
         end.
  destruct (count_cases (width satdata)) as [W | W].
  { rewrite (truediv_no_count _ _ W). cbn [bind].
    intros E; inversion E. right. right. split; [reflexivity | now left]. }
  rewrite (PixelFootprintEstimator.truediv_count _ _ W). cbn [bind].
  destruct (count_cases (height satdata)) as [Hh | Hh].
  { rewrite (truediv_no_count _ _ Hh). cbn [bind].
    intros E; inversion E. right. right. split; [reflexivity | now right]. }
  rewrite (PixelFootprintEstimator.truediv_count _ _ Hh). cbn [bind].
  destruct (round_2 _) eqn:Rx; cbn [bind];
    [clear Rx
    | apply round_2_raises in Rx; intros E; inversion E; subst; tauto].
  destruct (round_2 _) eqn:Ry; cbn [bind];
    [ | apply round_2_raises in Ry; intros E; inversion E; subst; tauto].
  discriminate.
Qed.

Lemma arithmetic_errors_only_witness :
  ZeroDivisionError = ValueError \/ ZeroDivisionError = OverflowError
  \/ (ZeroDivisionError = ZeroDivisionError
      /\ (Uint63.to_Z (width no_columns) = 0%Z
          \/ Uint63.to_Z (height no_columns) = 0%Z)).
Proof.
  destruct (@arithmetic_errors_only Standins.small_angle_libm ZeroDivisionError)
    as (_ & Hp).
  apply (Hp no_columns). vm_compute. reflexivity.
Defined.

(** ** The height of a pixel *)

(** X18.  The height [pixel_in_m] gives to a pixel does not depend on the
    longitudes of the dataset: two "4326" datasets with the same top,
    bottom and height, whose longitudes in radians are finite numbers, get
    the same second entry. *)
Theorem pixel_height_ignores_longitudes `{Libm}
  (g g' : DatasetReader) (x y : float) (r : option (list float)) :
  crs_code g = "4326" -> crs_code g' = "4326" ->
  top (bounds g) = top (bounds g') -> bottom (bounds g) = bottom (bounds g') ->
  height g = height g' ->
  is_finite (left (bounds g) * pi / 180) = true ->
  is_finite (right (bounds g) * pi / 180) = true ->
  is_finite (left (bounds g') * pi / 180) = true ->
  is_finite (right (bounds g') * pi / 180) = true ->
  pixel_in_m g = Ok (Some [x; y]) -> pixel_in_m g' = Ok r ->
  exists x', r = Some [x'; y].
Proof.
  intros C C' Et Eb Eh Fl Fr Fl' Fr'. unfold pixel_in_m.
  rewrite C, C', String.eqb_refl, <- Et, <- Eb, <- Eh.
  rewrite (along_meridian (top (bounds g)) (bottom (bounds g))
             (right (bounds g)) (left (bounds g)) Fr Fl).
  rewrite (along_meridian (top (bounds g)) (bottom (bounds g))
             (left (bounds g')) (left (bounds g)) Fl' Fl).
  rewrite (along_meridian (top (bounds g)) (bottom (bounds g))
             (right (bounds g')) (left (bounds g)) Fr' Fl).
  destruct (distance_in_m _ (left (bounds g)) _ (left (bounds g))) as [l | e];
    [ | intros E; repeat (destruct (distance_in_m _ _ _ _) in E; cbn [bind] in E;
                          try discriminate E)].
  repeat match goal with
         | |- (_ <- ?a ;; _) = _ -> _ =>
             destruct a; cbn [bind]; [ | discriminate]
         end.
  intros E. inversion E; subst.
  repeat match goal with
         | |- (_ <- ?a ;; _) = _ -> _ =>
             destruct a; cbn [bind]; [ | discriminate]
         end.
  intros E'. inversion E'. eauto.
Qed.

Lemma pixel_height_ignores_longitudes_witness :
  exists x', Some [22.26; 11.13] = Some [x'; 11.13].
Proof.
  apply (@pixel_height_ignores_longitudes Standins.small_angle_libm
           small_tile wide_tile 11.13 11.13 (Some [22.26; 11.13]));
    vm_compute; reflexivity.
Defined.

End FootprintExtras.

(* ================================================================== *)
(** * Rounding keeps the order *)
(* ================================================================== *)

Module RoundingOrder.
Import SpecFloatFacts RealView RealOps Further.

Section Format.
Variables prec emax : Z.
Hypothesis prec_pos : (0 < prec)%Z.

Local Abbreviation emin := (SpecFloat.emin prec emax).
Local Abbreviation fexp := (SpecFloat.fexp prec emax).

Lemma IZR_lt_half (a b : Z) : (IZR a < IZR b + / 2)%R -> (a <= b)%Z.
Proof.
  intros H. destruct (Z.le_gt_cases a b) as [ | G]; [assumption | exfalso].
  assert (IZR (b + 1) <= IZR a)%R by (apply IZR_le; lia).
  rewrite plus_IZR in *. lra.
Qed.

Lemma IZR_gt_half (a b : Z) : (IZR b - / 2 <= IZR a)%R -> (b <= a)%Z.
Proof.
  intros H. destruct (Z.le_gt_cases b a) as [ | G]; [assumption | exfalso].
  assert (IZR (a + 1) <= IZR b)%R by (apply IZR_le; lia).
  rewrite plus_IZR in *. lra.
Qed.

(** Rounding keeps the order. *)
Lemma rounds_to_mono (X X' v v' : R) :
  rounds_to prec emax X v -> rounds_to prec emax X' v' ->
  (X <= X')%R -> (v <= v')%R.
Proof.
  intros (E & n & HE & Hn & -> & Hc & Ho & Hu & Hl)
         (E' & n' & HE' & Hn' & -> & Hc' & Ho' & Hu' & Hl') HX.
  apply Rabs_le_inv in Hc. apply Rabs_le_inv in Hc'.
  pose proof (bpow_pos E) as PE. pose proof (bpow_pos E') as PE'.
  destruct (Z.lt_trichotomy E E') as [Lt | [Eq | Gt]].
  - (* a finer unit below: a power of two lies between *)
    assert (Hp : bpow (E + prec) = (IZR (2 ^ prec) * bpow E)%R).
    { rewrite Z.add_comm, bpow_add, <- bpow_IZR by lia. reflexivity. }
    assert (Hp' : bpow (E' + prec - 1) = (IZR (2 ^ (prec - 1)) * bpow E')%R).
    { replace (E' + prec - 1)%Z with ((prec - 1) + E')%Z by lia.
      rewrite bpow_add, <- bpow_IZR by lia. reflexivity. }
    specialize (Hl' ltac:(lia)).
    assert (F1 : (n <= 2 ^ prec)%Z).
    { apply IZR_lt_half. apply (Rmult_lt_reg_r (bpow E)); [exact PE | ].
      rewrite Hp in Hu. lra. }
    assert (F2 : (2 ^ (prec - 1) <= n')%Z).
    { apply IZR_gt_half. apply (Rmult_le_reg_r (bpow E')); [exact PE' | ].
      rewrite Hp' in Hl'. lra. }
    apply IZR_le in F1, F2.
    assert (Hmid : (bpow (E + prec) <= bpow (E' + prec - 1))%R)
      by (apply bpow_le; lia).
    rewrite Hp, Hp' in Hmid. nra.
  - subst E'.
    destruct (Rle_lt_dec (IZR n * bpow E) (IZR n' * bpow E)) as [ | G];
      [assumption | exfalso].
    assert (Hnn : (n' < n)%Z).
    { apply lt_IZR. apply (Rmult_lt_reg_r (bpow E)); [exact PE | exact G]. }
    assert (Hge : (IZR (n' + 1) <= IZR n)%R) by (apply IZR_le; lia).
    rewrite plus_IZR in Hge.
    assert (En : IZR n = (IZR n' + 1)%R) by nra.
    assert (T : (IZR n * bpow E - X = bpow E / 2)%R) by nra.
    assert (T' : (IZR n' * bpow E - X' = - (bpow E / 2))%R) by nra.
    assert (Ez : n = (n' + 1)%Z).
    { apply eq_IZR. rewrite plus_IZR. exact En. }
    destruct (Z.odd n) eqn:On.
    + specialize (Ho eq_refl). rewrite T, Rabs_pos_eq in Ho by lra. lra.
    + assert (On' : Z.odd n' = true).
      { rewrite Ez, Z.add_1_r, Z.odd_succ, <- Z.negb_odd in On.
        now apply negb_false_iff in On. }
      specialize (Ho' On'). rewrite T', Rabs_Ropp, Rabs_pos_eq in Ho' by lra. lra.
  - exfalso. specialize (Hl ltac:(lia)).
    assert (bpow (E' + prec) <= bpow (E + prec - 1))%R by (apply bpow_le; lia).
    lra.
Qed.

(** A number of the format is what it is rounded to. *)
Lemma valid_rounds (r : spec_float) :
  SpecFloat.valid_binary prec emax r = true ->
  (exists s, r = S754_zero s) \/ (exists m e, r = S754_finite false m e) ->
  rounds_to prec emax (SF2R r) (SF2R r).
Proof.
  intros V [(s & ->) | (m & e & ->)].
  - exists emin, 0%Z. cbn [SF2R]. pose proof (bpow_pos emin).
    pose proof (bpow_pos (emin + prec)).
    rewrite Rminus_diag, Rabs_R0. repeat split; try lra; try lia.
  - pose proof (valid_finite_bounds prec emax false m e V) as (He & Hd & Hfull).
    pose proof (digits2_pos_bounds m) as [Lo Hi].
    pose proof (bpow_pos e) as Pe.
    exists e, (Zpos m). cbn [SF2R cond_Zopp].
    rewrite Rminus_diag, Rabs_R0.
    split; [exact He | ]. split; [lia | ]. split; [reflexivity | ].
    split; [lra | ]. split; [intros _; lra | ]. split.
    + rewrite Z.add_comm, bpow_add, (bpow_IZR prec) by lia.
      apply Rmult_lt_compat_r; [exact Pe | ]. apply IZR_lt.
      apply Z.lt_le_trans with (1 := Hi). apply Z.pow_le_mono_r; lia.
    + intros Hlt. specialize (Hfull Hlt).
      replace (e + prec - 1)%Z with ((prec - 1) + e)%Z by lia.
      rewrite bpow_add, (bpow_IZR (prec - 1)) by lia.
      apply Rmult_le_compat_r; [lra | ]. apply IZR_le.
      rewrite Hfull in Lo. exact Lo.
Qed.

(** [binary_round_aux] on a mantissa that fills the precision, or more. *)
Lemma aux_rounds (m : positive) (e : Z) :
  (e <= fexp (Zdigits2 (Zpos m) + e))%Z ->
  let X := (IZR (Zpos m) * bpow e)%R in
  let r := binary_round_aux prec emax false (Zpos m) e loc_Exact in
  r = S754_infinity false
  \/ (rounds_to prec emax X (SF2R r)
      /\ (r = S754_zero false \/ exists m' e', r = S754_finite false m' e')).
Proof.
  intros Hz X r.
  pose proof (binary_round_aux_close prec emax prec_pos (Zpos m) 1 e
                ltac:(lia) ltac:(lia)) as H.
  rewrite Z.div_1_r, Z.mod_1_r in H. change (loc_of 0 1) with loc_Exact in H.
  cbv zeta in H. fold r in H.
  replace (IZR (Zpos m) / 1 * bpow e)%R with X in H by (subst X; field).
  set (d := Zdigits2 (Zpos m)) in *.
  replace (Z.max e (fexp (d + e))) with (fexp (d + e)) in H by lia.
  set (E := fexp (d + e)) in *.
  destruct H as (n & Hn & Hc & Ho & _ & [(Hr & _) | (Hv & Hs)]); [now left | right].
  split.
  - exists E, n. rewrite Hv.
    pose proof (RoundingFormat.Zdigits2_upper (Zpos m) ltac:(lia)) as U.
    pose proof (RoundingFormat.Zdigits2_lower (Zpos m) ltac:(lia)) as L.
    pose proof (RoundingFormat.Zdigits2_nonneg (Zpos m)) as D0.
    fold d in U, L, D0. pose proof (bpow_pos e) as Pe.
    assert (D1 : (1 <= d)%Z).
    { destruct (Z.le_gt_cases 1 d) as [ | G]; [assumption | ].
      replace d with 0%Z in U by lia. cbn in U. lia. }
    split; [apply fexp_ge_emin | ]. split; [exact Hn | ].
    split; [reflexivity | ]. split; [exact Hc | ]. split; [exact Ho | ]. split.
    + apply Rlt_le_trans with (bpow (d + e)).
      * rewrite bpow_add, (bpow_IZR d) by lia. subst X.
        apply Rmult_lt_compat_r; [exact Pe | ]. now apply IZR_lt.
      * apply bpow_le. subst E. unfold SpecFloat.fexp. lia.
    + intros Hlt.
      assert (EE : E = (d + e - prec)%Z) by (subst E; unfold SpecFloat.fexp in *; lia).
      rewrite EE. replace (d + e - prec + prec - 1)%Z with ((d - 1) + e)%Z by lia.
      rewrite bpow_add, (bpow_IZR (d - 1)) by lia. subst X.
      apply Rmult_le_compat_r; [lra | ]. now apply IZR_le.
  - destruct Hs as [(_ & Hs) | (m' & e' & Hs & _)]; [now left | right; eauto].
Qed.

(** [binary_round] on a positive number of any exponent. *)
Lemma binary_round_rounds (m : positive) (e : Z) :
  let X := (IZR (Zpos m) * bpow e)%R in
  let r := binary_round prec emax false m e in
  r = S754_infinity false
  \/ (rounds_to prec emax X (SF2R r)
      /\ (r = S754_zero false \/ exists m' e', r = S754_finite false m' e')).
Proof.
  intros X r. subst r. unfold binary_round, shl_align.
  set (d := Zpos (digits2_pos m)).
  assert (G : forall mz ez,
            (IZR (Zpos mz) * bpow ez)%R = X ->
            (ez <= fexp (Zdigits2 (Zpos mz) + ez))%Z ->
            let r := binary_round_aux prec emax false (Zpos mz) ez loc_Exact in
            r = S754_infinity false
            \/ (rounds_to prec emax X (SF2R r)
                /\ (r = S754_zero false
                    \/ exists m' e', r = S754_finite false m' e'))).
  { intros mz ez HX Hz. rewrite <- HX. now apply aux_rounds. }
  destruct (fexp (d + e) - e)%Z as [ | k | k] eqn:Ek.
  - apply G; [reflexivity | ]. cbn [Zdigits2]. fold d. lia.
  - apply G; [reflexivity | ]. cbn [Zdigits2]. fold d. lia.
  - apply G.
    + rewrite SpecFloatFacts.iter_xO_value, mult_IZR, <- bpow_IZR by lia.
      subst X. rewrite Rmult_assoc, <- bpow_add. f_equal. f_equal. lia.
    + cbn [Zdigits2]. rewrite SpecFloatFacts.digits2_pos_iter_xO.
      rewrite Pos2Z.inj_add. fold d.
      replace (d + Zpos k + fexp (d + e))%Z with (d + e)%Z by lia. lia.
Qed.

(** The product of two positive numbers. *)
Lemma SFmul_rounds (m1 m2 : positive) (e1 e2 : Z) :
  let x := S754_finite false m1 e1 in
  let y := S754_finite false m2 e2 in
  let r := SFmul prec emax x y in
  SpecFloat.valid_binary prec emax r = true ->
  r = S754_infinity false
  \/ (rounds_to prec emax (SF2R x * SF2R y) (SF2R r)
      /\ (r = S754_zero false \/ exists m' e', r = S754_finite false m' e')).
Proof.
  intros x y r. subst x y r. cbn [SFmul xorb SF2R cond_Zopp]. intros V.
  assert (HX : (IZR (Zpos (m1 * m2)) * bpow (e1 + e2))%R
               = (IZR (Zpos m1) * bpow e1 * (IZR (Zpos m2) * bpow e2))%R).
  { rewrite Pos2Z.inj_mul, mult_IZR, bpow_add. ring. }
  rewrite <- HX.
  destruct (Z.le_gt_cases (e1 + e2)
              (fexp (Zdigits2 (Zpos (m1 * m2)) + (e1 + e2)))) as [Hz | Hz].
  - now apply aux_rounds.
  - pose proof (binary_round_aux_close prec emax prec_pos (Zpos (m1 * m2)) 1
                  (e1 + e2) ltac:(lia) ltac:(lia)) as H.
    rewrite Z.div_1_r, Z.mod_1_r in H. change (loc_of 0 1) with loc_Exact in H.
    cbv zeta in H.
    replace (IZR (Zpos (m1 * m2)) / 1 * bpow (e1 + e2))%R
      with (IZR (Zpos (m1 * m2)) * bpow (e1 + e2))%R in H by field.
    replace (Z.max (e1 + e2) (fexp (Zdigits2 (Zpos (m1 * m2)) + (e1 + e2))))
      with (e1 + e2)%Z in H by lia.
    destruct H as (n & Hn & _ & _ & Hx & [(Hr & _) | (Hv & Hs)]); [now left | right].
    specialize (Hx eq_refl eq_refl).
    assert (Sh : binary_round_aux prec emax false (Zpos (m1 * m2)) (e1 + e2) loc_Exact
                 = S754_zero false
                 \/ exists m' e',
                     binary_round_aux prec emax false (Zpos (m1 * m2)) (e1 + e2)
                       loc_Exact = S754_finite false m' e').
    { destruct Hs as [(_ & Hs) | (m' & e' & Hs & _)]; [now left | right; eauto]. }
    split; [ | exact Sh].
    rewrite <- Hx, <- Hv. apply valid_rounds; [exact V | ].
    destruct Sh as [-> | Sh]; [left; eauto | right; exact Sh].
Qed.

(** The difference of two finite numbers, the first not below the second. *)
Lemma SFsub_rounds (x y : spec_float) :
  SpecFloat.valid_binary prec emax x = true ->
  SpecFloat.valid_binary prec emax y = true ->
  SFfinite x -> SFfinite y ->
  let D := (SF2R x - SF2R y)%R in
  let r := SFsub prec emax x y in
  SpecFloat.valid_binary prec emax r = true ->
  (0 <= D)%R ->
  r = S754_infinity false
  \/ (rounds_to prec emax D (SF2R r)
      /\ ((exists s, r = S754_zero s) \/ exists m' e', r = S754_finite false m' e')).
Proof.
  intros Vx Vy Fx Fy D r Vr HD.
  assert (Exact : SF2R r = D ->
                  ((exists s, r = S754_zero s)
                   \/ exists m' e', r = S754_finite false m' e') ->
                  rounds_to prec emax D (SF2R r)
                  /\ ((exists s, r = S754_zero s)
                      \/ exists m' e', r = S754_finite false m' e')).
  { intros Ev Hs. split; [ | exact Hs]. rewrite <- Ev. now apply valid_rounds. }
  destruct x as [sx | sx | | sx mx ex], y as [sy | sy | | sy my ey];
    try contradiction; subst D r; cbn [SFsub SF2R] in *.
  - right. apply Exact.
    + destruct sx, sy; cbn [SF2R]; lra.
    + destruct sx, sy; eauto.
  - right. destruct sy; cbn [negb cond_Zopp] in *.
    + apply Exact; [rewrite opp_IZR; lra | right; eauto].
    + exfalso. pose proof (SF2R_finite_pos my ey) as P.
      cbn [SF2R cond_Zopp] in P. lra.
  - right. destruct sx; cbn [cond_Zopp] in *.
    + exfalso. pose proof (SF2R_finite_neg mx ex) as P.
      cbn [SF2R cond_Zopp] in P. lra.
    + apply Exact; [lra | right; eauto].
  - pose proof (difference_value sx sy mx my ex ey) as Hd. cbv zeta in Hd.
    cbn [SF2R] in Hd.
    set (M := (cond_Zopp sx (Zpos (fst (shl_align mx ex (Z.min ex ey))))
               - cond_Zopp sy (Zpos (fst (shl_align my ey (Z.min ex ey)))))%Z) in *.
    pose proof (bpow_pos (Z.min ex ey)) as Pz.
    destruct M as [ | m | m] eqn:EM; cbn [binary_normalize] in *.
    + right. apply Exact; [cbn [SF2R]; lra | left; eauto].
    + pose proof (binary_round_rounds m (Z.min ex ey)) as H. cbv zeta in H.
      rewrite Hd in H.
      destruct H as [H | (Hb & Hs)]; [left; exact H | right].
      split; [exact Hb | ].
      destruct Hs as [Hs | Hs]; [left; eauto | right; exact Hs].
    + exfalso. assert (IZR (Zneg m) < 0)%R by (apply IZR_lt; lia). nra.
Qed.

End Format.
End RoundingOrder.

(* ================================================================== *)
(** * Pixels: the order of the points, and no negative pixel *)
(* ================================================================== *)

Module PixelOrder.
Import Py imagery_helper GeoUtils SpecFloatFacts Binary64Facts PyFacts.
Import RealView RealOps Binary64Reals RoundingOrder Further Examples.
Local Open Scope float_scope.

(** ** Shapes *)

Lemma SFmul_finite_inv (x y : spec_float) :
  SFfinite (SFmul prec emax x y) -> SFfinite x /\ SFfinite y.
Proof.
  destruct x as [sx | sx | | sx mx ex], y as [sy | sy | | sy my ey];
    cbn [SFmul SFfinite]; tauto.
Qed.

Lemma py_int_finite (p : float) (z : Z) :
  py_int p = Ok z -> SFfinite (Prim2SF p).
Proof.
  unfold py_int. destruct (Prim2SF p) as [s | s | | s m e]; cbn; try discriminate;
    intros _; exact I.
Qed.

Lemma nonneg_finite_plain (x : spec_float) :
  SFnonneg x -> SFfinite x -> plain x.
Proof.
  destruct x as [s | s | | s m e]; cbn; intros N F; try contradiction.
  - left. eauto.
  - subst s. right. eauto.
Qed.

Lemma plain_finite (x : spec_float) : plain x -> SFfinite x.
Proof. intros [(s & ->) | (m & e & ->)]; exact I. Qed.

Lemma plain_nonneg (x : spec_float) : plain x -> (0 <= SF2R x)%R.
Proof.
  intros [(s & ->) | (m & e & ->)]; [cbn; lra | ].
  pose proof (SF2R_finite_pos m e). lra.
Qed.

(** The quotient of a count by an absolute value is not below zero. *)
Lemma div_abs_nonneg (x d : float) :
  SFnonneg (Prim2SF x) -> SFnonneg (Prim2SF (x / abs d)).
Proof.
  rewrite div_spec, abs_spec.
  destruct (Prim2SF x) as [sx | sx | | sx mx ex],
           (Prim2SF d) as [sd | sd | | sd md ed];
    cbn [SFabs SFdiv SFnonneg xorb]; intros N; subst; try exact I;
    try reflexivity.
  apply (SFdiv_nonneg prec emax (S754_finite false mx ex) (S754_finite false md ed));
    reflexivity.
Qed.

(** Truncation, between the integers. *)
Lemma py_int_bounds (p : float) (z : Z) :
  plain (Prim2SF p) -> py_int p = Ok z ->
  (IZR z <= SF2R (Prim2SF p) < IZR z + 1)%R.
Proof.
  unfold py_int. intros [(s & ->) | (m & e & ->)].
  - cbn. intros E. inversion E. cbn. lra.
  - destruct (SFtrunc_floor m e) as (z' & -> & B). intros E. inversion E.
    subst z'. exact B.
Qed.

(** ** The two roundings *)

(** The product of a plain number and a positive one. *)
Lemma mul_rounds (d res : float) (mr : positive) (er : Z) :
  plain (Prim2SF d) -> Prim2SF res = S754_finite false mr er ->
  SFfinite (Prim2SF (d * res)) ->
  rounds_to prec emax (SF2R (Prim2SF d) * SF2R (Prim2SF res))
    (SF2R (Prim2SF (d * res)))
  /\ plain (Prim2SF (d * res)).
Proof.
  intros Pd Er F. pose proof (Prim2SF_valid (d * res)) as V.
  rewrite mul_spec in F, V |- *. rewrite Er in F, V |- *.
  destruct Pd as [(s & Ed) | (m & e & Ed)]; rewrite Ed in F, V |- *.
  - cbn [SFmul xorb SF2R]. rewrite Rmult_0_l.
    split; [ | left; eexists; reflexivity].
    apply (valid_rounds prec emax prec_positive (S754_zero (xorb s false)));
      [reflexivity | left; eauto].
  - destruct (SFmul_rounds prec emax prec_positive m mr e er V) as [Hi | (Hr & Hs)].
    + unfold SF64mul in F. rewrite Hi in F. contradiction.
    + split; [exact Hr | ].
      destruct Hs as [Hs | Hs]; [left; eauto | right; exact Hs].
Qed.

(** The difference of two numbers, the first not below the second. *)
Lemma sub_rounds (hi c : float) :
  (hi <? c) = false -> SFfinite (Prim2SF (hi - c)) ->
  SFfinite (Prim2SF hi) /\ SFfinite (Prim2SF c)
  /\ rounds_to prec emax (SF2R (Prim2SF hi) - SF2R (Prim2SF c))
       (SF2R (Prim2SF (hi - c)))
  /\ plain (Prim2SF (hi - c)).
Proof.
  intros L F. pose proof (Prim2SF_valid (hi - c)) as V.
  rewrite sub_spec in F, V |- *.
  destruct (SFsub_finite_inv prec emax _ _ F) as [Fh Fc].
  split; [exact Fh | ]. split; [exact Fc | ].
  assert (HD : (0 <= SF2R (Prim2SF hi) - SF2R (Prim2SF c))%R).
  { pose proof (SFcompare_real prec emax prec_positive _ _
                  (Prim2SF_valid hi) (Prim2SF_valid c) Fh Fc) as C.
    rewrite ltb_spec in L. unfold SFltb in L.
    destruct (SFcompare (Prim2SF hi) (Prim2SF c)) as [[ | | ] | ];
      try discriminate L; try contradiction; lra. }
  destruct (SFsub_rounds prec emax prec_positive _ _
              (Prim2SF_valid hi) (Prim2SF_valid c) Fh Fc V HD) as [Hi | (Hr & Hs)].
  - unfold SF64sub in F. rewrite Hi in F. contradiction.
  - split; [exact Hr | exact Hs].
Qed.

(** ** One coordinate *)

(** The position [int((hi - c) * res)] does not grow with [c]. *)
Lemma position_order (hi c1 c2 res : float) (z1 z2 : Z) :
  SFnonneg (Prim2SF res) ->
  (hi <? c1) = false -> (hi <? c2) = false -> (c1 <=? c2) = true ->
  py_int ((hi - c1) * res) = Ok z1 -> py_int ((hi - c2) * res) = Ok z2 ->
  (z2 <= z1)%Z.
Proof.
  intros Nres L1 L2 Hle P1 P2.
  pose proof (py_int_finite _ _ P1) as F1.
  pose proof (py_int_finite _ _ P2) as F2.
  assert (G1 := F1). assert (G2 := F2).
  rewrite mul_spec in G1, G2.
  apply SFmul_finite_inv in G1, G2.
  destruct G1 as [Fd1 Fres], G2 as [Fd2 _].
  destruct (sub_rounds hi c1 L1 Fd1) as (Fh & Fc1 & R1 & S1).
  destruct (sub_rounds hi c2 L2 Fd2) as (_ & Fc2 & R2 & S2).
  assert (HC : (SF2R (Prim2SF c1) <= SF2R (Prim2SF c2))%R).
  { rewrite leb_spec in Hle.
    exact (SFleb_real prec emax prec_positive _ _
             (Prim2SF_valid c1) (Prim2SF_valid c2) Fc1 Fc2 Hle). }
  assert (HD : (SF2R (Prim2SF (hi - c2)) <= SF2R (Prim2SF (hi - c1)))%R).
  { apply (rounds_to_mono prec emax prec_positive _ _ _ _ R2 R1). lra. }
  destruct (nonneg_finite_plain _ Nres Fres) as [(s & Er) | (mr & er & Er)].
  - (* no resolution: both positions are 0 *)
    assert (Z0 : forall d z, SFfinite (Prim2SF d) -> py_int (d * res) = Ok z ->
                             z = 0%Z).
    { intros d z Fd. unfold py_int. rewrite mul_spec, Er.
      destruct (Prim2SF d) as [sd | sd | | sd md ed]; try contradiction;
        cbn; intros E; now inversion E. }
    rewrite (Z0 _ _ Fd1 P1), (Z0 _ _ Fd2 P2). lia.
  - destruct (mul_rounds _ res mr er S1 Er F1) as (M1 & T1).
    destruct (mul_rounds _ res mr er S2 Er F2) as (M2 & T2).
    pose proof (py_int_bounds _ _ T1 P1) as B1.
    pose proof (py_int_bounds _ _ T2 P2) as B2.
    assert (HR : (0 < SF2R (Prim2SF res))%R)
      by (rewrite Er; apply SF2R_finite_pos).
    assert (HP : (SF2R (Prim2SF ((hi - c2) * res))
                  <= SF2R (Prim2SF ((hi - c1) * res)))%R).
    { apply (rounds_to_mono prec emax prec_positive _ _ _ _ M2 M1). nra. }
    apply Z.lt_succ_r. apply lt_IZR. rewrite succ_IZR. lra.
Qed.

(** X19.  The pixel follows the point, mirrored: whenever
    [convert_lng_lat_to_pixel] returns for two points of a dataset, the
    point with the larger longitude does not get the larger column, and
    the point with the larger latitude does not get the larger row. *)
Theorem pixel_order (g : DatasetReader) (lng1 lat1 lng2 lat2 : float)
  (x1 y1 x2 y2 : Z) :
  convert_lng_lat_to_pixel g lng1 lat1 = Ok (x1, y1) ->
  convert_lng_lat_to_pixel g lng2 lat2 = Ok (x2, y2) ->
  ((lng1 <=? lng2) = true -> (x2 <= x1)%Z)
  /\ ((lat1 <=? lat2) = true -> (y2 <= y1)%Z).
Proof.
  unfold convert_lng_lat_to_pixel, truediv.
  destruct ((right (bounds g) <? lng1) || (lng1 <? left (bounds g))) eqn:A1;
    [discriminate | ].
  destruct ((top (bounds g) <? lat1) || (lat1 <? bottom (bounds g))) eqn:B1;
    [discriminate | ].
  destruct ((right (bounds g) <? lng2) || (lng2 <? left (bounds g))) eqn:A2;
    [discriminate | ].
  destruct ((top (bounds g) <? lat2) || (lat2 <? bottom (bounds g))) eqn:B2;
    [discriminate | ].
  apply orb_false_elim in A1, B1, A2, B2.
  destruct A1 as [A1 _], B1 as [B1 _], A2 as [A2 _], B2 as [B2 _].
  destruct (np.abs (right (bounds g) - left (bounds g)) =? 0);
    [discriminate | ].
  destruct (np.abs (top (bounds g) - bottom (bounds g)) =? 0);
    [discriminate | ].
  cbn [bind].
  destruct (py_int ((right (bounds g) - lng1) * _)) as [u1 | e] eqn:U1;
    cbn [bind]; [ | discriminate].
  destruct (py_int ((top (bounds g) - lat1) * _)) as [v1 | e] eqn:V1;
    cbn [bind]; [ | discriminate].
  destruct (py_int ((right (bounds g) - lng2) * _)) as [u2 | e] eqn:U2;
    cbn [bind]; [ | discriminate].
  destruct (py_int ((top (bounds g) - lat2) * _)) as [v2 | e] eqn:V2;
    cbn [bind]; [ | discriminate].
  intros E1 E2. inversion E1; inversion E2; subst. split; intros Hle.
  - refine (position_order _ _ _ _ _ _ _ A1 A2 Hle U1 U2).
    apply div_abs_nonneg, of_uint63_nonneg.
  - refine (position_order _ _ _ _ _ _ _ B1 B2 Hle V1 V2).
    apply div_abs_nonneg, of_uint63_nonneg.
Qed.

(** Two points of the raster over one degree. *)
Lemma pixel_order_witness :
  convert_lng_lat_to_pixel one_degree 0.25 0.125 = Ok (750, 875)%Z
  /\ convert_lng_lat_to_pixel one_degree 0.75 0.875 = Ok (250, 125)%Z
  /\ (250 <= 750)%Z /\ (125 <= 875)%Z.
Proof.
  destruct (pixel_order one_degree 0.25 0.125 0.75 0.875 750 875 250 125
              eq_refl eq_refl) as [Hx Hy].
  split; [reflexivity | ]. split; [reflexivity | ].
  split; [apply Hx | apply Hy]; reflexivity.
Defined.

(** ** No negative pixel *)

Lemma py_int_nonneg (p : float) (z : Z) :
  SFnonneg (Prim2SF p) -> py_int p = Ok z -> (0 <= z)%Z.
Proof.
  unfold py_int. destruct (Prim2SF p) as [s | s | | s m e]; cbn [SFtrunc SFnonneg];
    intros N E; inversion E; try lia.
  subst s. cbn [cond_Zopp]. apply Z.shiftl_nonneg. lia.
Qed.

(** X20.  No pixel is negative: whenever [convert_lng_lat_to_pixel]
    returns, on any dataset, the column and the row it returns are at
    least 0. *)
Theorem pixel_never_negative (g : DatasetReader) (lng lat : float) (x y : Z) :
  convert_lng_lat_to_pixel g lng lat = Ok (x, y) -> (0 <= x)%Z /\ (0 <= y)%Z.
Proof.
  unfold convert_lng_lat_to_pixel, truediv.
  destruct ((right (bounds g) <? lng) || (lng <? left (bounds g))) eqn:A;
    [discriminate | ].
  destruct ((top (bounds g) <? lat) || (lat <? bottom (bounds g))) eqn:B;
    [discriminate | ].
  apply orb_false_elim in A, B. destruct A as [A _], B as [B _].
  destruct (np.abs (right (bounds g) - left (bounds g)) =? 0);
    [discriminate | ].
  destruct (np.abs (top (bounds g) - bottom (bounds g)) =? 0);
    [discriminate | ].
  cbn [bind].
  destruct (py_int ((right (bounds g) - lng) * _)) as [u | e] eqn:U;
    cbn [bind]; [ | discriminate].
  destruct (py_int ((top (bounds g) - lat) * _)) as [v | e] eqn:V;
    cbn [bind]; [ | discriminate].
  intros E. inversion E; subst. split.
  - refine (py_int_nonneg _ _ _ U). apply mul_nonneg; [now apply sub_nonneg | ].
    apply div_abs_nonneg, of_uint63_nonneg.
  - refine (py_int_nonneg _ _ _ V). apply mul_nonneg; [now apply sub_nonneg | ].
    apply div_abs_nonneg, of_uint63_nonneg.
Qed.

Lemma pixel_never_negative_witness : (0 <= 750)%Z /\ (0 <= 875)%Z.
Proof.
  exact (pixel_never_negative one_degree 0.25 0.125 750 875 eq_refl).
Defined.

End PixelOrder.

(* ================================================================== *)
(** * Bands of float samples *)
(* ================================================================== *)

Module FloatBands.
Import Py imagery_helper GeoUtils SpecFloatFacts Binary64Facts PyFacts.
Import RealView RealOps Binary64Reals Further.
Local Open Scope float_scope.

(** ** The order of floats *)

Lemma SFleb_of_real (x y : spec_float) :
  SpecFloat.valid_binary prec emax x = true ->
  SpecFloat.valid_binary prec emax y = true ->
  SFfinite x -> SFfinite y ->
  (SF2R x <= SF2R y)%R -> SFleb x y = true.
Proof.
  intros Vx Vy Fx Fy H.
  pose proof (SFcompare_real prec emax prec_positive x y Vx Vy Fx Fy) as C.
  unfold SFleb. destruct (SFcompare x y) as [[ | | ] | ];
    [reflexivity | reflexivity | lra | contradiction].
Qed.

Lemma leb_trans (x y z : float) :
  (x <=? y) = true -> (y <=? z) = true -> (x <=? z) = true.
Proof.
  rewrite !leb_spec.
  pose proof (Prim2SF_valid x) as Vx. pose proof (Prim2SF_valid y) as Vy.
  pose proof (Prim2SF_valid z) as Vz.
  assert (Fin : SFfinite (Prim2SF x) -> SFfinite (Prim2SF y) ->
                SFfinite (Prim2SF z) ->
                SFleb (Prim2SF x) (Prim2SF y) = true ->
                SFleb (Prim2SF y) (Prim2SF z) = true ->
                SFleb (Prim2SF x) (Prim2SF z) = true).
  { intros Fx Fy Fz H1 H2.
    pose proof (SFleb_real prec emax prec_positive _ _ Vx Vy Fx Fy H1).
    pose proof (SFleb_real prec emax prec_positive _ _ Vy Vz Fy Fz H2).
    apply SFleb_of_real; try assumption. lra. }
  destruct (Prim2SF x) as [sx | [ | ] | | sx mx ex] eqn:Ex;
    destruct (Prim2SF y) as [sy | [ | ] | | sy my ey] eqn:Ey;
    destruct (Prim2SF z) as [sz | [ | ] | | sz mz ez] eqn:Ez;
    try (apply Fin; exact I);
    try (intros H1 H2; discriminate H1 || discriminate H2 || reflexivity);
    try (destruct sx); try (destruct sy); try (destruct sz);
    intros H1 H2; try reflexivity; try discriminate H1; discriminate H2.
Qed.

Lemma leb_refl (x : float) : is_nan x = false -> (x <=? x) = true.
Proof.
  intros N. apply is_nan_false in N. rewrite leb_spec. unfold SFleb.
  pose proof (PixelEdgeCases.SFeqb_refl _ N) as E. unfold SFeqb in E.
  destruct (SFcompare (Prim2SF x) (Prim2SF x)) as [[ | | ] | ];
    try discriminate E; reflexivity.
Qed.

Lemma leb_not_nan (x y : float) :
  (x <=? y) = true -> is_nan x = false /\ is_nan y = false.
Proof.
  unfold is_nan. rewrite leb_spec, !eqb_spec. intros H.
  destruct (Prim2SF x) as [sx | sx | | sx mx ex] eqn:Ex;
    destruct (Prim2SF y) as [sy | sy | | sy my ey] eqn:Ey;
    try discriminate H;
    split; rewrite PixelEdgeCases.SFeqb_refl by discriminate; reflexivity.
Qed.

Lemma leb_total (x y : float) :
  is_nan x = false -> is_nan y = false -> (x <=? y) = true \/ (y <=? x) = true.
Proof.
  intros Nx Ny.
  destruct (y <=? x) eqn:E; [now right | left].
  pose proof (ltb_leb y x Ny Nx) as L. rewrite E in L. cbn in L.
  rewrite leb_spec. rewrite ltb_spec in L. unfold SFltb in L. unfold SFleb.
  destruct (SFcompare (Prim2SF x) (Prim2SF y)) as [[ | | ] | ];
    try discriminate L; reflexivity.
Qed.

(** ** [np.max] on floats *)

Lemma maximum_nan (x y : float) : is_nan x = true -> is_nan (maximum x y) = true.
Proof.
  intros N. unfold maximum. rewrite N, orb_true_r. exact N.
Qed.

Lemma fold_maximum_nan (t : list float) : forall s,
  is_nan s = true -> is_nan (fold_left maximum t s) = true.
Proof.
  induction t as [ | y t IH]; intros s N; cbn [fold_left]; [exact N | ].
  apply IH. now apply maximum_nan.
Qed.

Lemma maximum_bound (x y : float) :
  is_nan (maximum x y) = false ->
  (x <=? maximum x y) = true /\ (y <=? maximum x y) = true.
Proof.
  unfold maximum. destruct (y <=? x) eqn:L; cbn [orb].
  - intros N. split; [now apply leb_refl | exact L].
  - destruct (is_nan x) eqn:Nx; [congruence | ].
    intros Ny. split; [ | now apply leb_refl].
    destruct (leb_total x y Nx Ny) as [H | H]; [exact H | congruence].
Qed.

Lemma fold_maximum_bound (t : list float) : forall s,
  is_nan (fold_left maximum t s) = false ->
  forall x, x = s \/ In x t -> (x <=? fold_left maximum t s) = true.
Proof.
  induction t as [ | y t IH]; intros s N x Hx; cbn [fold_left] in *.
  - destruct Hx as [-> | []]. now apply leb_refl.
  - assert (Nm : is_nan (maximum s y) = false).
    { destruct (is_nan (maximum s y)) eqn:E; [ | reflexivity].
      rewrite (fold_maximum_nan t _ E) in N. discriminate N. }
    destruct (maximum_bound s y Nm) as [Bs By].
    pose proof (IH _ N (maximum s y) (or_introl eq_refl)) as Bm.
    destruct Hx as [-> | [<- | Hin]].
    + exact (leb_trans _ _ _ Bs Bm).
    + exact (leb_trans _ _ _ By Bm).
    + apply (IH _ N). now right.
Qed.

Lemma max_float_bound (band : list float) (m : float) :
  max_float band = Ok m -> is_nan m = false ->
  forall x, In x band -> (x <=? m) = true.
Proof.
  destruct band as [ | s t]; cbn [max_float]; intros E N x Hin; inversion E; subst.
  apply fold_maximum_bound; [exact N | ].
  destruct Hin as [<- | Hin]; [now left | now right].
Qed.

(** ** The cast of a sample between 0 and 255 *)

Lemma Prim2SF_255 : exists m e, Prim2SF 255 = S754_finite false m e
                                /\ (IZR (Zpos m) * bpow e)%R = 255%R.
Proof.
  destruct (of_uint63_value 255 ltac:(cbn; lia)) as (m & e & E & V).
  exists m, e. split; [exact E | exact V].
Qed.

Lemma cast_in_range (x : float) :
  (0 <=? x) = true -> (x <=? 255) = true ->
  floor x = Ok (np.float_to_uint8 x).
Proof.
  intros L0 L255.
  destruct Prim2SF_255 as (mc & ec & Ec & Vc).
  assert (Fx : SFfinite (Prim2SF x)).
  { rewrite leb_spec in L0, L255.
    apply (SFleb_between (Prim2SF 0) (Prim2SF x) (Prim2SF 255));
      [exact I | rewrite Ec; exact I | assumption | assumption]. }
  assert (Hx : (SF2R (Prim2SF x) <= 255)%R).
  { rewrite leb_spec in L255.
    pose proof (SFleb_real prec emax prec_positive _ _ (Prim2SF_valid x)
                  (Prim2SF_valid 255) Fx ltac:(rewrite Ec; exact I) L255) as H.
    rewrite Ec in H. cbn [SF2R cond_Zopp] in H. rewrite Vc in H. exact H. }
  rewrite leb_spec, Prim2SF_zero in L0.
  unfold floor, np.float_to_uint8.
  destruct (Prim2SF x) as [s | s | | s m e] eqn:Ex; try contradiction.
  - reflexivity.
  - destruct s; [discriminate L0 | ].
    destruct (SFtrunc_floor m e) as (z & Ez & Bz).
    cbn [SFtrunc SFfloor cond_Zopp] in Ez |- *. inversion Ez as [Ez'].
    assert (H0 : (0 <= Z.shiftl (Zpos m) e)%Z) by (apply Z.shiftl_nonneg; lia).
    assert (H255 : (Z.shiftl (Zpos m) e <= 255)%Z).
    { rewrite Ez'. apply le_IZR. lra. }
    rewrite Z.abs_eq by exact H0.
    destruct (Z.ltb_spec (Z.shiftl (Zpos m) e) (2 ^ 31)) as [ | G]; [ | lia].
    now rewrite Z.mod_small by lia.
Qed.

(** X21.  On a band of float samples whose maximum is at most 255,
    [to_uint8] does not rescale either, but the cast to 8-bit samples
    truncates: every sample that is not below zero comes out as the largest
    integer that is not above it.  A band of such samples is returned
    unchanged only when its samples are whole numbers. *)
Theorem float_band_is_truncated (band : list float) (m : float) (min max : Z) :
  max_float band = Ok m -> (m <=? 255) = true ->
  to_uint8_float [band] min max = Ok [map np.float_to_uint8 band]
  /\ (forall x, In x band -> (0 <=? x) = true ->
                floor x = Ok (np.float_to_uint8 x)).
Proof.
  intros Em Hm. split.
  - unfold to_uint8_float, scale_float. cbn [mapM]. rewrite Em. cbn [bind].
    now rewrite (leb_not_ltb _ _ Hm).
  - intros x Hin Hx. apply cast_in_range; [exact Hx | ].
    destruct (leb_not_nan _ _ Hm) as [Nm _].
    exact (leb_trans _ _ _ (max_float_bound band m Em Nm x Hin) Hm).
Qed.

(** Three samples between whole numbers. *)
Lemma float_band_is_truncated_witness :
  to_uint8_float [[0.5; 100.75; 200.25]] 0 10000 = Ok [[0; 100; 200]%Z]
  /\ floor 100.75 = Ok 100%Z.
Proof.
  destruct (float_band_is_truncated [0.5; 100.75; 200.25] 200.25 0 10000
              eq_refl eq_refl) as [E F].
  split; [exact E | ].
  exact (F 100.75 (or_intror (or_introl eq_refl)) eq_refl).
Defined.

End FloatBands.
